(** * The SRT subtitle parser of [srt_parser.py]

    A shallow embedding of [parse_srt] together with the pieces of the
    Python runtime it calls ([str.replace], [str.strip], [str.split],
    [str.join], [re.search], [re.sub]), and the properties of the parser
    that the specification states.  After the parser come the choice of a
    subtitle file and the scheduled fetch of [fetch_from_api.py] and the
    two TMDB queries of [tmdb_client.py] that work on JSON values, with
    the web services as functions of an explicit world. *)

From Stdlib Require Import String Ascii.
From Stdlib Require Import List NArith ZArith Bool Arith Lia.
Import ListNotations.

Set Implicit Arguments.

(** ** Python strings

    A Python [str] is a sequence of Unicode code points.  A code point is
    modelled by its number, a string by the list of its code points. *)

Definition char := N.
Definition str := list char.

(** String literals of the development are written as Rocq strings and
    read as Latin-1, one code point per character. *)
Definition py (s : string) : str := map N_of_ascii (list_ascii_of_string s).

Definition LF : char := 10%N.
Definition CR : char := 13%N.
Definition SP : char := 32%N.
Definition TAB : char := 9%N.
Definition DASH : char := 45%N.
Definition DOT : char := 46%N.
Definition COMMA : char := 44%N.
Definition COLON : char := 58%N.
Definition LT : char := 60%N.
Definition GT : char := 62%N.

Module Unicode.

(** Membership of a code point in a table of inclusive ranges. *)
Fixpoint in_ranges (t : list (N * N)) (c : char) : bool :=
  match t with
  | [] => false
  | (lo, hi) :: t' => ((lo <=? c) && (c <=? hi))%N || in_ranges t' c
  end.

(** [str.isspace] for one code point; [str.strip()] and the regular
    expression class [\s] both use it. *)
Definition space_table : list (N * N) :=
  [ (9, 13); (28, 32); (133, 133); (160, 160); (5760, 5760);
    (8192, 8202); (8232, 8233); (8239, 8239); (8287, 8287);
    (12288, 12288) ]%N.

Definition isspace (c : char) : bool := in_ranges space_table c.

(** The decimal digits (general category Nd, Unicode 14), which is what
    the class [\d] matches in a [str] pattern. *)
Definition digit_table : list (N * N) :=
  [ (48, 57); (1632, 1641); (1776, 1785); (1984, 1993); (2406, 2415);
    (2534, 2543); (2662, 2671); (2790, 2799); (2918, 2927); (3046, 3055);
    (3174, 3183); (3302, 3311); (3430, 3439); (3558, 3567); (3664, 3673);
    (3792, 3801); (3872, 3881); (4160, 4169); (4240, 4249); (6112, 6121);
    (6160, 6169); (6470, 6479); (6608, 6617); (6784, 6793); (6800, 6809);
    (6992, 7001); (7088, 7097); (7232, 7241); (7248, 7257);
    (42528, 42537); (43216, 43225); (43264, 43273); (43472, 43481);
    (43504, 43513); (43600, 43609); (44016, 44025); (65296, 65305);
    (66720, 66729); (68912, 68921); (69734, 69743); (69872, 69881);
    (69942, 69951); (70096, 70105); (70384, 70393); (70736, 70745);
    (70864, 70873); (71248, 71257); (71360, 71369); (71472, 71481);
    (71904, 71913); (72016, 72025); (72784, 72793); (73040, 73049);
    (73120, 73129); (92768, 92777); (92864, 92873); (93008, 93017);
    (120782, 120831); (123200, 123209); (123632, 123641);
    (125264, 125273); (130032, 130041) ]%N.

Definition isdecimal (c : char) : bool := in_ranges digit_table c.

End Unicode.

(** ** The string methods used by the parser *)

Module Str.

Definition nonempty {A} (l : list A) : bool :=
  match l with [] => false | _ :: _ => true end.

Fixpoint startswith (p s : str) : bool :=
  match p, s with
  | [], _ => true
  | _ :: _, [] => false
  | a :: p', b :: s' => (a =? b)%N && startswith p' s'
  end.

(** [s.replace(old, new)]: the occurrences of [old] are found from left
    to right without overlap.  [skip] counts the characters of an
    occurrence just replaced that are still to be passed over.  An empty
    [old] is not used by the parser and is left out of the model (the
    string is returned unchanged). *)
Fixpoint replace_from (old new : str) (skip : nat) (s : str) : str :=
  match s with
  | [] => []
  | c :: s' =>
      match skip with
      | S n => replace_from old new n s'
      | O =>
          if nonempty old && startswith old s
          then new ++ replace_from old new (length old - 1) s'
          else c :: replace_from old new 0 s'
      end
  end.

Definition replace (old new s : str) : str := replace_from old new 0 s.

(** [s.lstrip()], [s.rstrip()], [s.strip()] without argument. *)
Fixpoint lstrip (s : str) : str :=
  match s with
  | c :: s' => if Unicode.isspace c then lstrip s' else s
  | [] => []
  end.

Definition rstrip (s : str) : str := rev (lstrip (rev s)).

Definition strip (s : str) : str := rstrip (lstrip s).

(** [s.split(sep)] with a non-empty separator: the pieces between the
    occurrences of [sep], found from left to right without overlap;
    there is always at least one piece.  [cur] holds the current piece,
    reversed. *)
Fixpoint split_from (sep : str) (skip : nat) (cur : str) (s : str)
  : list str :=
  match s with
  | [] => [rev cur]
  | c :: s' =>
      match skip with
      | S n => split_from sep n cur s'
      | O =>
          if nonempty sep && startswith sep s
          then rev cur :: split_from sep (length sep - 1) [] s'
          else split_from sep 0 (c :: cur) s'
      end
  end.

Definition split (sep s : str) : list str := split_from sep 0 [] s.

(** [sep.join(parts)] *)
Fixpoint join (sep : str) (parts : list str) : str :=
  match parts with
  | [] => []
  | [p] => p
  | p :: ps => p ++ sep ++ join sep ps
  end.

End Str.

(** ** Regular expressions

    The fragment of [re] that the two patterns of the parser are written
    in: literal characters, character classes, greedy bounded or unbounded
    repetition of a class, concatenation and numbered capture groups.  The
    matcher is a backtracking matcher in continuation-passing style, as
    Python's engine is: a repetition first takes as many characters as it
    can and gives them back one at a time when the rest of the pattern
    fails. *)

Module Re.

Inductive regex : Type :=
| Chr (c : char)
| Cls (p : char -> bool)
| Cat (r1 r2 : regex)
| Rep (p : char -> bool) (lo : nat) (hi : option nat)
| Grp (n : nat) (r : regex).

Definition groups := list (nat * str).

Fixpoint lookup (n : nat) (g : groups) : option str :=
  match g with
  | [] => None
  | (m, v) :: g' => if Nat.eqb n m then Some v else lookup n g'
  end.

Definition may_take (hi : option nat) : bool :=
  match hi with Some O => false | _ => true end.

Definition one_less (hi : option nat) : option nat :=
  match hi with Some n => Some (pred n) | None => None end.

Section Matcher.
Variable A : Type.

Fixpoint rep (p : char -> bool) (lo : nat) (hi : option nat)
         (s : str) (k : str -> option A) : option A :=
  let stop := if Nat.eqb lo 0 then k s else None in
  match s with
  | c :: s' =>
      if p c && may_take hi
      then match rep p (pred lo) (one_less hi) s' k with
           | Some a => Some a
           | None => stop
           end
      else stop
  | [] => stop
  end.

Fixpoint exec (r : regex) (s : str) (g : groups)
         (k : str -> groups -> option A) : option A :=
  match r with
  | Chr c =>
      match s with
      | x :: s' => if (x =? c)%N then k s' g else None
      | [] => None
      end
  | Cls p =>
      match s with
      | x :: s' => if p x then k s' g else None
      | [] => None
      end
  | Cat r1 r2 => exec r1 s g (fun s1 g1 => exec r2 s1 g1 k)
  | Rep p lo hi => rep p lo hi s (fun s' => k s' g)
  | Grp n r' =>
      exec r' s g
           (fun s' g' =>
              k s' ((n, firstn (length s - length s') s) :: g'))
  end.
End Matcher.

(** A match object: where the match starts, the text matched (group 0),
    the text after it, and the numbered groups. *)
Record match_obj : Type := MatchObj {
  m_start : nat;
  m_text : str;
  m_rest : str;
  m_groups : groups
}.

(** A match of [r] anchored at the start of [s]. *)
Definition match_at (r : regex) (pos : nat) (s : str) : option match_obj :=
  exec r s []
       (fun s' g =>
          Some (MatchObj pos (firstn (length s - length s') s) s' g)).

(** [pattern.search(s)]: the first position, from the left, at which the
    pattern matches. *)
Fixpoint search_from (r : regex) (pos : nat) (s : str) : option match_obj :=
  match match_at r pos s with
  | Some m => Some m
  | None =>
      match s with
      | [] => None
      | _ :: s' => search_from r (S pos) s'
      end
  end.

Definition search (r : regex) (s : str) : option match_obj :=
  search_from r 0 s.

(** [re.sub(pattern, repl, s)] for a replacement without back
    references: each match, found from left to right, is replaced and the
    scan resumes after it.  [skip] counts the characters of the last match
    still to be passed over.  After an empty match one character is
    copied; neither pattern of the parser can match the empty string. *)
Fixpoint sub_from (r : regex) (repl : str) (skip : nat) (s : str) : str :=
  match s with
  | [] =>
      match skip, match_at r 0 [] with
      | O, Some _ => repl
      | _, _ => []
      end
  | c :: s' =>
      match skip with
      | S n => sub_from r repl n s'
      | O =>
          match match_at r 0 s with
          | Some m =>
              match length (m_text m) with
              | O => repl ++ c :: sub_from r repl 0 s'
              | S n => repl ++ sub_from r repl n s'
              end
          | None => c :: sub_from r repl 0 s'
          end
      end
  end.

Definition sub (r : regex) (repl s : str) : str := sub_from r repl 0 s.

(** Concatenation of a list of patterns, and a literal string. *)
Fixpoint cat (rs : list regex) : regex :=
  match rs with
  | [] => Rep (fun _ => false) 0 (Some 0)
  | [r] => r
  | r :: rs' => Cat r (cat rs')
  end.

Definition lit (s : str) : regex := cat (map Chr s).

End Re.

(** ** Exceptions

    The parser calls methods that raise on the wrong kind of object; a
    computation either returns a value or raises. *)

Inductive pyerr : Type := AttributeError | IndexError.

Inductive exc (A : Type) : Type :=
| Ret (a : A)
| Raise (e : pyerr).

Arguments Ret {A} a.
Arguments Raise {A} e.

Definition bind {A B} (m : exc A) (f : A -> exc B) : exc B :=
  match m with
  | Ret a => f a
  | Raise e => Raise e
  end.

Notation "x <- m ;; f" := (bind m (fun x => f))
  (at level 61, m at next level, right associativity).

(** ** [srt_parser.py] *)

(** The dictionary [{'start': .., 'end': .., 'text': ..}] of one subtitle. *)
Record subtitle : Type := Subtitle {
  start : str;
  end_ : str;
  text : str
}.

(** [\d{2}:\d{2}:\d{2}[,.]\d{3}] *)
Definition clock_pattern : Re.regex :=
  Re.cat [ Re.Rep Unicode.isdecimal 2 (Some 2); Re.Chr COLON;
           Re.Rep Unicode.isdecimal 2 (Some 2); Re.Chr COLON;
           Re.Rep Unicode.isdecimal 2 (Some 2);
           Re.Cls (fun c => (c =? COMMA)%N || (c =? DOT)%N);
           Re.Rep Unicode.isdecimal 3 (Some 3) ].

(** [(\d{2}:\d{2}:\d{2}[,.]\d{3})\s*-->\s*(\d{2}:\d{2}:\d{2}[,.]\d{3})] *)
Definition time_pattern : Re.regex :=
  Re.cat [ Re.Grp 1 clock_pattern;
           Re.Rep Unicode.isspace 0 None;
           Re.lit (py "-->");
           Re.Rep Unicode.isspace 0 None;
           Re.Grp 2 clock_pattern ].

(** [<[^>]+>] *)
Definition tag_pattern : Re.regex :=
  Re.cat [ Re.Chr LT;
           Re.Rep (fun c => negb (c =? GT)%N) 1 None;
           Re.Chr GT ].

(** [m.group(n)] on the value of [time_match], which is [None] or a match
    object. *)
Definition group (time_match : option Re.match_obj) (n : nat) : exc str :=
  match time_match with
  | None => Raise AttributeError
  | Some m =>
      match n with
      | O => Ret (Re.m_text m)
      | _ => match Re.lookup n (Re.m_groups m) with
             | Some v => Ret v
             | None => Raise IndexError
             end
      end
  end.

Definition truthy {A} (o : option A) : bool :=
  match o with Some _ => true | None => false end.

(** The inner loop [for i, line in enumerate(lines)]: the values of
    [time_match] and [text_lines] when the loop ends.  [rest] is the part
    of [lines] still to be visited, [i] the index of its first line. *)
Fixpoint scan_lines (lines : list str) (i : nat) (rest : list str)
  : option Re.match_obj * list str :=
  match rest with
  | [] => (None, [])
  | line :: rest' =>
      match Re.search time_pattern line with
      | Some m => (Some m, skipn (i + 1) lines)
      | None => scan_lines lines (S i) rest'
      end
  end.

(** The cleaned text of a block. *)
Definition clean (text_lines : list str) : str :=
  let full_text := Str.join [SP] text_lines in
  let clean_text := Str.strip (Re.sub tag_pattern [] full_text) in
  Str.strip (Str.replace [DASH; SP] [] clean_text).

(** The body of [for block in blocks], on the list [parsed_subs]. *)
Definition process_block (block : str) (parsed_subs : list subtitle)
  : exc (list subtitle) :=
  let lines := Str.split [LF] (Str.strip block) in
  if 3 <=? length lines then
    let '(time_match, text_lines) := scan_lines lines 0 lines in
    if truthy time_match && Str.nonempty text_lines then
      g1 <- group time_match 1 ;;
      let start := Str.replace [DOT] [COMMA] g1 in
      g2 <- group time_match 2 ;;
      let end_ := Str.replace [DOT] [COMMA] g2 in
      let clean_text := clean text_lines in
      if Str.nonempty clean_text
      then Ret (parsed_subs ++ [Subtitle start end_ clean_text])
      else Ret parsed_subs
    else Ret parsed_subs
  else Ret parsed_subs.

Fixpoint for_blocks (blocks : list str) (parsed_subs : list subtitle)
  : exc (list subtitle) :=
  match blocks with
  | [] => Ret parsed_subs
  | block :: blocks' =>
      parsed_subs' <- process_block block parsed_subs ;;
      for_blocks blocks' parsed_subs'
  end.

(** [srt_content.replace('\r\n', '\n').replace('\r', '\n')] *)
Definition normalize_line_endings (srt_content : str) : str :=
  Str.replace [CR] [LF] (Str.replace [CR; LF] [LF] srt_content).

Definition split_blocks (srt_content : str) : list str :=
  Str.split [LF; LF] (Str.strip srt_content).

Definition parse_srt (srt_content : str) : exc (list subtitle) :=
  let srt_content := normalize_line_endings srt_content in
  let blocks := split_blocks srt_content in
  for_blocks blocks [].

(** Line feed inside a Rocq string literal. *)
Definition nl : string := String (ascii_of_nat 10) EmptyString.

(** ** Declarative notions used in the statements *)

(** [old] occurs in [s]. *)
Definition occurs (old s : str) : Prop :=
  exists a b, s = a ++ old ++ b.

Module ReSem.
Import Re.

Definition within (hi : option nat) (n : nat) : Prop :=
  match hi with Some h => n <= h | None => True end.

(** [sem r g u g']: the pattern [r] matches exactly the string [u], and
    the groups [g] recorded before it become [g']. *)
Fixpoint sem (r : regex) (g : groups) (u : str) (g' : groups) : Prop :=
  match r with
  | Chr c => u = [c] /\ g' = g
  | Cls p => exists x, u = [x] /\ p x = true /\ g' = g
  | Cat r1 r2 =>
      exists u1 u2 g1,
        u = u1 ++ u2 /\ sem r1 g u1 g1 /\ sem r2 g1 u2 g'
  | Rep p lo hi =>
      forallb p u = true /\ lo <= length u /\ within hi (length u)
      /\ g' = g
  | Grp n r' => exists g1, sem r' g u g1 /\ g' = (n, u) :: g1
  end.

End ReSem.

(** A clock value [HH:MM:SS,mmm] or [HH:MM:SS.mmm]: two digits for each of
    hour, minute and second, a separator, three fractional digits. *)
Definition clock_value (sep_ok : char -> bool) (t : str) : Prop :=
  exists h1 h2 m1 m2 s1 s2 sep f1 f2 f3,
    t = [h1; h2; COLON; m1; m2; COLON; s1; s2; sep; f1; f2; f3]
    /\ forallb Unicode.isdecimal [h1; h2; m1; m2; s1; s2; f1; f2; f3] = true
    /\ sep_ok sep = true.

Definition comma_or_dot (c : char) : bool := (c =? COMMA)%N || (c =? DOT)%N.
Definition comma_only (c : char) : bool := (c =? COMMA)%N.

(** A line that contains a time range: two clock values joined by [-->]
    with any amount of white space on either side of the arrow. *)
Definition timestamp_line (line : str) : Prop :=
  exists pre t1 ws1 ws2 t2 post,
    line = pre ++ t1 ++ ws1 ++ py "-->" ++ ws2 ++ t2 ++ post
    /\ clock_value comma_or_dot t1 /\ clock_value comma_or_dot t2
    /\ forallb Unicode.isspace ws1 = true
    /\ forallb Unicode.isspace ws2 = true.

(** The entries that one block contributes. *)
Definition entries_of (block : str) : list subtitle :=
  match process_block block [] with
  | Ret l => l
  | Raise _ => []
  end.

(** The entry built from the two clock values of a match and the lines
    after the matching line, when there is one. *)
Definition entry_of (t1 t2 : str) (text_lines : list str)
  : list subtitle :=
  if Str.nonempty text_lines && Str.nonempty (clean text_lines)
  then [Subtitle (Str.replace [DOT] [COMMA] t1)
                 (Str.replace [DOT] [COMMA] t2)
                 (clean text_lines)]
  else [].

(** The string is empty or starts with a character that is not white
    space. *)
Definition lead_ok (s : str) : bool :=
  match s with [] => true | c :: _ => negb (Unicode.isspace c) end.

(** [p] put in front of the first piece of a list of pieces. *)
Definition prepend (p : str) (l : list str) : list str :=
  match l with
  | h :: t => (p ++ h) :: t
  | [] => [p]
  end.

(** Two lists of pieces put together, the last piece of the first list
    running on into the first piece of the second. *)
Definition glue (l1 l2 : list str) : list str :=
  removelast l1 ++ prepend (last l1 []) l2.

(** The document with every CRLF and every remaining CR rewritten to LF,
    read off from left to right. *)
Fixpoint rewrite_line_endings (s : str) : str :=
  match s with
  | [] => []
  | c :: t =>
      if (c =? CR)%N then
        match t with
        | d :: t' =>
            if (d =? LF)%N then LF :: rewrite_line_endings t'
            else LF :: rewrite_line_endings t
        | [] => [LF]
        end
      else c :: rewrite_line_endings t
  end.

(** The lines of a block, as the loop body sees them. *)
Definition block_lines (block : str) : list str :=
  Str.split [LF] (Str.strip block).

(** The lines that the inner loop hands over as text. *)
Definition text_lines_of (block : str) : list str :=
  snd (scan_lines (block_lines block) 0 (block_lines block)).

(** An HTML-style tag occurs in [s]: [<], one or more characters other
    than [>], then [>]. *)
Definition has_tag (s : str) : Prop :=
  exists a b c,
    s = a ++ [LT] ++ b ++ [GT] ++ c /\ b <> [] /\ ~ In GT b.

(** [r] goes on as the body of a tag that a [<] before it would open: a
    first character other than [>], and a [>] further on. *)
Definition tag_body (r : str) : bool :=
  match r with
  | [] => false
  | x :: r' => negb (x =? GT)%N && existsb (fun c => (c =? GT)%N) r'
  end.

(** Sample time lines for the examples. *)
Definition ts1 : string := "00:00:01,000 --> 00:00:02,000".
Definition ts2 : string := "00:00:05,000 --> 00:00:07,000".
Definition ts3 : string := "00:00:03.500 --> 00:00:04.000".

(** * JSON values and the Python operations on them

    The responses of the two web services are JSON documents; Python reads
    them as [None], [bool], [int], [float], [str], [list] and [dict]
    values.  A number without fraction and exponent is read as an [int]
    of any size, every other number as a [float]; [NaN], [Infinity] and
    [-Infinity] are read as well.  A [dict] is modelled by the list of its
    items in insertion order. *)

Module Json.

#[local] Set Warnings "-register-all".

(** A [float] by its value: not a number, an infinity, or the number
    [m * 2^e].  Every finite IEEE double has this form.  The two zeros
    are not told apart: truth tests and comparisons, the operations of
    the program on a number, do not see the sign of a zero. *)
Inductive number : Type :=
| NaN
| Inf (negative : bool)
| Finite (m e : Z).

Inductive json : Type :=
| JNull
| JBool (b : bool)
| JInt (n : Z)
| JFloat (x : number)
| JStr (s : str)
| JList (l : list json)
| JDict (d : list (str * json)).

(** The exceptions that the modelled operations raise. *)
Inductive exn : Type :=
| EAttribute   (* AttributeError *)
| EType        (* TypeError *)
| EKey         (* KeyError *)
| EIndex       (* IndexError *)
| EName        (* NameError *)
| ERequest     (* any exception of [requests], of [raise_for_status] or
                  of [response.json()] *)
| EAPI         (* APIError of fetch_from_api.py *)
| EOther.      (* an exception of a collaborator outside the model *)

(** A computation returns a value, raises, or steps outside the model. *)
Inductive outcome (A : Type) : Type :=
| Val (a : A)
| Exn (e : exn)
| Unmodelled.

Arguments Val {A} a.
Arguments Exn {A} e.
Arguments Unmodelled {A}.

Definition obind {A B} (m : outcome A) (f : A -> outcome B) : outcome B :=
  match m with
  | Val a => f a
  | Exn e => Exn e
  | Unmodelled => Unmodelled
  end.

Fixpoint str_eqb (a b : str) : bool :=
  match a, b with
  | [], [] => true
  | x :: a', y :: b' => (x =? y)%N && str_eqb a' b'
  | _, _ => false
  end.

(** [a < b] on strings: code point by code point. *)
Fixpoint str_ltb (a b : str) : bool :=
  match a, b with
  | _, [] => false
  | [], _ :: _ => true
  | x :: a', y :: b' =>
      if (x <? y)%N then true
      else if (y <? x)%N then false
      else str_ltb a' b'
  end.

(** [m * 2^e] counted in units of [2^e0], for [e0 <= e]. *)
Definition scaled (m e e0 : Z) : Z := (m * 2 ^ (e - e0))%Z.

(** [x < y] on numbers.  Python compares an [int] with a [float] by their
    exact values, so that an [int] [n] takes part as [Finite n 0].
    Every comparison with NaN is false. *)
Definition num_ltb (x y : number) : bool :=
  match x, y with
  | NaN, _ => false
  | _, NaN => false
  | Inf nx, Inf ny => nx && negb ny
  | Inf nx, Finite _ _ => nx
  | Finite _ _, Inf ny => negb ny
  | Finite m1 e1, Finite m2 e2 =>
      let e0 := Z.min e1 e2 in
      (scaled m1 e1 e0 <? scaled m2 e2 e0)%Z
  end.

(** [x == y] on numbers. *)
Definition num_eqb (x y : number) : bool :=
  match x, y with
  | Inf nx, Inf ny => Bool.eqb nx ny
  | Finite m1 e1, Finite m2 e2 =>
      let e0 := Z.min e1 e2 in
      (scaled m1 e1 e0 =? scaled m2 e2 e0)%Z
  | _, _ => false
  end.

Definition is_nan (x : number) : bool :=
  match x with NaN => true | _ => false end.

Fixpoint lookup (k : str) (d : list (str * json)) : option json :=
  match d with
  | [] => None
  | (k', v) :: d' => if str_eqb k k' then Some v else lookup k d'
  end.

(** [bool(v)] *)
Definition truthy (v : json) : bool :=
  match v with
  | JNull => false
  | JBool b => b
  | JInt n => negb (n =? 0)%Z
  | JFloat x => negb (num_eqb x (Finite 0 0))
  | JStr s => Str.nonempty s
  | JList l => Str.nonempty l
  | JDict d => Str.nonempty d
  end.

(** [v == True] *)
Definition eq_True (v : json) : bool :=
  match v with
  | JBool b => b
  | JInt n => (n =? 1)%Z
  | JFloat x => num_eqb x (Finite 1 0)
  | _ => false
  end.

(** [v.get(k, default)]: only a [dict] has the method. *)
Definition get (v : json) (k : str) (default : json) : outcome json :=
  match v with
  | JDict d =>
      match lookup k d with
      | Some x => Val x
      | None => Val default
      end
  | _ => Exn EAttribute
  end.

(** [v[k]] for a string [k]. *)
Definition item (v : json) (k : str) : outcome json :=
  match v with
  | JDict d =>
      match lookup k d with
      | Some x => Val x
      | None => Exn EKey
      end
  | _ => Exn EType
  end.

(** [v[0]] *)
Definition first (v : json) : outcome json :=
  match v with
  | JList (x :: _) => Val x
  | JList [] => Exn EIndex
  | JStr (c :: _) => Val (JStr [c])
  | JStr [] => Exn EIndex
  | JDict _ => Exn EKey
  | _ => Exn EType
  end.

(** The values that [for x in v] goes through. *)
Definition iterate (v : json) : outcome (list json) :=
  match v with
  | JList l => Val l
  | JDict d => Val (map (fun kv => JStr (fst kv)) d)
  | JStr s => Val (map (fun c => JStr [c]) s)
  | _ => Exn EType
  end.

(** *** [list.sort(key=..., reverse=True)]

    The sort is stable: elements with equal keys keep their order, also
    with [reverse=True].  Keys are compared with [<]: numbers ([int],
    [float], and [bool], which counts as 0 or 1) with numbers, strings
    with strings; comparing across these kinds, or comparing [None] or a
    [dict] with anything, raises [TypeError].  A list of fewer than two
    elements is not compared at all.

    Where [<] orders the keys, a stable sort has one result, whatever
    comparisons it makes.  NaN is a number that [<] does not order: with
    NaN among the keys no comparison raises, and the result depends on
    which keys the sort compares, which Python does not specify.  That
    case is outside the model, and so are keys that are all lists, whose
    comparison goes through their elements. *)

Inductive sort_key : Type :=
| KNum (x : number)
| KStr (s : str)
| KList
| KBad.

Definition sort_key_of (v : json) : sort_key :=
  match v with
  | JBool b => KNum (Finite (if b then 1 else 0) 0)
  | JInt n => KNum (Finite n 0)
  | JFloat x => KNum x
  | JStr s => KStr s
  | JList _ => KList
  | JNull | JDict _ => KBad
  end.

Section Insertion.
Variables (A K : Type) (ltb : K -> K -> bool).

(** [x], which stood before every element of [l], goes in front of the
    first element whose key is not greater than its own. *)
Fixpoint insert_desc (x : K * A) (l : list (K * A)) : list (K * A) :=
  match l with
  | [] => [x]
  | y :: l' =>
      if ltb (fst x) (fst y) then y :: insert_desc x l'
      else x :: y :: l'
  end.

Definition sort_desc_by (l : list (K * A)) : list (K * A) :=
  fold_right insert_desc [] l.
End Insertion.

Definition num_key (k : sort_key) : option number :=
  match k with KNum x => Some x | _ => None end.

Definition str_key (k : sort_key) : option str :=
  match k with KStr s => Some s | _ => None end.

Definition is_list_key (k : sort_key) : bool :=
  match k with KList => true | _ => false end.

(** All the keys through [f], when [f] is defined on each. *)
Fixpoint all_keys {A K} (f : sort_key -> option K)
         (l : list (sort_key * A)) : option (list (K * A)) :=
  match l with
  | [] => Some []
  | (k, a) :: l' =>
      match f k, all_keys f l' with
      | Some k', Some r => Some ((k', a) :: r)
      | _, _ => None
      end
  end.

Definition sort_reverse {A} (l : list (sort_key * A)) : outcome (list A) :=
  match l with
  | [] | [_] => Val (map snd l)
  | _ =>
      match all_keys num_key l with
      | Some nl =>
          if existsb (fun ka => is_nan (fst ka)) nl then Unmodelled
          else Val (map snd (sort_desc_by num_ltb nl))
      | None =>
          match all_keys str_key l with
          | Some sl => Val (map snd (sort_desc_by str_ltb sl))
          | None =>
              if forallb (fun ka => is_list_key (fst ka)) l
              then Unmodelled
              else Exn EType
          end
      end
  end.

(** *** Membership and subscripts *)

(** [x in s] for two strings. *)
Fixpoint is_substring (x s : str) : bool :=
  Str.startswith x s
  || match s with
     | [] => false
     | _ :: s' => is_substring x s'
     end.

(** [v == x] for a string [x]. *)
Definition eq_str (x : str) (v : json) : bool :=
  match v with JStr s => str_eqb s x | _ => false end.

(** [x in v] for a string [x]: a key of a dict, an element of a list, a
    part of a string. *)
Definition contains (v : json) (x : str) : outcome bool :=
  match v with
  | JDict d => Val (existsb (fun kv => str_eqb x (fst kv)) d)
  | JList l => Val (existsb (eq_str x) l)
  | JStr s => Val (is_substring x s)
  | _ => Exn EType
  end.

(** [l[n]] for a list, with negative indices counting from the end. *)
Definition list_index (l : list json) (n : Z) : outcome json :=
  let len := Z.of_nat (length l) in
  let i := if (n <? 0)%Z then (len + n)%Z else n in
  if (0 <=? i)%Z && (i <? len)%Z
  then match nth_error l (Z.to_nat i) with
       | Some x => Val x
       | None => Exn EIndex
       end
  else Exn EIndex.

(** [v[key]] for any key.  The keys of a dict are strings, so another
    number, bool or null is no key of it, and a list or dict cannot be
    looked up at all. *)
Definition subscript (v key : json) : outcome json :=
  match v, key with
  | JDict d, JStr k => item v k
  | JDict _, (JList _ | JDict _) => Exn EType
  | JDict _, _ => Exn EKey
  | JList l, JInt n => list_index l n
  | JList l, JBool b => list_index l (if b then 1 else 0)
  | _, _ => Exn EType
  end.

(** The digits of a number. *)
Fixpoint uint_chars (u : Decimal.uint) : str :=
  match u with
  | Decimal.Nil => []
  | Decimal.D0 u' => 48%N :: uint_chars u'
  | Decimal.D1 u' => 49%N :: uint_chars u'
  | Decimal.D2 u' => 50%N :: uint_chars u'
  | Decimal.D3 u' => 51%N :: uint_chars u'
  | Decimal.D4 u' => 52%N :: uint_chars u'
  | Decimal.D5 u' => 53%N :: uint_chars u'
  | Decimal.D6 u' => 54%N :: uint_chars u'
  | Decimal.D7 u' => 55%N :: uint_chars u'
  | Decimal.D8 u' => 56%N :: uint_chars u'
  | Decimal.D9 u' => 57%N :: uint_chars u'
  end.

(** [str(n)] for an integer. *)
Definition decimal (n : Z) : str :=
  match Z.to_int n with
  | Decimal.Pos u => uint_chars u
  | Decimal.Neg u => DASH :: uint_chars u
  end.

End Json.

(** * [fetch_from_api.py]: the choice of a subtitle file *)

Module Fetcher.
Import Json.

Notation "x <-- m ;; f" := (obind m (fun x => f))
  (at level 61, m at next level, right associativity).

(** The loop [for sub in subtitle_list] of [find_best_subtitle], on the
    list [clean_subs]. *)
Fixpoint collect (subs : list json) (clean_subs : list json)
  : outcome (list json) :=
  match subs with
  | [] => Val clean_subs
  | sub :: subs' =>
      attrs <-- get sub (py "attributes") (JDict []) ;;
      ai <-- get attrs (py "ai_translated") JNull ;;
      if eq_True ai then collect subs' clean_subs
      else
        files <-- get attrs (py "files") JNull ;;
        if negb (truthy files) then collect subs' clean_subs
        else collect subs' (clean_subs ++ [attrs])
  end.

(** The key of the sort: [s.get('download_count', 0)]. *)
Fixpoint with_keys (clean_subs : list json)
  : outcome (list (sort_key * json)) :=
  match clean_subs with
  | [] => Val []
  | s :: rest =>
      k <-- get s (py "download_count") (JInt 0) ;;
      r <-- with_keys rest ;;
      Val ((sort_key_of k, s) :: r)
  end.

(** [find_best_subtitle(subtitle_list)]; [None] is [JNull]. *)
Definition find_best_subtitle (subtitle_list : json) : outcome json :=
  if negb (truthy subtitle_list) then Val JNull
  else
    subs <-- iterate subtitle_list ;;
    clean_subs <-- collect subs [] ;;
    if Str.nonempty clean_subs then
      keyed <-- with_keys clean_subs ;;
      sorted <-- sort_reverse keyed ;;
      best <-- first (JList sorted) ;;
      files <-- item best (py "files") ;;
      file <-- first files ;;
      item file (py "file_id")
    else Val JNull.

Definition is_dict (v : json) : bool :=
  match v with JDict _ => true | _ => false end.

(** A subtitle that the loop keeps: its attributes, which are not marked
    as translated by a machine and have files. *)
Definition eligible (sub attrs : json) : Prop :=
  get sub (py "attributes") (JDict []) = Val attrs
  /\ (exists ai, get attrs (py "ai_translated") JNull = Val ai
                 /\ eq_True ai = false)
  /\ (exists files, get attrs (py "files") JNull = Val files
                    /\ truthy files = true).

(** Sample subtitles for the examples: the attributes with a mark of
    machine translation, a download count and one file, and the subtitle
    that carries them. *)
Definition sample_attrs (ai count : json) (file_id : Z) : json :=
  JDict [(py "ai_translated", ai); (py "download_count", count);
         (py "files", JList [JDict [(py "file_id", JInt file_id)]])].

Definition sample_sub (ai count : json) (file_id : Z) : json :=
  JDict [(py "attributes", sample_attrs ai count file_id)].

(** The file id that the function reads off the subtitle it chose. *)
Definition file_id_of (best : json) : outcome json :=
  obind (item best (py "files"))
        (fun files => obind (first files)
                            (fun file => item file (py "file_id"))).

End Fetcher.

(** * The web services

    What the services answer is not in the program's hands: a call of
    [requests.get] or [session.post], the login and the import of one
    movie are functions of an explicit world [W] that return the new
    world and either a value or the exception raised. *)

Module Web.
Import Json.

Inductive attempt (A : Type) : Type :=
| Done (a : A)
| Raised (e : exn).

Arguments Done {A} a.
Arguments Raised {A} e.

(** A response: its [status_code] and what [response.json()] gives. *)
Record response : Type := Response {
  status_code : Z;
  json_body : attempt json
}.

(** [response.raise_for_status()] *)
Definition raise_for_status (r : response) : attempt unit :=
  if (400 <=? status_code r)%Z && (status_code r <? 600)%Z
  then Raised ERequest
  else Done tt.

(** The requests of [tmdb_client.py], by URL and parameters other than
    the API key. *)
Inductive request : Type :=
| SearchMovie (query : str) (year : option Z)  (* /search/movie *)
| WatchProviders (movie_id : json)   (* /movie/{movie_id}/watch/providers *)
| DiscoverMovies (year page : Z)     (* /discover/movie *)
| MovieDetail (movie_id : json).     (* /movie/{movie_id} *)

End Web.

(** * [tmdb_client.py]: the popular movies of a year *)

Module Tmdb.
Import Json Web.

(** One tuple [(imdb_id, title, year)]. *)
Definition movie : Type := json * json * Z.

Definition movie_year (m : movie) : Z := snd m.
Definition movie_imdb_id (m : movie) : json := fst (fst m).

(** A tuple with the year [y] and an IMDb id that counts as true. *)
Definition sound_movie (y : Z) (m : movie) : Prop :=
  movie_year m = y /\ truthy (movie_imdb_id m) = true.

(** The formatted string [f"{prefix}{value}"], kept as its two parts.
    Formatting is defined for every value that JSON gives and does not
    raise; the program hands the string on and never looks into it. *)
Inductive fstring : Type :=
| FString (prefix : str) (value : json).

(** The dictionary that [get_movie_data] returns.  A key that the
    dictionary does not have is [None] in the two links, which are
    strings when present. *)
Record movie_data : Type := MovieData {
  watch_link : json;
  justwatch_link : option str;
  google_watchlist_link : option str;
  tmdb_id : json;
  poster_url : option fstring
}.

(** [{'watch_link': None, 'tmdb_id': None, 'poster_url': None}] *)
Definition no_movie_data : movie_data :=
  MovieData JNull None None JNull None.

Definition PLUS : char := 43%N.
Definition IMAGE_BASE_URL : str := py "https://image.tmdb.org/t/p/w500".
Definition justwatch_search : str :=
  py "https://www.justwatch.com/us/search?q=".
Definition google_search : str := py "https://www.google.com/search?q=".

(** [if year] for a year that is an integer or [None]. *)
Definition year_given (year : option Z) : bool :=
  match year with
  | Some y => negb (y =? 0)%Z
  | None => false
  end.

(** [not API_KEY] for the value of [os.getenv('TMDB_API_KEY')]. *)
Definition no_key (API_KEY : option str) : bool :=
  match API_KEY with
  | None => true
  | Some k => negb (Str.nonempty k)
  end.

Section Client.
Variable W : Type.
Variable API_KEY : option str.
Variable http_get : request -> W -> W * attempt response.

(** The loop [for result in data.get('results', [])] of
    [discover_popular_movies], on the list [movies].  An exception of
    the detail request is caught inside the loop, which goes on with
    the next result; [result.get('id')] stands outside that handler, and
    its exception ends the loop with the movies found so far. *)
Fixpoint discover_loop (year : Z) (results : list json)
         (movies : list movie) (w : W) : W * list movie :=
  match results with
  | [] => (w, movies)
  | result :: rest =>
      match get result (py "id") JNull with
      | Val movie_id =>
          if negb (truthy movie_id) then discover_loop year rest movies w
          else
            let (w1, r) := http_get (MovieDetail movie_id) w in
            match r with
            | Done d_response =>
                if (status_code d_response =? 200)%Z then
                  match json_body d_response with
                  | Done d_data =>
                      match get d_data (py "imdb_id") JNull with
                      | Val imdb_id =>
                          if truthy imdb_id then
                            match get result (py "title") JNull with
                            | Val title =>
                                discover_loop year rest
                                  (movies ++ [(imdb_id, title, year)]) w1
                            | _ => discover_loop year rest movies w1
                            end
                          else discover_loop year rest movies w1
                      | _ => discover_loop year rest movies w1
                      end
                  | Raised _ => discover_loop year rest movies w1
                  end
                else discover_loop year rest movies w1
            | Raised _ => discover_loop year rest movies w1
            end
      | _ => (w, movies)
      end
  end.

(** [discover_popular_movies(year, page)] *)
Definition discover_popular_movies (year page : Z) (w : W)
  : W * list movie :=
  if no_key API_KEY then (w, [])
  else
    let (w1, r) := http_get (DiscoverMovies year page) w in
    match r with
    | Done response =>
        match raise_for_status response with
        | Done _ =>
            match json_body response with
            | Done data =>
                match get data (py "results") (JList []) with
                | Val rs =>
                    match iterate rs with
                    | Val results => discover_loop year results [] w1
                    | _ => (w1, [])
                    end
                | _ => (w1, [])
                end
            | Raised _ => (w1, [])
            end
        | Raised _ => (w1, [])
        end
    | Raised _ => (w1, [])
    end.
(** The choice of [watch_link] inside the second [try] of
    [get_movie_data], from the value of [p_data.get('results', {})]. *)
Definition choose_watch_link (results : json) (country_code : str)
  : outcome json :=
  obind (contains results country_code) (fun in_country =>
  if in_country then
    obind (item results country_code) (fun v => get v (py "link") JNull)
  else
    obind (contains results (py "US")) (fun in_US =>
    if in_US then
      obind (item results (py "US")) (fun v => get v (py "link") JNull)
    else if truthy results then
      obind (iterate results) (fun keys =>
      obind (first (JList keys)) (fun first_key =>
      obind (subscript results first_key) (fun v =>
      get v (py "link") JNull)))
    else Val JNull)).

(** [get_movie_data(title, year, country_code)] *)
Definition get_movie_data (title : str) (year : option Z)
           (country_code : str) (w : W) : W * outcome movie_data :=
  if no_key API_KEY then (w, Val no_movie_data)
  else
    let params_year := if year_given year then year else None in
    let (w1, r) := http_get (SearchMovie title params_year) w in
    let found :=
      match r with
      | Done response =>
          match raise_for_status response, json_body response with
          | Done _, Done data =>
              match item data (py "results") with
              | Val results =>
                  if truthy results then
                    match first results with
                    | Val first_result =>
                        match item first_result (py "id"),
                              get first_result (py "poster_path") JNull
                        with
                        | Val movie_id, Val poster_path =>
                            Some (movie_id, poster_path)
                        | _, _ => None
                        end
                    | _ => None
                    end
                  else None
              | _ => None
              end
          | _, _ => None
          end
      | Raised _ => None
      end in
    match found with
    | None => (w1, Val no_movie_data)
    | Some (movie_id, poster_path) =>
        let (w2, p) := http_get (WatchProviders movie_id) w1 in
        let watch_link :=
          match p with
          | Done p_response =>
              match raise_for_status p_response, json_body p_response with
              | Done _, Done p_data =>
                  match get p_data (py "results") (JDict []) with
                  | Val results =>
                      match choose_watch_link results country_code with
                      | Val link => link
                      | _ => JNull
                      end
                  | _ => JNull
                  end
              | _, _ => JNull
              end
          | Raised _ => JNull
          end in
        let poster_url :=
          if truthy poster_path
          then Some (FString IMAGE_BASE_URL poster_path)
          else None in
        let jw_query := Str.replace [SP] [PLUS] title in
        let justwatch_link := justwatch_search ++ jw_query in
        let gw_query :=
          match year with
          | Some y =>
              if year_given year
              then Str.replace [SP] [PLUS]
                     (title ++ [SP] ++ decimal y ++ py " movie")
              else Str.replace [SP] [PLUS] (title ++ py " movie")
          | None => Str.replace [SP] [PLUS] (title ++ py " movie")
          end in
        let google_watchlist_link := google_search ++ gw_query in
        (w2,
         Val (MovieData watch_link (Some justwatch_link)
                        (Some google_watchlist_link) movie_id poster_url))
    end.
End Client.

Definition sample_link : str :=
  py "https://www.themoviedb.org/movie/603/watch".

(** A service for the examples, whose world is the number of requests
    made: it finds one movie, with a list for its poster path, knows the
    providers of the movie in the US, and fails every other request. *)
Definition sample_service (r : request) (w : nat)
  : nat * attempt response :=
  match r with
  | SearchMovie _ _ =>
      (S w,
       Done (Response 200
               (Done (JDict
                        [(py "results",
                          JList
                            [JDict
                               [(py "id", JInt 603);
                                (py "poster_path",
                                 JList [JStr (py "a")])]])]))))
  | WatchProviders _ =>
      (S w,
       Done (Response 200
               (Done (JDict
                        [(py "results",
                          JDict
                            [(py "US",
                              JDict [(py "link", JStr sample_link)])])]))))
  | _ => (S w, Raised ERequest)
  end.

End Tmdb.

(** * [fetch_from_api.py]: the scheduled fetch *)

Module Schedule.
Import Json Web Tmdb.

Definition start_year : Z := 1970.
Definition MAX_DOWNLOADS : Z := 20.

(** [(current_cycle // 2) + 1] and [(current_cycle % 2) * 10] *)
Definition tmdb_page (current_cycle : Z) : Z := current_cycle / 2 + 1.
Definition start_index (current_cycle : Z) : Z := (current_cycle mod 2) * 10.
Definition end_index (current_cycle : Z) : Z := start_index current_cycle + 10.

(** [l[a:b]] for indices that are not negative. *)
Definition slice {A} (l : list A) (a b : Z) : list A :=
  firstn (Z.to_nat (b - a)) (skipn (Z.to_nat a) l).

(** The movies of one page that a cycle works on. *)
Definition cycle_slice {A} (current_cycle : Z) (movies : list A) : list A :=
  slice movies (start_index current_cycle) (end_index current_cycle).

(** [range(hi, lo - 1, -1)] *)
Definition range_down (hi lo : Z) : list Z :=
  map (fun i => hi - Z.of_nat i)%Z (seq 0 (Z.to_nat (hi - lo + 1))).

(** The variables that the two loops change.  [year] is not bound before
    the first pass of the outer loop; the inner loop binds it again, to
    the year of each tuple. *)
Record loop_state (W : Type) : Type := LoopState {
  world : W;
  downloads_count : Z;
  year : option Z
}.

Arguments LoopState {W} world downloads_count year.
Arguments world {W} l.
Arguments downloads_count {W} l.
Arguments year {W} l.

(** What a run leaves behind: the variables, the exception that the
    handler of [fetch_all_movies] caught, if any, and the value written to
    the setting [fetch_cycle], if any. *)
Record run (W : Type) : Type := Run {
  final : loop_state W;
  caught : option exn;
  cycle_written : option Z
}.

Arguments Run {W} final caught cycle_written.
Arguments final {W} r.
Arguments caught {W} r.
Arguments cycle_written {W} r.

Section Fetch.
Variable W : Type.
Variable API_KEY : option str.
Variable http_get : request -> W -> W * attempt response.
Variable get_api_token : W -> W * attempt json.
Variable fetch_movie_subtitles : json -> movie -> W -> W * attempt bool.

(** [for imdb_id, title, year in movies_to_process] *)
Fixpoint process_movies (token : json) (movies_to_process : list movie)
         (st : loop_state W) : loop_state W * option exn :=
  match movies_to_process with
  | [] => (st, None)
  | m :: rest =>
      let st1 := LoopState (world st) (downloads_count st)
                           (Some (movie_year m)) in
      if (MAX_DOWNLOADS <=? downloads_count st1)%Z then (st1, None)
      else
        let (w1, r) := fetch_movie_subtitles token m (world st1) in
        match r with
        | Done true =>
            process_movies token rest
              (LoopState w1 (downloads_count st1 + 1) (year st1))
        | Done false =>
            process_movies token rest
              (LoopState w1 (downloads_count st1) (year st1))
        | Raised e =>
            (LoopState w1 (downloads_count st1) (year st1), Some e)
        end
  end.

(** [for year in range(current_year, start_year - 1, -1)] *)
Fixpoint process_years (token : json) (current_cycle : Z)
         (years : list Z) (st : loop_state W)
  : loop_state W * option exn :=
  match years with
  | [] => (st, None)
  | y :: rest =>
      let st1 := LoopState (world st) (downloads_count st) (Some y) in
      if (MAX_DOWNLOADS <=? downloads_count st1)%Z then (st1, None)
      else
        let (w1, movies) :=
          discover_popular_movies API_KEY http_get y
                                  (tmdb_page current_cycle) (world st1) in
        let st2 := LoopState w1 (downloads_count st1) (year st1) in
        match cycle_slice current_cycle movies with
        | [] => process_years token current_cycle rest st2
        | movies_to_process =>
            match process_movies token movies_to_process st2 with
            | (st3, None) => process_years token current_cycle rest st3
            | (st3, Some e) => (st3, Some e)
            end
        end
  end.

(** [fetch_all_movies()] from the point where the cycle has been read:
    [current_year] is the year of the clock and [current_cycle] the
    number read from the setting [fetch_cycle]. *)
Definition fetch_all_movies (current_year current_cycle : Z) (w : W)
  : run W :=
  let (w1, t) := get_api_token w in
  match t with
  | Raised e => Run (LoopState w1 0 None) (Some e) None
  | Done token =>
      match process_years token current_cycle
                          (range_down current_year start_year)
                          (LoopState w1 0 None) with
      | (st, Some e) => Run st (Some e) None
      | (st, None) =>
          match year st with
          | None => Run st (Some EName) None
          | Some y =>
              if (y =? start_year)%Z
                 && (downloads_count st <? MAX_DOWNLOADS)%Z
              then Run st None (Some (current_cycle + 1)%Z)
              else Run st None None
          end
      end
  end.
End Fetch.

End Schedule.

(** ** Properties of the string methods *)

Module StrFacts.
Import Str.

Lemma startswith_app (p r : str) : startswith p (p ++ r) = true.
Proof.
  induction p as [|a p IH]; simpl; [reflexivity|].
  now rewrite N.eqb_refl, IH.
Qed.

Lemma startswith_inv (p s : str) :
  startswith p s = true -> exists r, s = p ++ r.
Proof.
  revert s; induction p as [|a p IH]; intros s H.
  - now exists s.
  - destruct s as [|b s]; simpl in H; [discriminate|].
    apply andb_true_iff in H as [Hab Hp].
    apply N.eqb_eq in Hab; subst b.
    destruct (IH _ Hp) as [r ->]. now exists r.
Qed.

Lemma startswith_occurs (p s : str) :
  startswith p s = true -> occurs p s.
Proof.
  intros H. destruct (startswith_inv _ _ H) as [r ->].
  now exists [], r.
Qed.

Lemma occurs_cons (old : str) (c : char) (s : str) :
  occurs old s -> occurs old (c :: s).
Proof.
  intros (a & b & ->). now exists (c :: a), b.
Qed.

(** *** [replace] *)

Lemma replace_from_skip (old new : str) (k : nat) (s : str) :
  replace_from old new k s = replace_from old new 0 (skipn k s).
Proof.
  revert k; induction s as [|c s IH]; intros [|k]; simpl; auto.
Qed.

Lemma replace_nil (old new : str) : replace old new [] = [].
Proof. reflexivity. Qed.

Lemma replace_hit (old new r : str) :
  old <> [] -> replace old new (old ++ r) = new ++ replace old new r.
Proof.
  intros Hne. destruct old as [|a old]; [congruence|].
  unfold replace. change ((a :: old) ++ r) with (a :: (old ++ r)).
  cbn [replace_from nonempty andb].
  change (a :: old ++ r) with ((a :: old) ++ r).
  rewrite startswith_app, replace_from_skip.
  replace (length (a :: old) - 1) with (length old) by (simpl; lia).
  now rewrite skipn_app, skipn_all, Nat.sub_diag.
Qed.

Lemma replace_miss (old new : str) (c : char) (s : str) :
  startswith old (c :: s) = false ->
  replace old new (c :: s) = c :: replace old new s.
Proof.
  intros H. unfold replace. cbn [replace_from].
  now rewrite H, andb_false_r.
Qed.

Lemma replace_absent (old new s : str) :
  ~ occurs old s -> replace old new s = s.
Proof.
  induction s as [|c s IH]; intros H; [reflexivity|].
  rewrite replace_miss.
  - f_equal. apply IH. intros Ho. apply H. now apply occurs_cons.
  - destruct (startswith old (c :: s)) eqn:E; [|reflexivity].
    exfalso. apply H. now apply startswith_occurs.
Qed.

(** Replacing one character by one character is a [map]. *)
Lemma replace_char (a b : char) (s : str) :
  replace [a] [b] s = map (fun c => if (c =? a)%N then b else c) s.
Proof.
  induction s as [|c s IH]; [reflexivity|].
  cbn [map]. destruct (c =? a)%N eqn:E.
  - apply N.eqb_eq in E; subst c.
    change (a :: s) with ([a] ++ s).
    rewrite replace_hit by discriminate. now rewrite IH.
  - rewrite replace_miss, IH; [reflexivity|].
    simpl. now rewrite N.eqb_sym, E.
Qed.

Lemma occurs_In (old s : str) (c : char) :
  In c old -> occurs old s -> In c s.
Proof.
  intros Hc (a & b & ->). apply in_or_app; right.
  apply in_or_app; now left.
Qed.

Lemma replace_char_fresh (a b : char) (s : str) :
  ~ In a s -> replace [a] [b] s = s.
Proof.
  intros H. apply replace_absent. intros Ho.
  apply H. eapply occurs_In; [|exact Ho]. now left.
Qed.

Lemma replace_char_gone (a b : char) (s : str) :
  a <> b -> ~ In a (replace [a] [b] s).
Proof.
  intros Hab. rewrite replace_char. intros Hin.
  apply in_map_iff in Hin as (c & Hc & _).
  destruct (c =? a)%N eqn:E; [congruence|].
  apply N.eqb_neq in E. congruence.
Qed.

End StrFacts.

(** ** Line endings *)

Lemma normalize_no_CR (s : str) : ~ In CR (normalize_line_endings s).
Proof. apply StrFacts.replace_char_gone. discriminate. Qed.

Lemma normalize_fixed (s : str) :
  ~ In CR s -> normalize_line_endings s = s.
Proof.
  intros H. unfold normalize_line_endings.
  rewrite (StrFacts.replace_absent (old := [CR; LF])).
  - now apply StrFacts.replace_char_fresh.
  - intros Ho. apply H. eapply StrFacts.occurs_In; [|exact Ho]. now left.
Qed.

Lemma normalize_idempotent (s : str) :
  normalize_line_endings (normalize_line_endings s)
  = normalize_line_endings s.
Proof. apply normalize_fixed, normalize_no_CR. Qed.

(** The two replacements of the parser do what rewriting the line endings
    from left to right does. *)
Lemma normalize_rewrite_bounded (n : nat) :
  forall s, length s <= n ->
            normalize_line_endings s = rewrite_line_endings s.
Proof.
  unfold normalize_line_endings.
  induction n as [|n IH]; intros s Hn.
  - destruct s; [reflexivity|simpl in Hn; lia].
  - destruct s as [|c t]; [reflexivity|]. simpl in Hn.
    rewrite StrFacts.replace_char.
    cbn [rewrite_line_endings]. destruct (N.eqb_spec c CR) as [->|Hc].
    + destruct t as [|d t'].
      * reflexivity.
      * destruct (N.eqb_spec d LF) as [->|Hd].
        -- change (CR :: LF :: t') with ([CR; LF] ++ t').
           rewrite StrFacts.replace_hit by discriminate.
           cbn [app map]. change (LF =? CR)%N with false. cbv iota.
           f_equal. rewrite <- StrFacts.replace_char.
           apply IH. simpl in Hn. lia.
        -- rewrite StrFacts.replace_miss.
           ++ cbn [map]. rewrite N.eqb_refl. f_equal.
              rewrite <- StrFacts.replace_char. apply IH. lia.
           ++ cbn [Str.startswith]. rewrite N.eqb_refl.
              destruct (N.eqb_spec LF d); [congruence|reflexivity].
    + rewrite StrFacts.replace_miss.
      * cbn [map]. destruct (N.eqb_spec c CR); [congruence|]. f_equal.
        rewrite <- StrFacts.replace_char. apply IH. lia.
      * cbn [Str.startswith].
        destruct (N.eqb_spec CR c); [congruence|reflexivity].
Qed.

Lemma normalize_rewrite (s : str) :
  normalize_line_endings s = rewrite_line_endings s.
Proof. now apply (@normalize_rewrite_bounded (length s)). Qed.

(** ** The matcher finds exactly the matches of the pattern *)

Module ReFacts.
Import Re ReSem.

Lemma within_step (hi : option nat) (n : nat) :
  may_take hi = true -> within (one_less hi) n -> within hi (S n).
Proof.
  destruct hi as [[|h]|]; simpl; intros; try discriminate; auto; lia.
Qed.

Lemma within_back (hi : option nat) (n : nat) :
  within hi (S n) -> may_take hi = true /\ within (one_less hi) n.
Proof.
  destruct hi as [[|h]|]; simpl; intros; split; auto; lia.
Qed.

Section Exec.
Variable A : Type.

Lemma rep_sound (p : char -> bool) (s : str) :
  forall lo hi (k : str -> option A) a,
    rep p lo hi s k = Some a ->
    exists u s',
      s = u ++ s' /\ forallb p u = true /\ lo <= length u
      /\ within hi (length u) /\ k s' = Some a.
Proof.
  induction s as [|c s IH]; intros lo hi k a H.
  - simpl in H. destruct (Nat.eqb_spec lo 0); [|discriminate].
    exists [], []. subst lo. repeat split; auto.
    destruct hi; simpl; lia.
  - assert (Hstop : (if Nat.eqb lo 0 then k (c :: s) else None) = Some a ->
                    exists u s', c :: s = u ++ s' /\ forallb p u = true
                      /\ lo <= length u /\ within hi (length u)
                      /\ k s' = Some a).
    { destruct (Nat.eqb_spec lo 0); [|discriminate]. intros Hk.
      exists [], (c :: s). subst lo. repeat split; auto.
      destruct hi; simpl; lia. }
    cbn [rep] in H.
    destruct (p c && may_take hi) eqn:Hc; [|auto].
    apply andb_true_iff in Hc as [Hp Ht].
    destruct (rep p (pred lo) (one_less hi) s k) as [a'|] eqn:Hr; [|auto].
    injection H as ->.
    destruct (IH _ _ _ _ Hr) as (u & s' & -> & Hu & Hlo & Hhi & Hk).
    exists (c :: u), s'. simpl. rewrite Hp, Hu.
    repeat split; auto; [lia|]. now apply within_step.
Qed.

Lemma rep_complete (p : char -> bool) (u : str) :
  forall lo hi s' (k : str -> option A),
    forallb p u = true -> lo <= length u -> within hi (length u) ->
    k s' <> None ->
    rep p lo hi (u ++ s') k <> None.
Proof.
  induction u as [|c u IH]; intros lo hi s' k Hu Hlo Hhi Hk.
  - simpl in Hlo. assert (lo = 0) by lia; subst lo.
    destruct s' as [|c s']; simpl; auto.
    destruct (p c && may_take hi); auto.
    destruct (rep p 0 (one_less hi) s' k); auto. discriminate.
  - simpl in Hu. apply andb_true_iff in Hu as [Hp Hu].
    simpl in Hlo, Hhi. apply within_back in Hhi as [Ht Hhi].
    cbn [app rep]. rewrite Hp, Ht. cbn [andb].
    assert (Hr : rep p (pred lo) (one_less hi) (u ++ s') k <> None)
      by (apply IH; auto; lia).
    destruct (rep p (pred lo) (one_less hi) (u ++ s') k); [discriminate|].
    congruence.
Qed.

Lemma firstn_consumed (u s' : str) :
  firstn (length (u ++ s') - length s') (u ++ s') = u.
Proof.
  rewrite length_app, Nat.add_sub.
  rewrite firstn_app, Nat.sub_diag, firstn_all. simpl.
  apply app_nil_r.
Qed.

Lemma exec_sound (r : regex) :
  forall s g (k : str -> groups -> option A) a,
    exec r s g k = Some a ->
    exists u s' g',
      s = u ++ s' /\ sem r g u g' /\ k s' g' = Some a.
Proof.
  induction r as [c|p|r1 IH1 r2 IH2|p lo hi|n r IH];
    intros s g k a H; cbn [exec] in H.
  - destruct s as [|x s]; [discriminate|].
    destruct (N.eqb_spec x c); [subst x|discriminate].
    exists [c], s, g. simpl; auto.
  - destruct s as [|x s]; [discriminate|].
    destruct (p x) eqn:Hp; [|discriminate].
    exists [x], s, g. simpl. split; [reflexivity|].
    split; [|exact H]. exists x; auto.
  - apply IH1 in H as (u1 & s1 & g1 & -> & H1 & H).
    apply IH2 in H as (u2 & s2 & g2 & -> & H2 & H).
    exists (u1 ++ u2), s2, g2. rewrite app_assoc.
    split; [reflexivity|]. split; [|exact H].
    exists u1, u2, g1. auto.
  - apply rep_sound in H as (u & s' & -> & Hu & Hlo & Hhi & Hk).
    exists u, s', g. simpl. repeat split; auto.
  - apply IH in H as (u & s' & g' & -> & Hr & H).
    rewrite firstn_consumed in H.
    exists u, s', ((n, u) :: g').
    split; [reflexivity|]. split; [|exact H]. exists g'; auto.
Qed.

Lemma exec_complete (r : regex) :
  forall u s' g g' (k : str -> groups -> option A),
    sem r g u g' -> k s' g' <> None ->
    exec r (u ++ s') g k <> None.
Proof.
  induction r as [c|p|r1 IH1 r2 IH2|p lo hi|n r IH];
    intros u s' g g' k Hs Hk; cbn [exec]; simpl in Hs.
  - destruct Hs as [-> ->]. simpl. now rewrite N.eqb_refl.
  - destruct Hs as (x & -> & Hp & ->). simpl. now rewrite Hp.
  - destruct Hs as (u1 & u2 & g1 & -> & H1 & H2).
    rewrite <- app_assoc. eapply IH1; [exact H1|].
    eapply IH2; eauto.
  - destruct Hs as (Hu & Hlo & Hhi & ->).
    now apply rep_complete.
  - destruct Hs as (g1 & Hr & ->).
    eapply IH; [exact Hr|]. now rewrite firstn_consumed.
Qed.
End Exec.

Lemma match_at_sound (r : regex) (pos : nat) (s : str) (m : match_obj) :
  match_at r pos s = Some m ->
  s = m_text m ++ m_rest m /\ m_start m = pos
  /\ sem r [] (m_text m) (m_groups m).
Proof.
  unfold match_at. intros H.
  apply exec_sound in H as (u & s' & g' & -> & Hs & H).
  rewrite firstn_consumed in H. injection H as <-. simpl. auto.
Qed.

Lemma match_at_complete (r : regex) (pos : nat) (u s' : str) (g' : groups) :
  sem r [] u g' -> match_at r pos (u ++ s') <> None.
Proof.
  intros H. unfold match_at. eapply exec_complete; [exact H|discriminate].
Qed.

Lemma search_from_sound (r : regex) (s : str) :
  forall pos m,
    search_from r pos s = Some m ->
    exists pre, s = pre ++ m_text m ++ m_rest m
                /\ m_start m = pos + length pre
                /\ sem r [] (m_text m) (m_groups m).
Proof.
  induction s as [|c s IH]; intros pos m H; cbn [search_from] in H.
  - destruct (match_at r pos []) eqn:E; [|discriminate].
    injection H as ->. apply match_at_sound in E as (E1 & E2 & E3).
    exists []. simpl. rewrite Nat.add_0_r. auto.
  - destruct (match_at r pos (c :: s)) eqn:E.
    + injection H as ->. apply match_at_sound in E as (E1 & E2 & E3).
      exists []. simpl. rewrite Nat.add_0_r. auto.
    + apply IH in H as (pre & -> & Hpos & Hs).
      exists (c :: pre). simpl. repeat split; auto. lia.
Qed.

Lemma search_from_complete (r : regex) (pre u post : str) (g' : groups) :
  forall pos,
    sem r [] u g' -> search_from r pos (pre ++ u ++ post) <> None.
Proof.
  induction pre as [|c pre IH]; intros pos H.
  - simpl. pose proof (@match_at_complete r pos u post g' H) as Hm.
    destruct (u ++ post); simpl;
      destruct (match_at r pos _); congruence.
  - simpl. destruct (match_at r pos (c :: pre ++ u ++ post));
      [discriminate|]. now apply IH.
Qed.

End ReFacts.

(** ** What the two patterns match *)

Module PatternFacts.
Import Re ReSem.

Lemma exactly_two (p : char -> bool) (u : str) :
  forallb p u = true /\ 2 <= length u /\ length u <= 2 <->
  exists a b, u = [a; b] /\ p a = true /\ p b = true.
Proof.
  split.
  - intros (Hp & Hlo & Hhi).
    destruct u as [|a [|b [|c u]]]; simpl in *; try lia.
    apply andb_true_iff in Hp as [Ha Hb].
    apply andb_true_iff in Hb as [Hb _]. eauto.
  - intros (a & b & -> & Ha & Hb). simpl. rewrite Ha, Hb. auto.
Qed.

Lemma exactly_three (p : char -> bool) (u : str) :
  forallb p u = true /\ 3 <= length u /\ length u <= 3 <->
  exists a b c, u = [a; b; c] /\ p a = true /\ p b = true /\ p c = true.
Proof.
  split.
  - intros (Hp & Hlo & Hhi).
    destruct u as [|a [|b [|c [|d u]]]]; simpl in *; try lia.
    apply andb_true_iff in Hp as [Ha Hb].
    apply andb_true_iff in Hb as [Hb Hc].
    apply andb_true_iff in Hc as [Hc _]. eauto 8.
  - intros (a & b & c & -> & Ha & Hb & Hc). simpl.
    rewrite Ha, Hb, Hc. auto.
Qed.

Lemma sem_clock (g g' : groups) (u : str) :
  sem clock_pattern g u g' <-> clock_value comma_or_dot u /\ g' = g.
Proof.
  unfold clock_pattern, clock_value. cbn [cat sem within].
  split.
  - intros (h & r1 & g1 & -> & (Hh1 & Hh2 & Hh3 & ->) &
            c1 & r2 & g2 & -> & (-> & ->) &
            m & r3 & g3 & -> & (Hm1 & Hm2 & Hm3 & ->) &
            c2 & r4 & g4 & -> & (-> & ->) &
            s & r5 & g5 & -> & (Hs1 & Hs2 & Hs3 & ->) &
            sp & f & g6 & -> & (sep & -> & Hsep & ->) &
            Hf1 & Hf2 & Hf3 & ->).
    destruct (proj1 (exactly_two _ _) (conj Hh1 (conj Hh2 Hh3)))
      as (h1 & h2 & -> & Hh1' & Hh2').
    destruct (proj1 (exactly_two _ _) (conj Hm1 (conj Hm2 Hm3)))
      as (m1 & m2 & -> & Hm1' & Hm2').
    destruct (proj1 (exactly_two _ _) (conj Hs1 (conj Hs2 Hs3)))
      as (s1 & s2 & -> & Hs1' & Hs2').
    destruct (proj1 (exactly_three _ _) (conj Hf1 (conj Hf2 Hf3)))
      as (f1 & f2 & f3 & -> & Hf1' & Hf2' & Hf3').
    split; [|reflexivity].
    exists h1, h2, m1, m2, s1, s2, sep, f1, f2, f3.
    split; [reflexivity|]. split; [|exact Hsep].
    simpl. now rewrite Hh1', Hh2', Hm1', Hm2', Hs1', Hs2', Hf1', Hf2', Hf3'.
  - intros ((h1 & h2 & m1 & m2 & s1 & s2 & sep & f1 & f2 & f3
            & -> & Hd & Hsep) & ->).
    simpl in Hd.
    repeat (apply andb_true_iff in Hd; destruct Hd as [? Hd]).
    exists [h1; h2], [COLON; m1; m2; COLON; s1; s2; sep; f1; f2; f3], g.
    split; [reflexivity|]. split.
    { simpl. repeat split; auto. now rewrite H, H0. }
    exists [COLON], [m1; m2; COLON; s1; s2; sep; f1; f2; f3], g.
    split; [reflexivity|]. split; [now split|].
    exists [m1; m2], [COLON; s1; s2; sep; f1; f2; f3], g.
    split; [reflexivity|]. split.
    { simpl. repeat split; auto. now rewrite H1, H2. }
    exists [COLON], [s1; s2; sep; f1; f2; f3], g.
    split; [reflexivity|]. split; [now split|].
    exists [s1; s2], [sep; f1; f2; f3], g.
    split; [reflexivity|]. split.
    { simpl. repeat split; auto. now rewrite H3, H4. }
    exists [sep], [f1; f2; f3], g.
    split; [reflexivity|]. split; [exists sep; auto|].
    simpl. repeat split; auto. now rewrite H5, H6, H7.
Qed.

Lemma sem_arrow (g g' : groups) (u : str) :
  sem (lit (py "-->")) g u g' <-> u = py "-->" /\ g' = g.
Proof.
  change (lit (py "-->")) with (Cat (Chr DASH) (Cat (Chr DASH) (Chr GT))).
  change (py "-->") with [DASH; DASH; GT].
  cbn [sem]. split.
  - intros (u1 & u2 & g1 & -> & (-> & ->) &
            u3 & u4 & g2 & -> & (-> & ->) & -> & ->). auto.
  - intros (-> & ->).
    exists [DASH], [DASH; GT], g. repeat split.
    exists [DASH], [GT], g. repeat split.
Qed.

(** The strings matched by [time_pattern], with the groups it records. *)
Lemma sem_time (u : str) (g' : groups) :
  sem time_pattern [] u g' <->
  exists t1 ws1 ws2 t2,
    u = t1 ++ ws1 ++ py "-->" ++ ws2 ++ t2
    /\ clock_value comma_or_dot t1 /\ clock_value comma_or_dot t2
    /\ forallb Unicode.isspace ws1 = true
    /\ forallb Unicode.isspace ws2 = true
    /\ g' = [(2, t2); (1, t1)].
Proof.
  unfold time_pattern. cbn [cat sem within]. split.
  - intros (t1 & r1 & g1 & -> & (g0 & Ht1 & ->) &
            ws1 & r2 & g2 & -> & (Hws1 & _ & _ & ->) &
            ar & r3 & g3 & -> & Har &
            ws2 & t2 & g4 & -> & (Hws2 & _ & _ & ->) &
            g5 & Ht2 & ->).
    apply sem_clock in Ht1 as [Ht1 ->].
    apply sem_arrow in Har as [-> ->].
    apply sem_clock in Ht2 as [Ht2 ->].
    exists t1, ws1, ws2, t2. repeat split; auto.
  - intros (t1 & ws1 & ws2 & t2 & -> & Ht1 & Ht2 & Hws1 & Hws2 & ->).
    exists t1, (ws1 ++ py "-->" ++ ws2 ++ t2), [(1, t1)].
    split; [reflexivity|]. split.
    { exists []. split; [|reflexivity]. now apply sem_clock. }
    exists ws1, (py "-->" ++ ws2 ++ t2), [(1, t1)].
    split; [reflexivity|]. split; [repeat split; auto; lia|].
    exists (py "-->"), (ws2 ++ t2), [(1, t1)].
    split; [reflexivity|]. split; [now apply sem_arrow|].
    exists ws2, t2, [(1, t1)].
    split; [reflexivity|]. split; [repeat split; auto; lia|].
    exists [(1, t1)]. split; [|reflexivity]. now apply sem_clock.
Qed.

(** [time_pattern.search(line)] succeeds exactly on the lines that
    contain a time range. *)
Lemma search_time_iff (line : str) :
  (exists m, search time_pattern line = Some m) <-> timestamp_line line.
Proof.
  split.
  - intros (m & Hm). unfold search in Hm.
    apply ReFacts.search_from_sound in Hm as (pre & -> & _ & Hs).
    apply sem_time in Hs
      as (t1 & ws1 & ws2 & t2 & -> & Ht1 & Ht2 & Hw1 & Hw2 & _).
    exists pre, t1, ws1, ws2, t2, (m_rest m).
    repeat split; auto. now rewrite <- !app_assoc.
  - intros (pre & t1 & ws1 & ws2 & t2 & post
            & -> & Ht1 & Ht2 & Hw1 & Hw2).
    assert (Hs : sem time_pattern []
                   (t1 ++ ws1 ++ py "-->" ++ ws2 ++ t2) [(2, t2); (1, t1)]).
    { apply sem_time. exists t1, ws1, ws2, t2. repeat split; auto. }
    pose proof (@ReFacts.search_from_complete time_pattern pre _ post _ 0 Hs)
      as Hn.
    unfold search.
    replace (pre ++ t1 ++ ws1 ++ py "-->" ++ ws2 ++ t2 ++ post)
      with (pre ++ (t1 ++ ws1 ++ py "-->" ++ ws2 ++ t2) ++ post)
      by (now rewrite <- !app_assoc).
    destruct (search_from time_pattern 0 _) as [m|]; [eauto|congruence].
Qed.

Lemma search_time_none (line : str) :
  search time_pattern line = None <-> ~ timestamp_line line.
Proof.
  rewrite <- search_time_iff. split.
  - intros H (m & Hm). congruence.
  - intros H. destruct (search time_pattern line) eqn:E; [|reflexivity].
    exfalso. apply H. eauto.
Qed.

(** The groups of a successful search are the two clock values. *)
Lemma search_time_groups (line : str) (m : match_obj) :
  search time_pattern line = Some m ->
  exists t1 t2,
    m_groups m = [(2, t2); (1, t1)]
    /\ clock_value comma_or_dot t1 /\ clock_value comma_or_dot t2.
Proof.
  intros Hm. unfold search in Hm.
  apply ReFacts.search_from_sound in Hm as (pre & _ & _ & Hs).
  apply sem_time in Hs
    as (t1 & ws1 & ws2 & t2 & _ & Ht1 & Ht2 & _ & _ & Hg).
  eauto.
Qed.

End PatternFacts.

(** ** One block *)

Module BlockFacts.
Import Re.

(** The inner loop stops at the first line on which the search succeeds
    and hands over the lines after it. *)
Lemma scan_lines_found (seen before after : list str) (line : str)
      (m : match_obj) :
  Forall (fun l => search time_pattern l = None) before ->
  search time_pattern line = Some m ->
  scan_lines (seen ++ before ++ line :: after) (length seen)
             (before ++ line :: after)
  = (Some m, after).
Proof.
  revert seen. induction before as [|l before IH]; intros seen Hb Hm.
  - simpl. rewrite Hm. f_equal.
    rewrite skipn_app.
    replace (length seen + 1 - length seen) with 1 by lia.
    rewrite skipn_all2 by lia. reflexivity.
  - inversion Hb as [|? ? Hl Hb']; subst.
    cbn [app scan_lines]. rewrite Hl.
    specialize (IH (seen ++ [l]) Hb' Hm).
    rewrite length_app, Nat.add_1_r, <- app_assoc in IH. exact IH.
Qed.

Lemma scan_lines_missing (lines rest : list str) (i : nat) :
  Forall (fun l => search time_pattern l = None) rest ->
  scan_lines lines i rest = (None, []).
Proof.
  revert i. induction rest as [|l rest IH]; intros i H; [reflexivity|].
  inversion H; subst. simpl.
  match goal with Hl : search _ l = None |- _ => rewrite Hl end.
  now apply IH.
Qed.

(** Every list of lines either has no matching line or splits at the
    first one. *)
Lemma first_match (lines : list str) :
  Forall (fun l => search time_pattern l = None) lines
  \/ exists before line after m,
       lines = before ++ line :: after
       /\ Forall (fun l => search time_pattern l = None) before
       /\ search time_pattern line = Some m.
Proof.
  induction lines as [|l lines IH]; [now left|].
  destruct (search time_pattern l) as [m|] eqn:E.
  - right. exists [], l, lines, m. auto.
  - destruct IH as [IH|(before & line & after & m & -> & Hb & Hm)].
    + left. now constructor.
    + right. exists (l :: before), line, after, m. auto.
Qed.

Lemma scan_lines_cases (lines : list str) :
  scan_lines lines 0 lines = (None, [])
  \/ exists before line after m,
       lines = before ++ line :: after
       /\ Forall (fun l => search time_pattern l = None) before
       /\ search time_pattern line = Some m
       /\ scan_lines lines 0 lines = (Some m, after).
Proof.
  destruct (first_match lines)
    as [H|(before & line & after & m & -> & Hb & Hm)].
  - left. now apply scan_lines_missing.
  - right. exists before, line, after, m. repeat split; auto.
    exact (@scan_lines_found [] before after line m Hb Hm).
Qed.

Lemma entry_of_length (t1 t2 : str) (text_lines : list str) :
  length (entry_of t1 t2 text_lines) <= 1.
Proof.
  unfold entry_of. destruct (_ && _); simpl; lia.
Qed.

(** What one pass through the loop body does to [parsed_subs], by what
    the inner loop found. *)
Lemma process_block_found (block : str) (acc : list subtitle)
      (m : match_obj) (text_lines : list str) (t1 t2 : str) :
  let lines := Str.split [LF] (Str.strip block) in
  3 <= length lines ->
  scan_lines lines 0 lines = (Some m, text_lines) ->
  m_groups m = [(2, t2); (1, t1)] ->
  process_block block acc = Ret (acc ++ entry_of t1 t2 text_lines).
Proof.
  intros lines Hlen Hscan Hg. unfold process_block. fold lines.
  apply Nat.leb_le in Hlen. rewrite Hlen, Hscan.
  unfold entry_of. cbn [truthy andb].
  destruct (Str.nonempty text_lines); [|now rewrite app_nil_r].
  cbn [group]. rewrite Hg. cbn [lookup Nat.eqb bind].
  destruct (Str.nonempty (clean text_lines));
    [reflexivity|now rewrite app_nil_r].
Qed.

Lemma process_block_missing (block : str) (acc : list subtitle) :
  let lines := Str.split [LF] (Str.strip block) in
  scan_lines lines 0 lines = (None, []) ->
  process_block block acc = Ret acc.
Proof.
  intros lines Hscan. unfold process_block. fold lines. rewrite Hscan.
  now destruct (3 <=? length lines).
Qed.

Lemma process_block_short (block : str) (acc : list subtitle) :
  length (Str.split [LF] (Str.strip block)) < 3 ->
  process_block block acc = Ret acc.
Proof.
  intros H. unfold process_block.
  apply Nat.leb_gt in H. now rewrite H.
Qed.

(** The loop body never raises and appends what [entries_of] says: no
    entry or one entry. *)
Lemma process_block_total (block : str) :
  exists l,
    length l <= 1
    /\ forall acc, process_block block acc = Ret (acc ++ l).
Proof.
  set (lines := Str.split [LF] (Str.strip block)).
  destruct (Nat.lt_ge_cases (length lines) 3) as [Hlt|Hge].
  - exists []. split; [simpl; lia|]. intros acc.
    rewrite app_nil_r. now apply process_block_short.
  - destruct (scan_lines_cases lines)
      as [H|(before & line & after & m & _ & _ & Hm & Hscan)].
    + exists []. split; [simpl; lia|]. intros acc.
      rewrite app_nil_r. now apply process_block_missing.
    + destruct (PatternFacts.search_time_groups _ Hm)
        as (t1 & t2 & Hg & _ & _).
      exists (entry_of t1 t2 after). split; [apply entry_of_length|].
      intros acc. now apply process_block_found with (m := m).
Qed.

Lemma process_block_entries (block : str) (acc : list subtitle) :
  process_block block acc = Ret (acc ++ entries_of block).
Proof.
  destruct (process_block_total block) as (l & _ & H).
  unfold entries_of. rewrite (H []). simpl. apply H.
Qed.

Lemma entries_of_length (block : str) : length (entries_of block) <= 1.
Proof.
  destruct (process_block_total block) as (l & Hl & H).
  unfold entries_of. now rewrite (H []).
Qed.

Lemma entries_of_found (block : str) (m : match_obj)
      (text_lines : list str) (t1 t2 : str) :
  let lines := Str.split [LF] (Str.strip block) in
  3 <= length lines ->
  scan_lines lines 0 lines = (Some m, text_lines) ->
  m_groups m = [(2, t2); (1, t1)] ->
  entries_of block = entry_of t1 t2 text_lines.
Proof.
  intros lines Hlen Hscan Hg. unfold entries_of.
  now rewrite (@process_block_found block [] m text_lines t1 t2).
Qed.

(** The shape of every entry a block contributes. *)
Lemma entries_of_inv (block : str) (e : subtitle) :
  In e (entries_of block) ->
  let lines := Str.split [LF] (Str.strip block) in
  exists m t1 t2,
    3 <= length lines
    /\ fst (scan_lines lines 0 lines) = Some m
    /\ m_groups m = [(2, t2); (1, t1)]
    /\ clock_value comma_or_dot t1 /\ clock_value comma_or_dot t2
    /\ entries_of block = [e]
    /\ start e = Str.replace [DOT] [COMMA] t1
    /\ end_ e = Str.replace [DOT] [COMMA] t2
    /\ text e = clean (snd (scan_lines lines 0 lines))
    /\ text e <> []
    /\ snd (scan_lines lines 0 lines) <> [].
Proof.
  intros Hin lines.
  destruct (Nat.lt_ge_cases (length lines) 3) as [Hlt|Hge].
  { unfold entries_of in Hin.
    rewrite process_block_short in Hin by exact Hlt. destruct Hin. }
  destruct (scan_lines_cases lines)
    as [H|(before & line & after & m & _ & _ & Hm & Hscan)].
  { unfold entries_of in Hin.
    rewrite process_block_missing in Hin by exact H. destruct Hin. }
  destruct (PatternFacts.search_time_groups _ Hm)
    as (t1 & t2 & Hg & Ht1 & Ht2).
  pose proof (@entries_of_found block m after t1 t2 Hge Hscan Hg) as He.
  rewrite He in Hin. unfold entry_of in *.
  destruct after as [|a after]; [destruct Hin|].
  cbn [Str.nonempty andb] in *.
  destruct (clean (a :: after)) as [|c cl] eqn:Hc; [destruct Hin|].
  cbn [Str.nonempty] in *.
  destruct Hin as [<-|[]].
  exists m, t1, t2. fold lines. rewrite Hscan. cbn [fst snd start end_ text].
  rewrite Hc. repeat split; auto; discriminate.
Qed.

(** Lines added after the lines in which the loop found its match are
    added to the text lines. *)
Lemma scan_lines_app (lines more : list str) (m : match_obj)
      (after : list str) :
  scan_lines lines 0 lines = (Some m, after) ->
  scan_lines (lines ++ more) 0 (lines ++ more) = (Some m, after ++ more)
  /\ exists line,
       In line lines /\ search time_pattern line = Some m.
Proof.
  intros H.
  destruct (scan_lines_cases lines)
    as [Hn|(before & line & after' & m' & -> & Hb & Hm & Hscan)];
    [congruence|].
  rewrite Hscan in H. injection H as -> ->. split.
  - rewrite <- app_assoc. cbn [app].
    exact (@scan_lines_found [] before (after ++ more) line m Hb Hm).
  - exists line. split; [|exact Hm].
    apply in_or_app; right; now left.
Qed.

End BlockFacts.

(** ** The whole document *)

Lemma for_blocks_flat_map (blocks : list str) :
  forall acc,
    for_blocks blocks acc = Ret (acc ++ flat_map entries_of blocks).
Proof.
  induction blocks as [|b blocks IH]; intros acc; simpl.
  - now rewrite app_nil_r.
  - rewrite BlockFacts.process_block_entries. simpl.
    rewrite IH. now rewrite <- app_assoc.
Qed.

Lemma parse_srt_flat_map (srt_content : str) :
  parse_srt srt_content
  = Ret (flat_map entries_of
                  (split_blocks (normalize_line_endings srt_content))).
Proof. unfold parse_srt. now rewrite for_blocks_flat_map. Qed.

Lemma parse_srt_normalized (d1 d2 : str) :
  normalize_line_endings d1 = normalize_line_endings d2 ->
  parse_srt d1 = parse_srt d2.
Proof. intros H. unfold parse_srt. now rewrite H. Qed.

(** ** Separators of the output *)

Module ClockFacts.

Lemma in_ranges_lower (t : list (N * N)) (b c : N) :
  Forall (fun r => (b <= fst r)%N) t ->
  Unicode.in_ranges t c = true -> (b <= c)%N.
Proof.
  induction t as [|[lo hi] t IH]; intros Ht H; [discriminate|].
  inversion Ht; subst. simpl in *.
  apply orb_true_iff in H as [H|H]; [|now apply IH].
  apply andb_true_iff in H as [H _]. apply N.leb_le in H. lia.
Qed.

Lemma digit_lower (c : char) :
  Unicode.isdecimal c = true -> (48 <= c)%N.
Proof.
  apply in_ranges_lower.
  unfold Unicode.digit_table.
  repeat (constructor; [simpl; lia|]). constructor.
Qed.

Lemma digit_not_dot (c : char) :
  Unicode.isdecimal c = true -> (c =? DOT)%N = false.
Proof.
  intros H. apply digit_lower in H. apply N.eqb_neq. unfold DOT. lia.
Qed.

(** Replacing the period turns either separator into a comma and leaves
    the digits alone. *)
Lemma comma_clock (t : str) :
  clock_value comma_or_dot t ->
  clock_value comma_only (Str.replace [DOT] [COMMA] t)
  /\ ~ In DOT (Str.replace [DOT] [COMMA] t).
Proof.
  intros (h1 & h2 & m1 & m2 & s1 & s2 & sep & f1 & f2 & f3
          & -> & Hd & Hsep).
  split; [|apply StrFacts.replace_char_gone; discriminate].
  rewrite StrFacts.replace_char. cbn [map].
  pose proof Hd as Hd'. simpl in Hd'.
  repeat (apply andb_true_iff in Hd'; destruct Hd' as [? Hd']).
  change (COLON =? DOT)%N with false. cbv iota.
  rewrite (@digit_not_dot _ H), (@digit_not_dot _ H0), (@digit_not_dot _ H1),
    (@digit_not_dot _ H2), (@digit_not_dot _ H3), (@digit_not_dot _ H4),
    (@digit_not_dot _ H5), (@digit_not_dot _ H6), (@digit_not_dot _ H7).
  exists h1, h2, m1, m2, s1, s2, COMMA, f1, f2, f3.
  split; [|split; [exact Hd|reflexivity]].
  unfold comma_or_dot in Hsep.
  destruct (N.eqb_spec sep DOT) as [->|Hne]; [reflexivity|].
  rewrite orb_false_r in Hsep. apply N.eqb_eq in Hsep. now subst sep.
Qed.

End ClockFacts.

(** ** Lists built block by block *)

Module OrderFacts.

Section FlatMap.
Variables (A B : Type) (f : A -> list B).
Hypothesis f_short : forall a, length (f a) <= 1.

Lemma flat_map_origin (l : list A) :
  forall j e,
    nth_error (flat_map f l) j = Some e ->
    exists bj b, nth_error l bj = Some b /\ f b = [e].
Proof.
  induction l as [|a l IH]; intros j e H.
  - destruct j; discriminate.
  - simpl in H. pose proof (f_short a) as Ha.
    destruct (f a) as [|x [|y t]] eqn:E; simpl in Ha; try lia.
    + destruct (IH _ _ H) as (bj & b & Hb & Hf).
      exists (S bj), b. auto.
    + destruct j as [|j]; simpl in H.
      * injection H as <-. exists 0, a. auto.
      * destruct (IH _ _ H) as (bj & b & Hb & Hf).
        exists (S bj), b. auto.
Qed.

Lemma flat_map_order (l : list A) :
  forall i j e1 e2,
    i < j ->
    nth_error (flat_map f l) i = Some e1 ->
    nth_error (flat_map f l) j = Some e2 ->
    exists bi bj b1 b2,
      bi < bj
      /\ nth_error l bi = Some b1 /\ nth_error l bj = Some b2
      /\ f b1 = [e1] /\ f b2 = [e2].
Proof.
  induction l as [|a l IH]; intros i j e1 e2 Hij H1 H2.
  - destruct i; discriminate.
  - simpl in H1, H2. pose proof (f_short a) as Ha.
    destruct (f a) as [|x [|y t]] eqn:E; simpl in Ha; try lia.
    + destruct (IH _ _ _ _ Hij H1 H2)
        as (bi & bj & b1 & b2 & Hlt & Hb1 & Hb2 & Hf1 & Hf2).
      exists (S bi), (S bj), b1, b2. repeat split; auto. lia.
    + destruct j as [|j]; [lia|]. simpl in H2.
      destruct i as [|i]; simpl in H1.
      * injection H1 as <-.
        destruct (flat_map_origin _ _ H2) as (bj & b2 & Hb2 & Hf2).
        exists 0, (S bj), a, b2. repeat split; auto. lia.
      * assert (Hij' : i < j) by lia.
        destruct (IH _ _ _ _ Hij' H1 H2)
          as (bi & bj & b1 & b2 & Hlt & Hb1 & Hb2 & Hf1 & Hf2).
        exists (S bi), (S bj), b1, b2. repeat split; auto. lia.
Qed.
End FlatMap.

End OrderFacts.

(** ** Joined lines and their line endings *)

Module JoinFacts.
Import Str StrFacts.

Lemma join_cons (sep p q : str) (ps : list str) :
  join sep (p :: q :: ps) = p ++ sep ++ join sep (q :: ps).
Proof. reflexivity. Qed.

Lemma In_join (c : char) (sep : str) (ls : list str) :
  In c (join sep ls) -> In c sep \/ Exists (fun l => In c l) ls.
Proof.
  induction ls as [|p [|q ps] IH]; intros H.
  - destruct H.
  - right. now constructor.
  - rewrite join_cons in H.
    apply in_app_or in H as [H|H]; [right; now constructor|].
    apply in_app_or in H as [H|H]; [now left|].
    destruct (IH H) as [Hs|He]; [now left|right; now constructor].
Qed.

Lemma join_fresh (c : char) (sep : str) (ls : list str) :
  ~ In c sep -> Forall (fun l => ~ In c l) ls -> ~ In c (join sep ls).
Proof.
  intros Hs Hl H. apply In_join in H as [H|H]; [auto|].
  apply Exists_exists in H as (l & Hin & Hc).
  rewrite Forall_forall in Hl. exact (Hl _ Hin Hc).
Qed.

Lemma replace_prefix_absent (x : char) (old' new l r : str) :
  ~ In x l ->
  replace (x :: old') new (l ++ r) = l ++ replace (x :: old') new r.
Proof.
  induction l as [|c l IH]; intros H; [reflexivity|].
  cbn [app]. rewrite replace_miss.
  - f_equal. apply IH. intros Hin. apply H. now right.
  - simpl. destruct (N.eqb_spec x c); [|reflexivity].
    exfalso. apply H. now left.
Qed.

(** Replacing the separator of joined pieces that do not contain its
    first character gives the pieces joined by the replacement. *)
Lemma replace_join (x : char) (old' new : str) (ls : list str) :
  Forall (fun l => ~ In x l) ls ->
  replace (x :: old') new (join (x :: old') ls) = join new ls.
Proof.
  induction ls as [|p [|q ps] IH]; intros H.
  - reflexivity.
  - inversion H; subst. simpl.
    apply replace_absent. intros Ho.
    match goal with Hp : ~ In x p |- _ => apply Hp end.
    eapply occurs_In; [|exact Ho]. now left.
  - inversion H; subst. rewrite !join_cons.
    rewrite replace_prefix_absent by assumption.
    rewrite replace_hit by discriminate.
    now rewrite IH.
Qed.

Section Lines.
Variable lines : list str.
Hypothesis no_CR : Forall (fun l => ~ In CR l) lines.
Hypothesis no_LF : Forall (fun l => ~ In LF l) lines.

Lemma normalize_join_LF :
  normalize_line_endings (join [LF] lines) = join [LF] lines.
Proof.
  apply normalize_fixed, join_fresh; [|exact no_CR].
  intros [H|[]]. discriminate.
Qed.

Lemma normalize_join_CRLF :
  normalize_line_endings (join [CR; LF] lines) = join [LF] lines.
Proof.
  unfold normalize_line_endings.
  rewrite replace_join by exact no_CR.
  apply replace_char_fresh, join_fresh; [|exact no_CR].
  intros [H|[]]. discriminate.
Qed.

Lemma normalize_join_CR :
  normalize_line_endings (join [CR] lines) = join [LF] lines.
Proof.
  unfold normalize_line_endings.
  rewrite (@replace_absent [CR; LF]).
  - now apply replace_join.
  - intros Ho.
    apply (@join_fresh LF [CR] lines); [|exact no_LF|].
    + intros [H|[]]. discriminate.
    + eapply occurs_In; [|exact Ho]. right; now left.
Qed.
End Lines.

(** The removal of "- " works through a string piece by piece: removing
    it from a string that contains it at some place is removing it from
    what comes before and from what comes after. *)
Lemma remove_dash_from (a b : str) :
  forall k,
    k <= length a ->
    replace_from [DASH; SP] [] k (a ++ [DASH; SP] ++ b)
    = replace_from [DASH; SP] [] k a ++ replace [DASH; SP] [] b.
Proof.
  induction a as [|c a IH]; intros k Hk.
  - simpl in Hk. assert (k = 0) by lia; subst k.
    cbn [app]. change (replace_from [DASH; SP] [] 0 ?s)
      with (replace [DASH; SP] [] s).
    change (DASH :: SP :: b) with ([DASH; SP] ++ b).
    now rewrite replace_hit by discriminate.
  - destruct k as [|k].
    + cbn [app replace_from nonempty andb].
      destruct (startswith [DASH; SP] (c :: a)) eqn:Ea.
      * cbn [startswith] in Ea.
        apply andb_true_iff in Ea as [E1 E2].
        apply N.eqb_eq in E1; subst c.
        destruct a as [|d a]; [discriminate|].
        apply andb_true_iff in E2 as [E2 _].
        apply N.eqb_eq in E2; subst d.
        cbn [app startswith]. rewrite !N.eqb_refl. cbn [andb].
        apply (IH 1). simpl. lia.
      * assert (Eab : startswith [DASH; SP] (c :: a ++ [DASH; SP] ++ b)
                      = false).
        { cbn [startswith] in *. destruct (DASH =? c)%N; [|reflexivity].
          destruct a as [|d a]; [reflexivity|].
          cbn [app andb] in *. exact Ea. }
        change (DASH :: SP :: b) with ([DASH; SP] ++ b).
        rewrite Eab. cbn [app]. f_equal. apply IH. lia.
    + cbn [app replace_from]. apply IH. simpl in Hk. lia.
Qed.

Lemma remove_dash_app (a b : str) :
  replace [DASH; SP] [] (a ++ [DASH; SP] ++ b)
  = replace [DASH; SP] [] a ++ replace [DASH; SP] [] b.
Proof. apply remove_dash_from. lia. Qed.

End JoinFacts.

(** ** The text cleanup *)

Module CleanFacts.
Import Str StrFacts Re ReSem.

(** *** [strip] keeps a middle part of the string *)

Lemma forallb_rev (p : char -> bool) (l : str) :
  forallb p (rev l) = forallb p l.
Proof.
  induction l as [|c l IH]; [reflexivity|]. simpl.
  rewrite forallb_app, IH. simpl. rewrite andb_true_r. apply andb_comm.
Qed.

Lemma lstrip_split (s : str) :
  exists ws, s = ws ++ lstrip s /\ forallb Unicode.isspace ws = true.
Proof.
  induction s as [|c s (ws & IH & Hws)]; [now exists []|].
  simpl. destruct (Unicode.isspace c) eqn:E.
  - exists (c :: ws). simpl. rewrite E, Hws. split; [congruence|auto].
  - now exists [].
Qed.

Lemma lstrip_lead_ok (s : str) : lead_ok (lstrip s) = true.
Proof.
  induction s as [|c s IH]; [reflexivity|]. simpl.
  destruct (Unicode.isspace c) eqn:E; [exact IH|]. simpl. now rewrite E.
Qed.

Lemma lstrip_fixed (s : str) : lead_ok s = true -> lstrip s = s.
Proof.
  destruct s as [|c s]; [reflexivity|]. simpl.
  now destruct (Unicode.isspace c).
Qed.

Lemma rstrip_split (s : str) :
  exists ws, s = rstrip s ++ ws /\ forallb Unicode.isspace ws = true.
Proof.
  destruct (lstrip_split (rev s)) as (ws & H & Hws).
  exists (rev ws). unfold rstrip. split.
  - rewrite <- rev_app_distr, <- H. now rewrite rev_involutive.
  - now rewrite forallb_rev.
Qed.

Lemma rstrip_fixed (s : str) : lead_ok (rev s) = true -> rstrip s = s.
Proof.
  intros H. unfold rstrip. rewrite lstrip_fixed by exact H.
  apply rev_involutive.
Qed.

Lemma rstrip_lead_ok (s : str) :
  lead_ok s = true -> lead_ok (rstrip s) = true.
Proof.
  intros H. destruct (rstrip_split s) as (ws & Hs & _).
  destruct (rstrip s) as [|c r]; [reflexivity|].
  rewrite Hs in H. exact H.
Qed.

Lemma strip_split (s : str) :
  exists a b, s = a ++ strip s ++ b.
Proof.
  destruct (lstrip_split s) as (a & Ha & _).
  destruct (rstrip_split (lstrip s)) as (b & Hb & _).
  exists a, b. unfold strip. now rewrite <- Hb.
Qed.

Lemma strip_fixed (s : str) :
  lead_ok s = true -> lead_ok (rev s) = true -> strip s = s.
Proof.
  intros H1 H2. unfold strip. rewrite lstrip_fixed by exact H1.
  now apply rstrip_fixed.
Qed.

Lemma strip_idempotent (s : str) : strip (strip s) = strip s.
Proof.
  apply strip_fixed.
  - apply rstrip_lead_ok, lstrip_lead_ok.
  - unfold strip, rstrip. rewrite rev_involutive. apply lstrip_lead_ok.
Qed.

Lemma occurs_middle (old s a b : str) :
  occurs old s -> occurs old (a ++ s ++ b).
Proof.
  intros (x & y & ->). exists (a ++ x), (y ++ b).
  now rewrite <- !app_assoc.
Qed.

Lemma strip_absent (old s : str) :
  ~ occurs old s -> ~ occurs old (strip s).
Proof.
  intros H Ho. apply H. destruct (strip_split s) as (a & b & Hs).
  rewrite Hs. now apply occurs_middle.
Qed.

(** *** Tags *)

Lemma sem_tag (u : str) (g' : groups) :
  sem tag_pattern [] u g' ->
  exists b, u = [LT] ++ b ++ [GT] /\ b <> [] /\ ~ In GT b.
Proof.
  unfold tag_pattern. cbn [cat sem within].
  intros (u1 & r1 & g1 & -> & (-> & ->) &
          b & u3 & g2 & -> & (Hb & Hlen & _ & ->) & -> & _).
  exists b. split; [reflexivity|]. split.
  - destruct b; [simpl in Hlen; lia|discriminate].
  - intros Hin. rewrite forallb_forall in Hb.
    specialize (Hb _ Hin). now rewrite N.eqb_refl in Hb.
Qed.

Lemma tag_match_has_tag (pos : nat) (s : str) (m : match_obj) :
  match_at tag_pattern pos s = Some m -> has_tag s.
Proof.
  intros H. apply ReFacts.match_at_sound in H as (Hs & _ & Hsem).
  apply sem_tag in Hsem as (b & Hb & Hne & Hgt).
  exists [], b, (m_rest m). rewrite Hs, Hb.
  now rewrite <- !app_assoc.
Qed.

Lemma has_tag_cons (c : char) (s : str) : has_tag s -> has_tag (c :: s).
Proof.
  intros (a & b & d & -> & H). now exists (c :: a), b, d.
Qed.

Lemma has_tag_In (s : str) : has_tag s -> In LT s.
Proof.
  intros (a & b & d & -> & _). apply in_or_app; right. now left.
Qed.

(** Without a tag in the text, the substitution changes nothing. *)
Lemma sub_tag_absent (repl s : str) :
  ~ has_tag s -> sub tag_pattern repl s = s.
Proof.
  unfold sub. induction s as [|c s IH]; intros H.
  - cbn [sub_from]. destruct (match_at tag_pattern 0 []) eqn:E;
      [|reflexivity].
    exfalso. apply H. eapply tag_match_has_tag; eauto.
  - cbn [sub_from]. destruct (match_at tag_pattern 0 (c :: s)) eqn:E.
    + exfalso. apply H. eapply tag_match_has_tag; eauto.
    + f_equal. apply IH. intros Ht. apply H. now apply has_tag_cons.
Qed.

(** Text without tags and without "- " is only trimmed. *)
Lemma clean_plain (text_lines : list str) :
  ~ has_tag (join [SP] text_lines) ->
  ~ occurs [DASH; SP] (join [SP] text_lines) ->
  clean text_lines = strip (join [SP] text_lines).
Proof.
  intros Ht Hd. unfold clean.
  rewrite sub_tag_absent by exact Ht.
  rewrite replace_absent by (now apply strip_absent).
  apply strip_idempotent.
Qed.

End CleanFacts.

(** ** Splitting *)

Module SplitFacts.
Import Str StrFacts.

Lemma prepend_prepend (p q : str) (l : list str) :
  prepend p (prepend q l) = prepend (p ++ q) l.
Proof. destruct l; simpl; now rewrite <- ?app_assoc. Qed.

Lemma prepend_nil (l : list str) : l <> [] -> prepend [] l = l.
Proof. destruct l; [congruence|reflexivity]. Qed.

Lemma prepend_app (p : str) (l1 l2 : list str) :
  l1 <> [] -> prepend p (l1 ++ l2) = prepend p l1 ++ l2.
Proof. destruct l1; [congruence|reflexivity]. Qed.

Lemma prepend_glue (p : str) (l1 l2 : list str) :
  l1 <> [] -> prepend p (glue l1 l2) = glue (prepend p l1) l2.
Proof.
  intros H. destruct l1 as [|x [|y l1]]; [congruence| |].
  - unfold glue. simpl. apply prepend_prepend.
  - reflexivity.
Qed.

Lemma glue_cons (x : str) (l1 l2 : list str) :
  l1 <> [] -> glue (x :: l1) l2 = x :: glue l1 l2.
Proof. destruct l1; [congruence|reflexivity]. Qed.

(** The current piece only adds to the front of the first piece. *)
Lemma split_from_cur (sep s : str) :
  forall k cur,
    split_from sep k cur s = prepend (rev cur) (split_from sep k [] s).
Proof.
  induction s as [|c s IH]; intros k cur.
  - simpl. now rewrite app_nil_r.
  - destruct k as [|k]; [|apply IH].
    cbn [split_from].
    destruct (nonempty sep && startswith sep (c :: s)).
    + simpl. now rewrite app_nil_r.
    + rewrite (IH 0 (c :: cur)), (IH 0 [c]), prepend_prepend.
      reflexivity.
Qed.

Lemma split_from_nonempty (sep s : str) :
  forall k cur, split_from sep k cur s <> [].
Proof.
  induction s as [|c s IH]; intros k cur; [discriminate|].
  destruct k as [|k]; [|apply IH].
  cbn [split_from].
  destruct (nonempty sep && startswith sep (c :: s));
    [discriminate|apply IH].
Qed.

Lemma split_nonempty (sep s : str) : split sep s <> [].
Proof. apply split_from_nonempty. Qed.

Lemma split_absent (sep s : str) : ~ occurs sep s -> split sep s = [s].
Proof.
  unfold split. induction s as [|c s IH]; intros H; [reflexivity|].
  cbn [split_from].
  destruct (startswith sep (c :: s)) eqn:E.
  - exfalso. apply H. now apply startswith_occurs.
  - rewrite andb_false_r, split_from_cur, IH; [reflexivity|].
    intros Ho. apply H. now apply occurs_cons.
Qed.

(** *** One-character separators: the lines of a block *)

Lemma split_char_hit (c : char) (s : str) :
  split [c] (c :: s) = [] :: split [c] s.
Proof.
  unfold split. cbn [split_from nonempty startswith andb].
  now rewrite N.eqb_refl.
Qed.

Lemma split_char_miss (c x : char) (s : str) :
  x <> c -> split [c] (x :: s) = prepend [x] (split [c] s).
Proof.
  intros H. unfold split. cbn [split_from nonempty startswith andb].
  destruct (N.eqb_spec c x); [congruence|].
  cbn [andb]. apply split_from_cur.
Qed.

Lemma split_char_app (c : char) (a b : str) :
  split [c] (a ++ c :: b) = split [c] a ++ split [c] b.
Proof.
  induction a as [|x a IH]; [apply split_char_hit|].
  cbn [app]. destruct (N.eq_dec x c) as [->|Hx].
  - now rewrite !split_char_hit, IH.
  - rewrite !split_char_miss, IH by exact Hx.
    apply prepend_app, split_nonempty.
Qed.

Lemma split_char_fresh (c : char) (s : str) :
  ~ In c s -> split [c] s = [s].
Proof.
  intros H. apply split_absent. intros Ho. apply H.
  eapply occurs_In; [|exact Ho]. now left.
Qed.

(** *** The separator of blocks *)

(** An occurrence of the separator never begins in [a] and ends in [b]
    unless [a] ends with a line feed and [b] begins with one; short of
    that, splitting [a ++ b] is splitting both and gluing. *)
Lemma split_blocks_from (a b : str) :
  ~ ((exists a0, a = a0 ++ [LF]) /\ exists b0, b = LF :: b0) ->
  forall k,
    k <= length a ->
    split_from [LF; LF] k [] (a ++ b)
    = glue (split_from [LF; LF] k [] a) (split [LF; LF] b).
Proof.
  induction a as [|c a IH]; intros Hedge k Hk.
  - simpl in Hk. assert (k = 0) by lia; subst k.
    unfold glue. simpl. symmetry. apply prepend_nil, split_nonempty.
  - assert (Hedge' : ~ ((exists a0, a = a0 ++ [LF])
                        /\ exists b0, b = LF :: b0)).
    { intros [(a0 & ->) Hb]. apply Hedge. split; [|exact Hb].
      now exists (c :: a0). }
    destruct k as [|k]; [|apply (IH Hedge'); simpl in Hk; lia].
    cbn [app split_from nonempty andb].
    destruct (startswith [LF; LF] (c :: a)) eqn:Ea.
    + cbn [startswith] in Ea.
      apply andb_true_iff in Ea as [E1 E2].
      apply N.eqb_eq in E1; subst c.
      destruct a as [|d a]; [discriminate|].
      apply andb_true_iff in E2 as [E2 _].
      apply N.eqb_eq in E2; subst d.
      cbn [app startswith]. rewrite !N.eqb_refl. cbn [andb].
      change (length [LF; LF] - 1) with 1.
      change (LF :: a ++ b) with ((LF :: a) ++ b).
      rewrite (IH Hedge' 1) by (simpl; lia).
      symmetry. apply glue_cons, split_from_nonempty.
    + assert (Eab : startswith [LF; LF] (c :: a ++ b) = false).
      { cbn [startswith] in *. destruct (LF =? c)%N eqn:Ec;
          [|reflexivity].
        apply N.eqb_eq in Ec; subst c.
        destruct a as [|d a]; [|exact Ea].
        cbn [app andb]. destruct b as [|d b]; [reflexivity|].
        destruct (N.eqb_spec LF d); [subst d|reflexivity].
        exfalso. apply Hedge. split; [now exists []|now exists b]. }
      rewrite Eab.
      rewrite (split_from_cur _ (a ++ b)), (split_from_cur _ a).
      rewrite (IH Hedge' 0) by lia.
      apply prepend_glue, split_from_nonempty.
Qed.

Lemma split_blocks_app (a b : str) :
  ~ ((exists a0, a = a0 ++ [LF]) /\ exists b0, b = LF :: b0) ->
  split [LF; LF] (a ++ b) = glue (split [LF; LF] a) (split [LF; LF] b).
Proof. intros H. apply split_blocks_from; [exact H|lia]. Qed.

(** A line that is not empty and holds no line feed, with the line feeds
    around it, contains no separator. *)
Lemma line_tail_no_pair (ws : str) :
  ~ In LF ws ->
  forall x y, ws ++ [LF] <> x ++ LF :: LF :: y.
Proof.
  induction ws as [|w ws IH]; intros H x y E.
  - destruct x as [|c [|d x]]; discriminate.
  - destruct x as [|c x]; simpl in E.
    + injection E as -> _. apply H. now left.
    + injection E as _ E. apply (IH (fun Hin => H (or_intror Hin)) _ _ E).
Qed.

Lemma line_no_separator (ws : str) :
  ws <> [] -> ~ In LF ws -> ~ occurs [LF; LF] (LF :: ws ++ [LF]).
Proof.
  intros Hne H (x & y & E). destruct x as [|c x]; simpl in E.
  - destruct ws as [|w ws]; [congruence|]. simpl in E.
    injection E as ->. apply H. now left.
  - injection E as _ E. exact (@line_tail_no_pair ws H _ _ E).
Qed.

Lemma split_blocks_around_line (a ws b : str) :
  ws <> [] -> ~ In LF ws ->
  ~ (exists a0, a = a0 ++ [LF]) -> ~ (exists b0, b = LF :: b0) ->
  split [LF; LF] (a ++ LF :: ws ++ LF :: b)
  = removelast (split [LF; LF] a)
    ++ (last (split [LF; LF] a) [] ++ LF :: ws ++ LF :: hd [] (split [LF; LF] b))
       :: tl (split [LF; LF] b).
Proof.
  intros Hne Hws Ha Hb.
  rewrite split_blocks_app by (intros [H _]; auto).
  replace (LF :: ws ++ LF :: b) with ((LF :: ws ++ [LF]) ++ b)
    by (simpl; now rewrite <- app_assoc).
  rewrite (@split_blocks_app (LF :: ws ++ [LF]) b)
    by (intros [_ H]; auto).
  rewrite (@split_absent [LF; LF] _ (@line_no_separator ws Hne Hws)).
  unfold glue at 2. cbn [removelast last app].
  unfold glue. f_equal.
  pose proof (split_nonempty [LF; LF] b) as Hn.
  destruct (split [LF; LF] b) as [|h t]; [congruence|].
  simpl. now rewrite <- !app_assoc.
Qed.

End SplitFacts.

(** ** Claims *)

(** C1.  The document made of one time line and one text line, with no
    index line, has two lines only; the three-line gate rejects it and
    [parse_srt] returns the empty list instead of the entry with text
    "Hi there". *)
Theorem missing_index_single_text_line :
  parse_srt (py (ts1 ++ nl ++ "Hi there")%string) = Ret []
  /\ length (block_lines (py (ts1 ++ nl ++ "Hi there")%string)) = 2
  /\ text_lines_of (py (ts1 ++ nl ++ "Hi there")%string)
     = [py "Hi there"].
Proof. vm_compute. auto. Qed.

(** C2.  [parse_srt] returns a list on every input and never raises; each
    pass through the loop body leaves the list as it is or appends one
    entry, so a block that cannot be parsed is skipped on the spot. *)
Theorem parse_srt_never_raises :
  (forall srt_content, exists l, parse_srt srt_content = Ret l)
  /\ (forall block parsed_subs,
        process_block block parsed_subs = Ret parsed_subs
        \/ exists e,
             process_block block parsed_subs = Ret (parsed_subs ++ [e])).
Proof.
  split.
  - intros s. rewrite parse_srt_flat_map. eauto.
  - intros block acc.
    destruct (BlockFacts.process_block_total block) as (l & Hl & H).
    rewrite H. destruct l as [|e [|e' l]]; simpl in Hl; try lia.
    + left. now rewrite app_nil_r.
    + right. now exists e.
Qed.

(** C3.  In every entry that [parse_srt] returns, [start] and [end] have
    the form of two digits, colon, two digits, colon, two digits, comma,
    three digits, and contain no period. *)
Theorem timestamps_use_comma (srt_content : str) :
  exists l,
    parse_srt srt_content = Ret l
    /\ Forall (fun e =>
                 clock_value comma_only (start e)
                 /\ clock_value comma_only (end_ e)
                 /\ ~ In DOT (start e) /\ ~ In DOT (end_ e)) l.
Proof.
  rewrite parse_srt_flat_map. eexists. split; [reflexivity|].
  apply Forall_forall. intros e He.
  apply in_flat_map in He as (block & _ & He).
  destruct (BlockFacts.entries_of_inv _ _ He)
    as (m & t1 & t2 & _ & _ & _ & Ht1 & Ht2 & _ & -> & -> & _).
  destruct (ClockFacts.comma_clock Ht1), (ClockFacts.comma_clock Ht2).
  auto.
Qed.

(** C4.  Every entry that [parse_srt] returns has a non-empty text; a
    block whose text lines clean to the empty string contributes no entry,
    as the block whose only text line is the pair of tags [<i></i>]. *)
Theorem emitted_text_nonempty (srt_content block : str) :
  (exists l,
     parse_srt srt_content = Ret l
     /\ Forall (fun e => Str.nonempty (text e) = true) l)
  /\ (clean (text_lines_of block) = [] -> entries_of block = [])
  /\ parse_srt (py ("1" ++ nl ++ ts1 ++ nl ++ "<i></i>")%string) = Ret [].
Proof.
  split; [|split].
  - rewrite parse_srt_flat_map. eexists. split; [reflexivity|].
    apply Forall_forall. intros e He.
    apply in_flat_map in He as (b & _ & He).
    destruct (BlockFacts.entries_of_inv _ _ He)
      as (m & t1 & t2 & _ & _ & _ & _ & _ & _ & _ & _ & _ & Hne & _).
    destruct (text e); [congruence|reflexivity].
  - intros Hc. destruct (entries_of block) as [|e l] eqn:E; [reflexivity|].
    assert (He : In e (entries_of block)) by (rewrite E; now left).
    destruct (BlockFacts.entries_of_inv _ _ He)
      as (m & t1 & t2 & _ & _ & _ & _ & _ & _ & _ & _ & Ht & Hne & _).
    unfold text_lines_of, block_lines in Hc. congruence.
  - vm_compute. reflexivity.
Qed.

Lemma emitted_text_nonempty_witness :
  clean (text_lines_of (py ("1" ++ nl ++ ts1 ++ nl ++ "<i> </i>")%string)) = []
  /\ entries_of (py ("1" ++ nl ++ ts1 ++ nl ++ "<i> </i>")%string) = [].
Proof.
  split.
  - vm_compute. reflexivity.
  - apply (emitted_text_nonempty [] (py ("1" ++ nl ++ ts1 ++ nl ++ "<i> </i>")%string)).
    vm_compute. reflexivity.
Defined.

(** C5.  Parsing a document and parsing the document with every CRLF and
    CR rewritten to LF give the same result; the rewriting is idempotent,
    it is what the two replacements of the parser compute, and it leaves
    no CR; the same lines joined by CRLF, by CR or by LF parse to the same
    result. *)
Theorem line_endings_irrelevant (D : str) (lines : list str) :
  Forall (fun l => ~ In CR l) lines ->
  Forall (fun l => ~ In LF l) lines ->
  parse_srt (rewrite_line_endings D) = parse_srt D
  /\ rewrite_line_endings (rewrite_line_endings D) = rewrite_line_endings D
  /\ normalize_line_endings D = rewrite_line_endings D
  /\ normalize_line_endings (normalize_line_endings D)
     = normalize_line_endings D
  /\ ~ In CR (normalize_line_endings D)
  /\ parse_srt (Str.join [CR; LF] lines) = parse_srt (Str.join [LF] lines)
  /\ parse_srt (Str.join [CR] lines) = parse_srt (Str.join [LF] lines).
Proof.
  intros HCR HLF. repeat split.
  - rewrite <- normalize_rewrite.
    apply parse_srt_normalized, normalize_idempotent.
  - rewrite <- !normalize_rewrite. apply normalize_idempotent.
  - apply normalize_rewrite.
  - apply normalize_idempotent.
  - apply normalize_no_CR.
  - apply parse_srt_normalized.
    rewrite JoinFacts.normalize_join_CRLF, JoinFacts.normalize_join_LF;
      auto.
  - apply parse_srt_normalized.
    rewrite JoinFacts.normalize_join_CR, JoinFacts.normalize_join_LF;
      auto.
Qed.

Lemma line_endings_irrelevant_witness :
  parse_srt (Str.join [CR; LF] [py "1"; py ts1; py "Hello"])
  = parse_srt (Str.join [LF] [py "1"; py ts1; py "Hello"])
  /\ parse_srt (Str.join [CR] [py "1"; py ts1; py "Hello"])
     = Ret [Subtitle (py "00:00:01,000") (py "00:00:02,000") (py "Hello")].
Proof.
  assert (HCR : Forall (fun l => ~ In CR l) [py "1"; py ts1; py "Hello"]).
  { repeat constructor; intros H; vm_compute in H; intuition discriminate. }
  assert (HLF : Forall (fun l => ~ In LF l) [py "1"; py ts1; py "Hello"]).
  { repeat constructor; intros H; vm_compute in H; intuition discriminate. }
  destruct (line_endings_irrelevant
              (py "1") (lines := [py "1"; py ts1; py "Hello"]) HCR HLF)
    as (_ & _ & _ & _ & _ & H1 & H2).
  split; [exact H1|]. rewrite H2. vm_compute. reflexivity.
Defined.

(** C7 (as amended).  The cleanup removes "- " wherever it stands in the
    text that is left once the tags are removed and the ends trimmed, not
    only at the start of a line: when that text has "- " between [a] and
    [b], the text of the entry is the removal from [a] followed by the
    removal from [b], trimmed.  The sole text line "- Hello- there" gives
    the text "Hellothere". *)
Theorem dash_space_removed_everywhere (block : str) (e : subtitle)
        (a b : str) :
  In e (entries_of block) ->
  Str.strip (Re.sub tag_pattern [] (Str.join [SP] (text_lines_of block)))
  = a ++ [DASH; SP] ++ b ->
  text e
  = Str.strip (Str.replace [DASH; SP] [] a ++ Str.replace [DASH; SP] [] b)
  /\ parse_srt (py ("1" ++ nl ++ ts1 ++ nl ++ "- Hello- there")%string)
     = Ret [Subtitle (py "00:00:01,000") (py "00:00:02,000")
                     (py "Hellothere")].
Proof.
  intros He Hab. split; [|vm_compute; reflexivity].
  destruct (BlockFacts.entries_of_inv _ _ He)
    as (m & t1 & t2 & _ & _ & _ & _ & _ & _ & _ & _ & Htext & _).
  rewrite Htext. unfold clean. fold (block_lines block).
  fold (text_lines_of block). rewrite Hab.
  now rewrite JoinFacts.remove_dash_app.
Qed.

Lemma dash_space_removed_everywhere_witness :
  text (Subtitle (py "00:00:01,000") (py "00:00:02,000") (py "wellknown"))
  = Str.strip (Str.replace [DASH; SP] [] (py "well")
               ++ Str.replace [DASH; SP] [] (py "- known")).
Proof.
  refine (proj1 (@dash_space_removed_everywhere
                   (py ("1" ++ nl ++ ts1 ++ nl ++ " <b>well- - known</b>")%string)
                   _ (py "well") (py "- known") _ _)).
  - vm_compute. auto.
  - vm_compute. reflexivity.
Defined.

(** C7 (as stated) fails.  In the first block the joined text "a- <b>"
    contains "- ", but the trimming that follows the removal of the tag
    takes the space away before the replacement runs, and the dash stays
    in the text.  In the second block the replacement removes the "- " of
    "a--  b" and the characters around it close up to a new "- ", which
    stays: the replacement is a single pass. *)
Lemma dash_space_not_always_removed :
  (text_lines_of (py ("1" ++ nl ++ ts1 ++ nl ++ "a- <b>")%string)
   = [py "a" ++ [DASH; SP] ++ py "<b>"]
   /\ entries_of (py ("1" ++ nl ++ ts1 ++ nl ++ "a- <b>")%string)
      = [Subtitle (py "00:00:01,000") (py "00:00:02,000") (py "a-")])
  /\ (text_lines_of (py ("1" ++ nl ++ ts1 ++ nl ++ "a--  b")%string)
      = [py "a-" ++ [DASH; SP] ++ py " b"]
      /\ entries_of (py ("1" ++ nl ++ ts1 ++ nl ++ "a--  b")%string)
         = [Subtitle (py "00:00:01,000") (py "00:00:02,000")
                     (py "a" ++ [DASH; SP] ++ py "b")]).
Proof. vm_compute. repeat split; reflexivity. Qed.

(** C9.  The entries come out in the order of the blocks they were made
    from: of two entries of the result, the earlier one is the entry of an
    earlier block.  Nothing is sorted by time: three blocks whose times
    run 5 s, 1 s, 3 s give their entries in that order. *)
Theorem entries_in_block_order (srt_content : str) (l : list subtitle)
        (i j : nat) (e1 e2 : subtitle) :
  parse_srt srt_content = Ret l ->
  i < j -> nth_error l i = Some e1 -> nth_error l j = Some e2 ->
  let blocks := split_blocks (normalize_line_endings srt_content) in
  l = flat_map entries_of blocks
  /\ (exists bi bj b1 b2,
        bi < bj
        /\ nth_error blocks bi = Some b1 /\ nth_error blocks bj = Some b2
        /\ entries_of b1 = [e1] /\ entries_of b2 = [e2])
  /\ parse_srt
       (py ("1" ++ nl ++ ts2 ++ nl ++ "five" ++ nl ++ nl ++
            "2" ++ nl ++ ts1 ++ nl ++ "one" ++ nl ++ nl ++
            "3" ++ nl ++ ts3 ++ nl ++ "three")%string)
     = Ret [Subtitle (py "00:00:05,000") (py "00:00:07,000") (py "five");
            Subtitle (py "00:00:01,000") (py "00:00:02,000") (py "one");
            Subtitle (py "00:00:03,500") (py "00:00:04,000") (py "three")].
Proof.
  intros Hp Hij H1 H2 blocks.
  rewrite parse_srt_flat_map in Hp. injection Hp as <-.
  split; [reflexivity|]. split; [|vm_compute; reflexivity].
  eapply OrderFacts.flat_map_order; eauto.
  apply BlockFacts.entries_of_length.
Qed.

Lemma entries_in_block_order_witness :
  exists bi bj b1 b2,
    bi < bj
    /\ nth_error
         (split_blocks
            (normalize_line_endings
               (py ("1" ++ nl ++ ts2 ++ nl ++ "five" ++ nl ++ nl ++
                    "junk" ++ nl ++ nl ++
                    "3" ++ nl ++ ts3 ++ nl ++ "three")%string))) bi
       = Some b1
    /\ nth_error
         (split_blocks
            (normalize_line_endings
               (py ("1" ++ nl ++ ts2 ++ nl ++ "five" ++ nl ++ nl ++
                    "junk" ++ nl ++ nl ++
                    "3" ++ nl ++ ts3 ++ nl ++ "three")%string))) bj
       = Some b2
    /\ entries_of b1
       = [Subtitle (py "00:00:05,000") (py "00:00:07,000") (py "five")]
    /\ entries_of b2
       = [Subtitle (py "00:00:03,500") (py "00:00:04,000") (py "three")].
Proof.
  refine (proj1 (proj2
    (@entries_in_block_order
       (py ("1" ++ nl ++ ts2 ++ nl ++ "five" ++ nl ++ nl ++
            "junk" ++ nl ++ nl ++
            "3" ++ nl ++ ts3 ++ nl ++ "three")%string)
       [Subtitle (py "00:00:05,000") (py "00:00:07,000") (py "five");
        Subtitle (py "00:00:03,500") (py "00:00:04,000") (py "three")]
       0 1 _ _ _ _ _ _))).
  - vm_compute. reflexivity.
  - lia.
  - reflexivity.
  - reflexivity.
Defined.

(** C6.  In a block of at least three lines the loop takes the first
    line, in order, that contains a time range: the lines after it are the
    text lines of the block, the lines before it play no part in the
    entry, and the entry is built from the two clock values of that line.
    When no line contains a time range the block gives no entry. *)
Theorem first_timestamp_line_chosen (block : str) :
  let lines := block_lines block in
  3 <= length lines ->
  (forall before line after,
      lines = before ++ line :: after ->
      Forall (fun l => ~ timestamp_line l) before ->
      timestamp_line line ->
      exists m t1 t2,
        Re.search time_pattern line = Some m
        /\ Re.m_groups m = [(2, t2); (1, t1)]
        /\ scan_lines lines 0 lines = (Some m, after)
        /\ text_lines_of block = after
        /\ entries_of block = entry_of t1 t2 after)
  /\ (Forall (fun l => ~ timestamp_line l) lines ->
      scan_lines lines 0 lines = (None, [])
      /\ entries_of block = []).
Proof.
  intros lines Hlen. split.
  - intros before line after Hl Hb Hline.
    apply PatternFacts.search_time_iff in Hline as (m & Hm).
    destruct (PatternFacts.search_time_groups _ Hm)
      as (t1 & t2 & Hg & _ & _).
    assert (Hb' : Forall (fun l => Re.search time_pattern l = None) before).
    { eapply Forall_impl; [|exact Hb].
      intros l. apply PatternFacts.search_time_none. }
    assert (Hscan : scan_lines lines 0 lines = (Some m, after)).
    { rewrite Hl.
      exact (@BlockFacts.scan_lines_found [] before after line m Hb' Hm). }
    exists m, t1, t2. repeat split; auto.
    + unfold text_lines_of. fold lines. now rewrite Hscan.
    + now apply BlockFacts.entries_of_found with (m := m).
  - intros Hnone.
    assert (Hscan : scan_lines lines 0 lines = (None, [])).
    { apply BlockFacts.scan_lines_missing.
      eapply Forall_impl; [|exact Hnone].
      intros l. apply PatternFacts.search_time_none. }
    split; [exact Hscan|]. unfold entries_of.
    now rewrite BlockFacts.process_block_missing.
Qed.

Lemma first_timestamp_line_chosen_witness :
  (exists m t1 t2,
     Re.search time_pattern (py ts3) = Some m
     /\ Re.m_groups m = [(2, t2); (1, t1)]
     /\ scan_lines
          (block_lines (py ("7" ++ nl ++ "x" ++ nl ++ ts3 ++ nl
                            ++ "Hello" ++ nl ++ "World")%string)) 0
          (block_lines (py ("7" ++ nl ++ "x" ++ nl ++ ts3 ++ nl
                            ++ "Hello" ++ nl ++ "World")%string))
        = (Some m, [py "Hello"; py "World"])
     /\ text_lines_of (py ("7" ++ nl ++ "x" ++ nl ++ ts3 ++ nl
                           ++ "Hello" ++ nl ++ "World")%string)
        = [py "Hello"; py "World"]
     /\ entries_of (py ("7" ++ nl ++ "x" ++ nl ++ ts3 ++ nl
                        ++ "Hello" ++ nl ++ "World")%string)
        = entry_of t1 t2 [py "Hello"; py "World"])
  /\ entries_of (py ("a" ++ nl ++ "b" ++ nl ++ "c")%string) = [].
Proof.
  assert (Hno : forall l, Re.search time_pattern l = None ->
                          ~ timestamp_line l)
    by (intros l; apply PatternFacts.search_time_none).
  split.
  - refine (proj1 (first_timestamp_line_chosen
                     (py ("7" ++ nl ++ "x" ++ nl ++ ts3 ++ nl
                          ++ "Hello" ++ nl ++ "World")%string) _)
                  [py "7"; py "x"] (py ts3) [py "Hello"; py "World"] _ _ _).
    + vm_compute. lia.
    + vm_compute. reflexivity.
    + repeat constructor; apply Hno; vm_compute; reflexivity.
    + apply PatternFacts.search_time_iff. eexists. vm_compute. reflexivity.
  - refine (proj2 (proj2 (first_timestamp_line_chosen
                     (py ("a" ++ nl ++ "b" ++ nl ++ "c")%string) _) _)).
    + vm_compute. lia.
    + repeat constructor; apply Hno; vm_compute; reflexivity.
Defined.

(** C8 (as amended).  When the text lines of a block, joined by single
    spaces, contain no tag and no "- ", the text of the entry is that
    joined text with the white space at its two ends trimmed. *)
Theorem cleanup_identity_up_to_trim (block : str) (e : subtitle) :
  In e (entries_of block) ->
  ~ has_tag (Str.join [SP] (text_lines_of block)) ->
  ~ occurs [DASH; SP] (Str.join [SP] (text_lines_of block)) ->
  text e = Str.strip (Str.join [SP] (text_lines_of block)).
Proof.
  intros He Ht Hd.
  destruct (BlockFacts.entries_of_inv _ _ He)
    as (m & t1 & t2 & _ & _ & _ & _ & _ & _ & _ & _ & Htext & _).
  rewrite Htext. now apply CleanFacts.clean_plain.
Qed.

Lemma cleanup_identity_up_to_trim_witness :
  text (Subtitle (py "00:00:01,000") (py "00:00:02,000") (py "Hi  there"))
  = Str.strip
      (Str.join [SP]
         (text_lines_of
            (py ("1" ++ nl ++ ts1 ++ nl ++ "  Hi " ++ nl ++ "there")%string))).
Proof.
  apply cleanup_identity_up_to_trim.
  - vm_compute. auto.
  - intros H. apply CleanFacts.has_tag_In in H.
    vm_compute in H. intuition discriminate.
  - intros H. apply (@StrFacts.occurs_In _ _ DASH) in H; [|now left].
    vm_compute in H. intuition discriminate.
Defined.

(** C8 (as stated) fails.  The text lines of the first block contain no
    tag and no "- ", yet the text of its entry is not the text line: the
    leading spaces are trimmed.  In the second block no text line contains
    "- ", but joining the lines creates one, and it is removed. *)
Lemma cleanup_not_identity :
  (text_lines_of (py ("1" ++ nl ++ ts1 ++ nl ++ "  Hi")%string)
   = [py "  Hi"]
   /\ Forall (fun l => ~ has_tag l /\ ~ occurs [DASH; SP] l) [py "  Hi"]
   /\ entries_of (py ("1" ++ nl ++ ts1 ++ nl ++ "  Hi")%string)
      = [Subtitle (py "00:00:01,000") (py "00:00:02,000") (py "Hi")]
   /\ py "Hi" <> Str.join [SP] [py "  Hi"])
  /\ (text_lines_of
        (py ("1" ++ nl ++ ts1 ++ nl ++ "Hello-" ++ nl ++ "there")%string)
      = [py "Hello-"; py "there"]
      /\ Forall (fun l => ~ has_tag l /\ ~ occurs [DASH; SP] l)
                [py "Hello-"; py "there"]
      /\ entries_of
           (py ("1" ++ nl ++ ts1 ++ nl ++ "Hello-" ++ nl ++ "there")%string)
         = [Subtitle (py "00:00:01,000") (py "00:00:02,000")
                     (py "Hellothere")]
      /\ py "Hellothere" <> Str.join [SP] [py "Hello-"; py "there"]).
Proof.
  assert (Hplain : forall l, ~ In LT l -> ~ In SP l \/ ~ In DASH l ->
                             ~ has_tag l /\ ~ occurs [DASH; SP] l).
  { intros l Hlt Hd. split.
    - intros H. now apply CleanFacts.has_tag_In in H.
    - intros H. destruct Hd as [Hd|Hd]; apply Hd.
      + apply (@StrFacts.occurs_In [DASH; SP] l SP); [right; now left|auto].
      + apply (@StrFacts.occurs_In [DASH; SP] l DASH); [now left|auto]. }
  split; (split; [vm_compute; reflexivity|]);
    (split; [|split; [vm_compute; reflexivity|vm_compute; discriminate]]).
  - constructor; [|constructor]. apply Hplain;
      [|right]; intros H; vm_compute in H; intuition discriminate.
  - constructor; [|constructor; [|constructor]]; apply Hplain;
      [|left| |right]; intros H; vm_compute in H; intuition discriminate.
Qed.

(** C10 (as amended).  A line of spaces and tabs, at least one, between
    a line and a line that are not empty, is not a separator of blocks.
    In a document that, with its line endings rewritten and trimmed, is
    [a], the line and [b], [split_blocks] gives the blocks of [a] and the
    blocks of [b] with one block in place of the last of [a] and the
    first of [b]: the two with the line between them; and [parse_srt]
    returns the entries of these blocks.  In a block that, trimmed, has
    the line inside, the line is a line of its own, the block has at
    least three lines, and when the time line comes before it the line is
    one of the text lines that are joined. *)
Theorem whitespace_line_inside_block (a ws b : str) :
  ws <> [] ->
  forallb (fun c => (c =? SP)%N || (c =? TAB)%N) ws = true ->
  (~ (exists a0, a = a0 ++ [LF]) -> ~ (exists b0, b = LF :: b0) ->
   Str.split [LF; LF] (a ++ LF :: ws ++ LF :: b)
   = removelast (Str.split [LF; LF] a)
     ++ (last (Str.split [LF; LF] a) []
         ++ LF :: ws ++ LF :: hd [] (Str.split [LF; LF] b))
        :: tl (Str.split [LF; LF] b)
   /\ forall srt_content,
        Str.strip (normalize_line_endings srt_content)
        = a ++ LF :: ws ++ LF :: b ->
        split_blocks (normalize_line_endings srt_content)
        = removelast (Str.split [LF; LF] a)
          ++ (last (Str.split [LF; LF] a) []
              ++ LF :: ws ++ LF :: hd [] (Str.split [LF; LF] b))
             :: tl (Str.split [LF; LF] b)
        /\ parse_srt srt_content
           = Ret (flat_map entries_of (removelast (Str.split [LF; LF] a))
                  ++ entries_of
                       (last (Str.split [LF; LF] a) []
                        ++ LF :: ws ++ LF :: hd [] (Str.split [LF; LF] b))
                  ++ flat_map entries_of (tl (Str.split [LF; LF] b))))
  /\ (forall block p q,
        Str.strip block = p ++ LF :: ws ++ LF :: q ->
        block_lines block = Str.split [LF] p ++ ws :: Str.split [LF] q
        /\ 3 <= length (block_lines block)
        /\ forall m after,
            scan_lines (Str.split [LF] p) 0 (Str.split [LF] p)
            = (Some m, after) ->
            text_lines_of block = after ++ ws :: Str.split [LF] q
            /\ exists t1 t2,
                 Re.m_groups m = [(2, t2); (1, t1)]
                 /\ entries_of block
                    = entry_of t1 t2 (after ++ ws :: Str.split [LF] q)).
Proof.
  intros Hne Hws.
  assert (HLF : ~ In LF ws).
  { intros Hin. rewrite forallb_forall in Hws.
    specialize (Hws _ Hin). discriminate. }
  split.
  - intros Ha Hb.
    pose proof (@SplitFacts.split_blocks_around_line a ws b Hne HLF Ha Hb)
      as Hsplit.
    split; [exact Hsplit|].
    intros srt_content Hdoc.
    assert (Hblocks : split_blocks (normalize_line_endings srt_content)
                      = removelast (Str.split [LF; LF] a)
                        ++ (last (Str.split [LF; LF] a) []
                            ++ LF :: ws
                            ++ LF :: hd [] (Str.split [LF; LF] b))
                           :: tl (Str.split [LF; LF] b)).
    { unfold split_blocks. now rewrite Hdoc. }
    split; [exact Hblocks|].
    rewrite parse_srt_flat_map, Hblocks, flat_map_app.
    cbn [flat_map]. reflexivity.
  - intros block p q Hblock.
    assert (Hlines : block_lines block
                     = Str.split [LF] p ++ ws :: Str.split [LF] q).
    { unfold block_lines. rewrite Hblock.
      rewrite SplitFacts.split_char_app.
      rewrite SplitFacts.split_char_app.
      now rewrite (@SplitFacts.split_char_fresh LF ws HLF). }
    assert (Hlen : 3 <= length (block_lines block)).
    { rewrite Hlines, length_app. simpl.
      pose proof (@SplitFacts.split_nonempty [LF] p).
      pose proof (@SplitFacts.split_nonempty [LF] q).
      destruct (Str.split [LF] p), (Str.split [LF] q);
        simpl; try congruence; lia. }
    split; [exact Hlines|]. split; [exact Hlen|].
    intros m after Hscan.
    destruct (@BlockFacts.scan_lines_app _ (ws :: Str.split [LF] q) _ _ Hscan)
      as (Hscan' & line & _ & Hm).
    rewrite <- Hlines in Hscan'.
    split; [unfold text_lines_of; now rewrite Hscan'|].
    destruct (PatternFacts.search_time_groups _ Hm)
      as (t1 & t2 & Hg & _ & _).
    exists t1, t2. split; [exact Hg|].
    now apply BlockFacts.entries_of_found with (m := m).
Qed.

(** A document with CRLF line endings and a line of a space and a tab
    between [Hello] and [World]: two blocks, and the line joined into the
    text of the first entry. *)
Lemma whitespace_line_inside_block_witness :
  split_blocks
    (normalize_line_endings
       ([CR; LF] ++ py "7" ++ [CR; LF] ++ py ts1 ++ [CR; LF]
        ++ py "Hello" ++ [CR; LF; SP; TAB; CR; LF] ++ py "World"
        ++ [CR; LF; CR; LF] ++ py "8" ++ [CR; LF] ++ py ts2
        ++ [CR; LF] ++ py "Yo" ++ [CR; LF]))
  = [py ("7" ++ nl ++ ts1 ++ nl ++ "Hello")%string
     ++ LF :: [SP; TAB] ++ LF :: py "World";
     py ("8" ++ nl ++ ts2 ++ nl ++ "Yo")%string]
  /\ parse_srt
       ([CR; LF] ++ py "7" ++ [CR; LF] ++ py ts1 ++ [CR; LF]
        ++ py "Hello" ++ [CR; LF; SP; TAB; CR; LF] ++ py "World"
        ++ [CR; LF; CR; LF] ++ py "8" ++ [CR; LF] ++ py ts2
        ++ [CR; LF] ++ py "Yo" ++ [CR; LF])
     = Ret [Subtitle (py "00:00:01,000") (py "00:00:02,000")
                     (py "Hello" ++ [SP; SP; TAB; SP] ++ py "World");
            Subtitle (py "00:00:05,000") (py "00:00:07,000") (py "Yo")]
  /\ block_lines
       (py ("7" ++ nl ++ ts1 ++ nl ++ "Hello")%string
        ++ LF :: [SP; TAB] ++ LF :: py "World")
     = [py "7"; py ts1; py "Hello"; [SP; TAB]; py "World"]
  /\ text_lines_of
       (py ("7" ++ nl ++ ts1 ++ nl ++ "Hello")%string
        ++ LF :: [SP; TAB] ++ LF :: py "World")
     = [py "Hello"; [SP; TAB]; py "World"]
  /\ entries_of
       (py ("7" ++ nl ++ ts1 ++ nl ++ "Hello")%string
        ++ LF :: [SP; TAB] ++ LF :: py "World")
     = [Subtitle (py "00:00:01,000") (py "00:00:02,000")
                 (py "Hello" ++ [SP; SP; TAB; SP] ++ py "World")].
Proof.
  assert (Hne : [SP; TAB] <> []) by discriminate.
  assert (Hws : forallb (fun c => (c =? SP)%N || (c =? TAB)%N) [SP; TAB]
                = true) by reflexivity.
  destruct (@whitespace_line_inside_block
              (py ("7" ++ nl ++ ts1 ++ nl ++ "Hello")%string)
              [SP; TAB]
              (py ("World" ++ nl ++ nl ++ "8" ++ nl ++ ts2 ++ nl
                   ++ "Yo")%string)
              Hne Hws) as (Hdoc & Hblock).
  destruct Hdoc as (_ & Hdoc).
  { intros (a0 & E). apply (f_equal (@rev char)) in E.
    rewrite rev_app_distr in E. vm_compute in E. discriminate. }
  { intros (b0 & E). vm_compute in E. discriminate. }
  destruct (Hdoc ([CR; LF] ++ py "7" ++ [CR; LF] ++ py ts1 ++ [CR; LF]
                  ++ py "Hello" ++ [CR; LF; SP; TAB; CR; LF] ++ py "World"
                  ++ [CR; LF; CR; LF] ++ py "8" ++ [CR; LF] ++ py ts2
                  ++ [CR; LF] ++ py "Yo" ++ [CR; LF]))
    as (Hblocks & Hparse).
  { vm_compute. reflexivity. }
  destruct (Hblock (py ("7" ++ nl ++ ts1 ++ nl ++ "Hello")%string
                    ++ LF :: [SP; TAB] ++ LF :: py "World")
                   (py ("7" ++ nl ++ ts1 ++ nl ++ "Hello")%string)
                   (py "World"))
    as (Hlines & _ & Htext).
  { vm_compute. reflexivity. }
  split; [rewrite Hblocks; vm_compute; reflexivity|].
  split; [rewrite Hparse; vm_compute; reflexivity|].
  split; [rewrite Hlines; vm_compute; reflexivity|].
  let r := eval vm_compute in
             (scan_lines
                (Str.split [LF]
                   (py ("7" ++ nl ++ ts1 ++ nl ++ "Hello")%string))
                0
                (Str.split [LF]
                   (py ("7" ++ nl ++ ts1 ++ nl ++ "Hello")%string)))
  in match r with
     | (Some ?m, _) =>
         destruct (Htext m [py "Hello"])
           as (Hafter & t1 & t2 & Hg & Hentry)
     end.
  { vm_compute. reflexivity. }
  split; [exact Hafter|].
  rewrite Hentry. vm_compute in Hg. injection Hg as <- <-.
  vm_compute. reflexivity.
Defined.

(** C10 (as stated) fails for a line of white space at the end of a
    block.  The first block of this document is a time line, a text line
    and a line of a space and a tab.  The line stays in the block, but the
    trimming of the block removes it before the lines are counted: the
    block has two lines, not three, and gives no entry.  With the same
    line between the time line and the text line the block has three
    lines and gives its entry. *)
Lemma whitespace_line_at_block_end :
  split_blocks
    (py (ts1 ++ nl ++ "Hi" ++ nl)%string ++ [SP; TAB; LF; LF]
     ++ py ("2" ++ nl ++ ts2 ++ nl ++ "Yo")%string)
  = [py (ts1 ++ nl ++ "Hi" ++ nl)%string ++ [SP; TAB];
     py ("2" ++ nl ++ ts2 ++ nl ++ "Yo")%string]
  /\ Str.split [LF] (py (ts1 ++ nl ++ "Hi" ++ nl)%string ++ [SP; TAB])
     = [py ts1; py "Hi"; [SP; TAB]]
  /\ block_lines (py (ts1 ++ nl ++ "Hi" ++ nl)%string ++ [SP; TAB])
     = [py ts1; py "Hi"]
  /\ entries_of (py (ts1 ++ nl ++ "Hi" ++ nl)%string ++ [SP; TAB]) = []
  /\ parse_srt
       (py (ts1 ++ nl ++ "Hi" ++ nl)%string ++ [SP; TAB; LF; LF]
        ++ py ("2" ++ nl ++ ts2 ++ nl ++ "Yo")%string)
     = Ret [Subtitle (py "00:00:05,000") (py "00:00:07,000") (py "Yo")]
  /\ entries_of (py (ts1 ++ nl)%string ++ [SP; TAB; LF] ++ py "Hi")
     = [Subtitle (py "00:00:01,000") (py "00:00:02,000") (py "Hi")].
Proof. vm_compute. repeat split; reflexivity. Qed.

(** * Further properties of the parser *)

(** ** White space at the ends *)

Module TrimFacts.
Import Str StrFacts CleanFacts.

Lemma lstrip_spaces (ws s : str) :
  forallb Unicode.isspace ws = true -> lstrip (ws ++ s) = lstrip s.
Proof.
  induction ws as [|c ws IH]; intros H; [reflexivity|].
  simpl in H. apply andb_true_iff in H as [Hc Hws].
  simpl. rewrite Hc. now apply IH.
Qed.

Lemma lstrip_all_spaces (ws : str) :
  forallb Unicode.isspace ws = true -> lstrip ws = [].
Proof.
  intros H. rewrite <- (app_nil_r ws). now rewrite lstrip_spaces.
Qed.

Lemma strip_all_spaces (ws : str) :
  forallb Unicode.isspace ws = true -> strip ws = [].
Proof.
  intros H. unfold strip. now rewrite lstrip_all_spaces.
Qed.

Lemma strip_lead_ok (s : str) : lead_ok (strip s) = true.
Proof. apply rstrip_lead_ok, lstrip_lead_ok. Qed.

Lemma strip_tail_ok (s : str) : lead_ok (rev (strip s)) = true.
Proof.
  unfold strip, rstrip. rewrite rev_involutive. apply lstrip_lead_ok.
Qed.

(** The trimmed string is the only trimmed middle of a string between
    white space. *)
Lemma strip_unique (a t b : str) :
  forallb Unicode.isspace a = true ->
  forallb Unicode.isspace b = true ->
  lead_ok t = true -> lead_ok (rev t) = true ->
  strip (a ++ t ++ b) = t.
Proof.
  intros Ha Hb Ht Hr. unfold strip. rewrite lstrip_spaces by exact Ha.
  destruct t as [|c t].
  - simpl. now rewrite lstrip_all_spaces.
  - assert (Hl : lstrip ((c :: t) ++ b) = (c :: t) ++ b).
    { apply lstrip_fixed. exact Ht. }
    rewrite Hl. unfold rstrip. rewrite rev_app_distr.
    rewrite lstrip_spaces by (now rewrite forallb_rev).
    rewrite lstrip_fixed by exact Hr. apply rev_involutive.
Qed.

Lemma strip_pad (a m b : str) :
  forallb Unicode.isspace a = true ->
  forallb Unicode.isspace b = true ->
  strip (a ++ m ++ b) = strip m.
Proof.
  intros Ha Hb.
  destruct (lstrip_split m) as (a0 & Hm & Ha0).
  destruct (rstrip_split (lstrip m)) as (b0 & Hl & Hb0).
  fold (strip m) in Hl.
  assert (E : a ++ m ++ b = (a ++ a0) ++ strip m ++ (b0 ++ b)).
  { rewrite Hm at 1. rewrite Hl at 1. now rewrite <- !app_assoc. }
  rewrite E. apply strip_unique.
  - now rewrite forallb_app, Ha, Ha0.
  - now rewrite forallb_app, Hb, Hb0.
  - apply strip_lead_ok.
  - apply strip_tail_ok.
Qed.

Lemma In_strip (c : char) (s : str) : In c (strip s) -> In c s.
Proof.
  intros H. destruct (strip_split s) as (a & b & E). rewrite E.
  apply in_or_app; right. apply in_or_app; now left.
Qed.

End TrimFacts.

(** ** What replacing and rewriting can put into a string *)

Module ContentFacts.
Import Str StrFacts.

Lemma In_replace_from (c : char) (old new s : str) :
  forall k, In c (replace_from old new k s) -> In c new \/ In c s.
Proof.
  induction s as [|x s IH]; intros k H; [destruct H|].
  destruct k as [|k].
  - cbn [replace_from] in H.
    destruct (nonempty old && startswith old (x :: s)).
    + apply in_app_or in H as [H|H]; [now left|].
      destruct (IH _ H); [now left|right; now right].
    + destruct H as [->|H]; [right; now left|].
      destruct (IH _ H); [now left|right; now right].
  - cbn [replace_from] in H.
    destruct (IH _ H); [now left|right; now right].
Qed.

Lemma In_replace (c : char) (old new s : str) :
  In c (replace old new s) -> In c new \/ In c s.
Proof. apply In_replace_from. Qed.

Lemma In_normalize (c : char) (s : str) :
  In c (normalize_line_endings s) -> c = LF \/ In c s.
Proof.
  intros H. apply In_replace in H as [[<-|[]]|H]; [now left|].
  apply In_replace in H as [[<-|[]]|H]; [now left|now right].
Qed.

Lemma normalize_spaces (ws : str) :
  forallb Unicode.isspace ws = true ->
  forallb Unicode.isspace (normalize_line_endings ws) = true.
Proof.
  intros H. apply forallb_forall. intros c Hc.
  apply In_normalize in Hc as [->|Hc]; [reflexivity|].
  rewrite forallb_forall in H. now apply H.
Qed.

(** *** The rewriting of line endings, one step at a time *)

Lemma rewrite_CRLF (t : str) :
  rewrite_line_endings (CR :: LF :: t) = LF :: rewrite_line_endings t.
Proof. reflexivity. Qed.

Lemma rewrite_CR_alone : rewrite_line_endings [CR] = [LF].
Proof. reflexivity. Qed.

Lemma rewrite_CR (d : char) (t : str) :
  d <> LF ->
  rewrite_line_endings (CR :: d :: t) = LF :: rewrite_line_endings (d :: t).
Proof.
  intros H. cbn [rewrite_line_endings]. rewrite N.eqb_refl.
  destruct (N.eqb_spec d LF); [congruence|reflexivity].
Qed.

Lemma rewrite_other (c : char) (t : str) :
  c <> CR ->
  rewrite_line_endings (c :: t) = c :: rewrite_line_endings t.
Proof.
  intros H. cbn [rewrite_line_endings].
  destruct (N.eqb_spec c CR); [congruence|reflexivity].
Qed.

Lemma rewrite_spaces (ws : str) :
  forallb Unicode.isspace ws = true ->
  forallb Unicode.isspace (rewrite_line_endings ws) = true.
Proof. rewrite <- normalize_rewrite. apply normalize_spaces. Qed.

(** White space in front of a string only changes the white space in
    front of its rewriting. *)
Lemma rewrite_pad_left (n : nat) :
  forall ws y,
    length ws <= n ->
    forallb Unicode.isspace ws = true ->
    exists a a' m,
      forallb Unicode.isspace a = true
      /\ forallb Unicode.isspace a' = true
      /\ rewrite_line_endings (ws ++ y) = a ++ m
      /\ rewrite_line_endings y = a' ++ m.
Proof.
  induction n as [|n IH]; intros ws y Hn Hws.
  - destruct ws; [|simpl in Hn; lia].
    exists [], [], (rewrite_line_endings y). auto.
  - destruct ws as [|c ws].
    { exists [], [], (rewrite_line_endings y). auto. }
    simpl in Hn, Hws. apply andb_true_iff in Hws as [Hc Hws].
    destruct (N.eq_dec c CR) as [->|Hcr].
    + destruct ws as [|d ws].
      * destruct y as [|d y].
        -- exists [LF], [], []. auto.
        -- destruct (N.eq_dec d LF) as [->|Hd].
           ++ exists [], [], (LF :: rewrite_line_endings y).
              refine (conj eq_refl (conj eq_refl (conj eq_refl _))).
              now rewrite rewrite_other by discriminate.
           ++ exists [LF], [], (rewrite_line_endings (d :: y)).
              refine (conj eq_refl (conj eq_refl (conj _ eq_refl))).
              cbn [app]. now apply rewrite_CR.
      * destruct (N.eq_dec d LF) as [->|Hd].
        -- simpl in Hws.
           destruct (IH ws y) as (a & a' & m & Ha & Ha' & E & E');
             [simpl in Hn; lia|exact Hws|].
           exists (LF :: a), a', m.
           refine (conj _ (conj Ha' (conj _ E'))).
           ++ simpl. exact Ha.
           ++ cbn [app]. rewrite rewrite_CRLF. now rewrite E.
        -- destruct (IH (d :: ws) y) as (a & a' & m & Ha & Ha' & E & E');
             [simpl in *; lia|exact Hws|].
           exists (LF :: a), a', m.
           refine (conj _ (conj Ha' (conj _ E'))).
           ++ simpl. exact Ha.
           ++ cbn [app] in *. rewrite rewrite_CR by exact Hd. now rewrite E.
    + destruct (IH ws y) as (a & a' & m & Ha & Ha' & E & E');
        [lia|exact Hws|].
      exists (c :: a), a', m.
      refine (conj _ (conj Ha' (conj _ E'))).
      * simpl. now rewrite Hc.
      * cbn [app]. rewrite rewrite_other by exact Hcr. now rewrite E.
Qed.

(** White space after a string only changes the white space after its
    rewriting. *)
Lemma rewrite_pad_right (n : nat) :
  forall y ws,
    length y <= n ->
    forallb Unicode.isspace ws = true ->
    exists b b' m,
      forallb Unicode.isspace b = true
      /\ forallb Unicode.isspace b' = true
      /\ rewrite_line_endings (y ++ ws) = m ++ b
      /\ rewrite_line_endings y = m ++ b'.
Proof.
  induction n as [|n IH]; intros y ws Hn Hws.
  - destruct y; [|simpl in Hn; lia].
    exists (rewrite_line_endings ws), [], [].
    refine (conj _ (conj eq_refl (conj eq_refl eq_refl))).
    now apply rewrite_spaces.
  - destruct y as [|c y].
    { exists (rewrite_line_endings ws), [], [].
      refine (conj _ (conj eq_refl (conj eq_refl eq_refl))).
      now apply rewrite_spaces. }
    simpl in Hn.
    destruct (N.eq_dec c CR) as [->|Hcr].
    + destruct y as [|d y].
      * destruct ws as [|d ws].
        -- exists [], [], [LF]. auto.
        -- destruct (N.eq_dec d LF) as [->|Hd].
           ++ exists (LF :: rewrite_line_endings ws), [LF], [].
              simpl in Hws.
              refine (conj _ (conj eq_refl (conj eq_refl eq_refl))).
              simpl. now apply rewrite_spaces.
           ++ exists (rewrite_line_endings (d :: ws)), [], [LF].
              refine (conj _ (conj eq_refl (conj _ eq_refl))).
              ** now apply rewrite_spaces.
              ** cbn [app]. now apply rewrite_CR.
      * destruct (N.eq_dec d LF) as [->|Hd].
        -- destruct (IH y ws) as (b & b' & m & Hb & Hb' & E & E');
             [simpl in Hn; lia|exact Hws|].
           exists b, b', (LF :: m).
           refine (conj Hb (conj Hb' (conj _ _))).
           ++ cbn [app]. rewrite rewrite_CRLF. now rewrite E.
           ++ rewrite rewrite_CRLF. now rewrite E'.
        -- destruct (IH (d :: y) ws) as (b & b' & m & Hb & Hb' & E & E');
             [simpl in *; lia|exact Hws|].
           exists b, b', (LF :: m).
           refine (conj Hb (conj Hb' (conj _ _))).
           ++ cbn [app] in *. rewrite rewrite_CR by exact Hd. now rewrite E.
           ++ rewrite rewrite_CR by exact Hd. now rewrite E'.
    + destruct (IH y ws) as (b & b' & m & Hb & Hb' & E & E');
        [lia|exact Hws|].
      exists b, b', (c :: m).
      refine (conj Hb (conj Hb' (conj _ _))).
      * cbn [app]. rewrite rewrite_other by exact Hcr. now rewrite E.
      * rewrite rewrite_other by exact Hcr. now rewrite E'.
Qed.

(** The trimmed, normalized document does not depend on the white space
    around the document. *)
Lemma strip_normalize_pad (ws1 d ws2 : str) :
  forallb Unicode.isspace ws1 = true ->
  forallb Unicode.isspace ws2 = true ->
  strip (normalize_line_endings (ws1 ++ d ++ ws2))
  = strip (normalize_line_endings d).
Proof.
  intros H1 H2. rewrite !normalize_rewrite.
  destruct (@rewrite_pad_left (length ws1) ws1 (d ++ ws2) (le_n _) H1)
    as (a & a' & m & Ha & Ha' & E & E').
  destruct (@rewrite_pad_right (length d) d ws2 (le_n _) H2)
    as (b & b' & m' & Hb & Hb' & F & F').
  rewrite E.
  rewrite <- (app_nil_r m).
  rewrite (@TrimFacts.strip_pad a m []) by auto.
  rewrite <- (@TrimFacts.strip_pad a' m []) by auto.
  rewrite app_nil_r, <- E', F, F'.
  change (m' ++ b) with ([] ++ m' ++ b).
  change (m' ++ b') with ([] ++ m' ++ b').
  now rewrite !TrimFacts.strip_pad by auto.
Qed.

End ContentFacts.

(** ** Where the characters of an entry come from *)

Module OriginFacts.
Import Str StrFacts Re.

Lemma In_split_from (sep : str) (p : str) (x : char) (s : str) :
  forall k cur,
    In p (split_from sep k cur s) -> In x p -> In x cur \/ In x s.
Proof.
  induction s as [|c s IH]; intros k cur Hp Hx.
  - destruct Hp as [<-|[]]. left. now apply in_rev.
  - destruct k as [|k]; cbn [split_from] in Hp.
    + destruct (nonempty sep && startswith sep (c :: s)).
      * destruct Hp as [<-|Hp]; [left; now apply in_rev|].
        destruct (IH _ _ Hp Hx) as [[]|H]. right; now right.
      * destruct (IH _ _ Hp Hx) as [[<-|H]|H];
          [right; now left|now left|right; now right].
    + destruct (IH _ _ Hp Hx) as [H|H]; [now left|right; now right].
Qed.

Lemma In_split (sep p : str) (x : char) (s : str) :
  In p (split sep s) -> In x p -> In x s.
Proof.
  intros Hp Hx.
  destruct (@In_split_from sep p x s 0 [] Hp Hx) as [[]|H]. exact H.
Qed.

(** The pieces of a split at one character do not contain it. *)
Lemma split_char_piece (c : char) (p s : str) :
  forall cur,
    ~ In c cur -> In p (split_from [c] 0 cur s) -> ~ In c p.
Proof.
  induction s as [|x s IH]; intros cur Hcur Hp.
  - destruct Hp as [<-|[]]. intros H. apply Hcur. now apply in_rev.
  - cbn [split_from nonempty startswith andb length Nat.sub] in Hp.
    destruct (N.eqb_spec c x) as [->|Hx]; cbn [andb] in Hp.
    + destruct Hp as [<-|Hp].
      * intros H. apply Hcur. now apply in_rev.
      * apply (IH []); [intros []|exact Hp].
    + apply (IH (x :: cur)); [|exact Hp].
      intros [H|H]; [congruence|auto].
Qed.

Lemma line_no_LF (block line : str) :
  In line (block_lines block) -> ~ In LF line.
Proof. apply split_char_piece. intros []. Qed.

Lemma In_scan_lines (lines : list str) (l : str) :
  forall rest i, In l (snd (scan_lines lines i rest)) -> In l lines.
Proof.
  induction rest as [|line rest IH]; intros i H; [destruct H|].
  cbn [scan_lines] in H.
  destruct (search time_pattern line).
  - cbn [snd] in H. rewrite <- (firstn_skipn (i + 1) lines).
    apply in_or_app. now right.
  - now apply IH in H.
Qed.

Lemma In_sub_from (c : char) (r : regex) (repl s : str) :
  forall k, In c (sub_from r repl k s) -> In c repl \/ In c s.
Proof.
  induction s as [|x s IH]; intros k H.
  - cbn [sub_from] in H. destruct k; [|destruct H].
    destruct (match_at r 0 []); [now left|destruct H].
  - destruct k as [|k]; cbn [sub_from] in H.
    + destruct (match_at r 0 (x :: s)) as [m|].
      * destruct (length (m_text m)).
        -- apply in_app_or in H as [H|[<-|H]];
             [now left|right; now left|].
           destruct (IH _ H); [now left|right; now right].
        -- apply in_app_or in H as [H|H]; [now left|].
           destruct (IH _ H); [now left|right; now right].
      * destruct H as [<-|H]; [right; now left|].
        destruct (IH _ H); [now left|right; now right].
    + destruct (IH _ H); [now left|right; now right].
Qed.

(** The cleanup only takes characters away. *)
Lemma In_clean (c : char) (text_lines : list str) :
  In c (clean text_lines) -> In c (join [SP] text_lines).
Proof.
  unfold clean. intros H.
  apply TrimFacts.In_strip in H.
  apply ContentFacts.In_replace in H as [[]|H].
  apply TrimFacts.In_strip in H.
  apply In_sub_from in H as [[]|H]. exact H.
Qed.

(** A character of the text of an entry is a joining space or a character
    of a line of the block, and never a line feed. *)
Lemma text_origin (block : str) (e : subtitle) (c : char) :
  In e (entries_of block) -> In c (text e) ->
  c <> LF /\ (c = SP \/ In c block).
Proof.
  intros He Hc.
  destruct (BlockFacts.entries_of_inv _ _ He)
    as (m & t1 & t2 & _ & _ & _ & _ & _ & _ & _ & _ & Htext & _).
  rewrite Htext in Hc. apply In_clean in Hc.
  apply JoinFacts.In_join in Hc as [[<-|[]]|Hc].
  - split; [discriminate|now left].
  - apply Exists_exists in Hc as (l & Hl & Hc).
    apply In_scan_lines in Hl.
    split.
    + intros ->. exact (line_no_LF _ _ Hl Hc).
    + right. apply TrimFacts.In_strip. eapply In_split; eauto.
Qed.

End OriginFacts.

(** ** More about the result *)

(** X1.  A document that is empty or holds white space only gives the
    empty list. *)
Theorem blank_document_gives_nothing (srt_content : str) :
  forallb Unicode.isspace srt_content = true ->
  parse_srt srt_content = Ret [].
Proof.
  intros H. unfold parse_srt, split_blocks.
  rewrite TrimFacts.strip_all_spaces
    by (now apply ContentFacts.normalize_spaces).
  reflexivity.
Qed.

Lemma blank_document_gives_nothing_witness :
  parse_srt [SP; CR; LF; TAB; LF; LF; 160%N; CR] = Ret [].
Proof. apply blank_document_gives_nothing. reflexivity. Defined.

(** X2.  White space before and after the document, of any kind and with
    any line endings, does not change the result. *)
Theorem surrounding_space_ignored (ws1 srt_content ws2 : str) :
  forallb Unicode.isspace ws1 = true ->
  forallb Unicode.isspace ws2 = true ->
  parse_srt (ws1 ++ srt_content ++ ws2) = parse_srt srt_content.
Proof.
  intros H1 H2. unfold parse_srt, split_blocks.
  now rewrite ContentFacts.strip_normalize_pad.
Qed.

Lemma surrounding_space_ignored_witness :
  parse_srt ([CR; LF; SP; CR]
             ++ py ("1" ++ nl ++ ts1 ++ nl ++ "Hello")%string
             ++ [CR; LF; TAB; LF; LF; LF])
  = Ret [Subtitle (py "00:00:01,000") (py "00:00:02,000") (py "Hello")].
Proof.
  rewrite surrounding_space_ignored by reflexivity.
  vm_compute. reflexivity.
Defined.

(** X3.  In every entry that [parse_srt] returns the text neither starts
    nor ends with white space. *)
Theorem emitted_text_trimmed (srt_content : str) :
  exists l,
    parse_srt srt_content = Ret l
    /\ Forall (fun e => lead_ok (text e) = true
                        /\ lead_ok (rev (text e)) = true) l.
Proof.
  rewrite parse_srt_flat_map. eexists. split; [reflexivity|].
  apply Forall_forall. intros e He.
  apply in_flat_map in He as (block & _ & He).
  destruct (BlockFacts.entries_of_inv _ _ He)
    as (m & t1 & t2 & _ & _ & _ & _ & _ & _ & _ & _ & Htext & _).
  rewrite Htext. unfold clean.
  split; [apply TrimFacts.strip_lead_ok|apply TrimFacts.strip_tail_ok].
Qed.

(** X4.  The text of every entry is a single line made of characters of
    the document and of the spaces that join the lines: it contains no
    line feed and no carriage return, and every other character of it
    occurs in the document. *)
Theorem emitted_text_single_line (srt_content : str) :
  exists l,
    parse_srt srt_content = Ret l
    /\ Forall (fun e =>
                 ~ In LF (text e) /\ ~ In CR (text e)
                 /\ Forall (fun c => c = SP \/ In c srt_content) (text e)) l.
Proof.
  rewrite parse_srt_flat_map. eexists. split; [reflexivity|].
  apply Forall_forall. intros e He.
  apply in_flat_map in He as (block & Hb & He).
  assert (Hblock : forall c, In c block ->
                             In c (normalize_line_endings srt_content)).
  { intros c Hc. apply TrimFacts.In_strip.
    eapply OriginFacts.In_split; eauto. }
  assert (Hall : forall c, In c (text e) ->
                           c <> LF /\ c <> CR
                           /\ (c = SP \/ In c srt_content)).
  { intros c Hc.
    destruct (@OriginFacts.text_origin block e c He Hc) as [Hlf [->|Hin]].
    - repeat split; [discriminate|discriminate|now left].
    - split; [exact Hlf|]. apply Hblock in Hin. split.
      + intros ->. exact (@normalize_no_CR srt_content Hin).
      + apply ContentFacts.In_normalize in Hin as [->|Hin];
          [congruence|now right]. }
  split; [|split].
  - intros H. now destruct (Hall _ H) as [? _].
  - intros H. now destruct (Hall _ H) as (_ & ? & _).
  - apply Forall_forall. intros c Hc. now destruct (Hall _ Hc) as (_ & _ & ?).
Qed.

(** ** Documents put together *)

Module ComposeFacts.
Import Str StrFacts.

Lemma split_separator_first (s : str) :
  split [LF; LF] (LF :: LF :: s) = [] :: split [LF; LF] s.
Proof. reflexivity. Qed.

Lemma glue_fresh_piece (l1 l2 : list str) :
  l1 <> [] -> glue l1 ([] :: l2) = l1 ++ l2.
Proof.
  intros H. unfold glue. cbn [prepend]. rewrite app_nil_r.
  rewrite (app_removelast_last [] H) at 3.
  now rewrite <- app_assoc.
Qed.

Lemma trimmed_no_LF_end (d : str) :
  lead_ok (rev d) = true -> ~ exists d0, d = d0 ++ [LF].
Proof.
  intros H (d0 & ->). rewrite rev_app_distr in H. discriminate.
Qed.

(** Two trimmed documents with a blank line between them split into the
    blocks of the first followed by the blocks of the second. *)
Lemma split_blocks_two (d1 d2 : str) :
  d1 <> [] -> d2 <> [] ->
  strip d1 = d1 -> strip d2 = d2 ->
  split_blocks (d1 ++ [LF; LF] ++ d2) = split_blocks d1 ++ split_blocks d2.
Proof.
  intros Hn1 Hn2 H1 H2. unfold split_blocks. rewrite H1, H2.
  assert (L1 : lead_ok d1 = true)
    by (rewrite <- H1; apply TrimFacts.strip_lead_ok).
  assert (R1 : lead_ok (rev d1) = true)
    by (rewrite <- H1; apply TrimFacts.strip_tail_ok).
  assert (R2 : lead_ok (rev d2) = true)
    by (rewrite <- H2; apply TrimFacts.strip_tail_ok).
  rewrite CleanFacts.strip_fixed.
  - rewrite SplitFacts.split_blocks_app.
    + cbn [app]. rewrite split_separator_first.
      apply glue_fresh_piece, SplitFacts.split_nonempty.
    + intros [H _]. exact (@trimmed_no_LF_end d1 R1 H).
  - destruct d1; [congruence|exact L1].
  - rewrite !rev_app_distr. destruct (rev d2) eqn:E; [|exact R2].
    apply (f_equal (@rev char)) in E. rewrite rev_involutive in E.
    simpl in E. congruence.
Qed.

End ComposeFacts.

(** X5.  Two documents put together with a blank line between them parse
    to the entries of the first followed by the entries of the second,
    when both are trimmed, not empty and free of carriage returns. *)
Theorem documents_compose (d1 d2 : str) :
  ~ In CR d1 -> ~ In CR d2 ->
  d1 <> [] -> d2 <> [] ->
  Str.strip d1 = d1 -> Str.strip d2 = d2 ->
  exists l1 l2,
    parse_srt d1 = Ret l1 /\ parse_srt d2 = Ret l2
    /\ parse_srt (d1 ++ [LF; LF] ++ d2) = Ret (l1 ++ l2).
Proof.
  intros C1 C2 Hn1 Hn2 H1 H2.
  rewrite !parse_srt_flat_map.
  do 2 eexists. split; [reflexivity|]. split; [reflexivity|].
  rewrite !normalize_fixed; auto.
  - rewrite ComposeFacts.split_blocks_two by assumption.
    now rewrite flat_map_app.
  - intros H. apply in_app_or in H as [H|H]; [auto|].
    apply in_app_or in H as [H|H]; [|auto].
    destruct H as [H|[H|[]]]; discriminate.
Qed.

Lemma documents_compose_witness :
  parse_srt (py ("1" ++ nl ++ ts2 ++ nl ++ "five")%string
             ++ [LF; LF] ++ py ("2" ++ nl ++ ts1 ++ nl ++ "one")%string)
  = Ret ([Subtitle (py "00:00:05,000") (py "00:00:07,000") (py "five")]
         ++ [Subtitle (py "00:00:01,000") (py "00:00:02,000") (py "one")]).
Proof.
  destruct (@documents_compose
              (py ("1" ++ nl ++ ts2 ++ nl ++ "five")%string)
              (py ("2" ++ nl ++ ts1 ++ nl ++ "one")%string))
    as (l1 & l2 & E1 & E2 & E).
  - intros H. vm_compute in H. intuition discriminate.
  - intros H. vm_compute in H. intuition discriminate.
  - discriminate.
  - discriminate.
  - vm_compute. reflexivity.
  - vm_compute. reflexivity.
  - rewrite E.
    assert (F1 : parse_srt (py ("1" ++ nl ++ ts2 ++ nl ++ "five")%string)
                 = Ret [Subtitle (py "00:00:05,000") (py "00:00:07,000")
                                 (py "five")])
      by (vm_compute; reflexivity).
    assert (F2 : parse_srt (py ("2" ++ nl ++ ts1 ++ nl ++ "one")%string)
                 = Ret [Subtitle (py "00:00:01,000") (py "00:00:02,000")
                                 (py "one")])
      by (vm_compute; reflexivity).
    rewrite F1 in E1. rewrite F2 in E2.
    injection E1 as <-. injection E2 as <-. reflexivity.
Defined.

(** ** No tag is left in the text *)

Module TagFacts.
Import Str StrFacts Re ReSem.

Lemma first_occurrence (a : char) (l : str) :
  In a l -> exists l1 l2, l = l1 ++ a :: l2 /\ ~ In a l1.
Proof.
  induction l as [|x l IH]; intros H; [destruct H|].
  destruct (N.eq_dec x a) as [->|Hx].
  - exists [], l. split; [reflexivity|intros []].
  - destruct H as [H|H]; [congruence|].
    destruct (IH H) as (l1 & l2 & -> & Hl1).
    exists (x :: l1), l2. split; [reflexivity|].
    intros [E|E]; [congruence|auto].
Qed.

Lemma existsb_GT (r : str) :
  existsb (fun c => (c =? GT)%N) r = true <-> In GT r.
Proof.
  rewrite existsb_exists. split.
  - intros (x & Hx & E). apply N.eqb_eq in E. now subst x.
  - intros H. exists GT. split; [exact H|apply N.eqb_refl].
Qed.

Lemma tag_body_iff (r : str) :
  tag_body r = true <->
  exists b c, r = b ++ GT :: c /\ b <> [] /\ ~ In GT b.
Proof.
  split.
  - destruct r as [|x r]; [discriminate|]. simpl.
    intros H. apply andb_true_iff in H as [Hx Hr].
    apply negb_true_iff, N.eqb_neq in Hx.
    apply existsb_GT, first_occurrence in Hr as (l1 & l2 & -> & Hl1).
    exists (x :: l1), l2. split; [reflexivity|]. split; [discriminate|].
    intros [E|E]; [congruence|auto].
  - intros (b & c & -> & Hb & Hgt).
    destruct b as [|x b]; [congruence|]. simpl.
    apply andb_true_iff. split.
    + apply negb_true_iff, N.eqb_neq. intros ->. apply Hgt. now left.
    + apply existsb_GT. apply in_or_app. right. now left.
Qed.

Lemma has_tag_nil : ~ has_tag [].
Proof.
  intros (a & b & c & E & _). destruct a; discriminate.
Qed.

Lemma has_tag_cons_iff (c : char) (s : str) :
  has_tag (c :: s) <-> (c = LT /\ tag_body s = true) \/ has_tag s.
Proof.
  split.
  - intros (a & b & d & E & Hb & Hgt). destruct a as [|x a].
    + left. simpl in E. injection E as -> ->. split; [reflexivity|].
      apply tag_body_iff. now exists b, d.
    + right. simpl in E. injection E as -> ->. now exists a, b, d.
  - intros [[-> H]|H].
    + apply tag_body_iff in H as (b & d & -> & Hb & Hgt).
      now exists [], b, d.
    + now apply CleanFacts.has_tag_cons.
Qed.

(** Where the body of a tag follows a [<], the pattern matches. *)
Lemma tag_body_match (r : str) :
  tag_body r = true -> match_at tag_pattern 0 (LT :: r) <> None.
Proof.
  intros H. apply tag_body_iff in H as (b & c & -> & Hb & Hgt).
  replace (LT :: b ++ GT :: c) with ((LT :: b ++ [GT]) ++ c)
    by (simpl; now rewrite <- app_assoc).
  apply ReFacts.match_at_complete with (g' := []).
  unfold tag_pattern. cbn [cat sem].
  exists [LT], (b ++ [GT]), []. split; [reflexivity|]. split; [now split|].
  exists b, [GT], []. split; [reflexivity|]. split; [|now split].
  split; [|split; [|split; [exact I|reflexivity]]].
  - apply forallb_forall. intros x Hx.
    apply negb_true_iff, N.eqb_neq. intros ->. auto.
  - destruct b; [congruence|simpl; lia].
Qed.

(** A match of the pattern starts with [<] and is not empty. *)
Lemma tag_match_shape (pos : nat) (s : str) (m : match_obj) :
  match_at tag_pattern pos s = Some m ->
  exists r, s = LT :: r /\ length (m_text m) <> 0.
Proof.
  intros H. apply ReFacts.match_at_sound in H as (Hs & _ & Hsem).
  apply CleanFacts.sem_tag in Hsem as (b & Hb & _).
  rewrite Hs, Hb. exists (b ++ [GT] ++ m_rest m). split.
  - simpl. now rewrite <- !app_assoc.
  - simpl. discriminate.
Qed.

(** Removing characters from what follows a [<] that opens no tag does
    not let it open one: either a [>] comes right after it and stays
    there, or no [>] comes after it at all. *)
Lemma sub_keeps_no_body (s : str) :
  tag_body s = false -> tag_body (sub_from tag_pattern [] 0 s) = false.
Proof.
  intros H. destruct s as [|x s]; [reflexivity|].
  destruct (N.eq_dec x GT) as [->|Hx].
  - cbn [sub_from].
    destruct (match_at tag_pattern 0 (GT :: s)) as [m|] eqn:E.
    + apply tag_match_shape in E as (r & Hr & _). discriminate.
    + reflexivity.
  - simpl in H. apply andb_false_iff in H as [H|H].
    { apply negb_false_iff, N.eqb_eq in H. congruence. }
    destruct (tag_body (sub_from tag_pattern [] 0 (x :: s))) eqn:T;
      [|reflexivity].
    apply tag_body_iff in T as (b & c & E & _ & _).
    assert (Hin : In GT (sub_from tag_pattern [] 0 (x :: s))).
    { rewrite E. apply in_or_app. right. now left. }
    apply OriginFacts.In_sub_from in Hin as [[]|[Hin|Hin]];
      [congruence|].
    apply existsb_GT in Hin. congruence.
Qed.

Lemma sub_from_no_tag (s : str) :
  forall k, ~ has_tag (sub_from tag_pattern [] k s).
Proof.
  induction s as [|c s IH]; intros k.
  - cbn [sub_from]. destruct k; [|apply has_tag_nil].
    destruct (match_at tag_pattern 0 []); apply has_tag_nil.
  - destruct k as [|k]; [|apply IH].
    cbn [sub_from].
    destruct (match_at tag_pattern 0 (c :: s)) as [m|] eqn:E.
    + destruct (tag_match_shape _ _ E) as (r & _ & Hlen).
      destruct (length (m_text m)); [congruence|]. apply IH.
    + intros H. apply has_tag_cons_iff in H as [[-> H]|H].
      * destruct (tag_body s) eqn:T.
        -- now apply tag_body_match in T.
        -- apply sub_keeps_no_body in T. congruence.
      * exact (IH 0 H).
Qed.

Lemma remove_dash_keeps_no_body (s : str) :
  tag_body s = false ->
  tag_body (replace_from [DASH; SP] [] 0 s) = false.
Proof.
  intros H. destruct s as [|x s]; [reflexivity|].
  destruct (N.eq_dec x GT) as [->|Hx].
  - reflexivity.
  - simpl in H. apply andb_false_iff in H as [H|H].
    { apply negb_false_iff, N.eqb_eq in H. congruence. }
    destruct (tag_body (replace_from [DASH; SP] [] 0 (x :: s))) eqn:T;
      [|reflexivity].
    apply tag_body_iff in T as (b & c & E & _ & _).
    assert (Hin : In GT (replace_from [DASH; SP] [] 0 (x :: s))).
    { rewrite E. apply in_or_app. right. now left. }
    apply ContentFacts.In_replace_from in Hin as [[]|[Hin|Hin]];
      [congruence|].
    apply existsb_GT in Hin. congruence.
Qed.

Lemma remove_dash_no_tag (s : str) :
  forall k, ~ has_tag s -> ~ has_tag (replace_from [DASH; SP] [] k s).
Proof.
  induction s as [|c s IH]; intros k Hs; [exact Hs|].
  assert (Hs' : ~ has_tag s).
  { intros H. apply Hs. now apply CleanFacts.has_tag_cons. }
  destruct k as [|k]; [|now apply IH].
  cbn [replace_from nonempty andb].
  destruct (startswith [DASH; SP] (c :: s)); [now apply IH|].
  intros H. apply has_tag_cons_iff in H as [[-> H]|H].
  - destruct (tag_body s) eqn:T.
    + apply Hs. apply has_tag_cons_iff. now left.
    + apply remove_dash_keeps_no_body in T. congruence.
  - exact (IH 0 Hs' H).
Qed.

Lemma has_tag_middle (a s b : str) : has_tag s -> has_tag (a ++ s ++ b).
Proof.
  intros (x & y & z & -> & H). exists (a ++ x), y, (z ++ b).
  split; [|exact H]. now rewrite <- !app_assoc.
Qed.

Lemma strip_no_tag (s : str) : ~ has_tag s -> ~ has_tag (strip s).
Proof.
  intros H Ht. apply H.
  destruct (CleanFacts.strip_split s) as (a & b & E).
  rewrite E. now apply has_tag_middle.
Qed.

Lemma clean_no_tag (text_lines : list str) : ~ has_tag (clean text_lines).
Proof.
  unfold clean. apply strip_no_tag, remove_dash_no_tag, strip_no_tag.
  apply sub_from_no_tag.
Qed.

End TagFacts.

(** X6.  No entry that [parse_srt] returns has a tag left in its text:
    nowhere in it does a [<] come before one or more characters other than
    [>] and then a [>]. *)
Theorem emitted_text_has_no_tag (srt_content : str) :
  exists l,
    parse_srt srt_content = Ret l
    /\ Forall (fun e => ~ has_tag (text e)) l.
Proof.
  rewrite parse_srt_flat_map. eexists. split; [reflexivity|].
  apply Forall_forall. intros e He.
  apply in_flat_map in He as (block & _ & He).
  destruct (BlockFacts.entries_of_inv _ _ He)
    as (m & t1 & t2 & _ & _ & _ & _ & _ & _ & _ & _ & Htext & _).
  rewrite Htext. apply TagFacts.clean_no_tag.
Qed.

(** * The choice of a subtitle file *)

(** ** The order of the numbers *)

Module NumberFacts.
Import Json.

Lemma scaled_split (m e e1 e0 : Z) :
  (e0 <= e1)%Z -> (e1 <= e)%Z ->
  scaled m e e0 = (scaled m e e1 * 2 ^ (e1 - e0))%Z.
Proof.
  intros H0 H1. unfold scaled.
  replace (e - e0)%Z with ((e - e1) + (e1 - e0))%Z by lia.
  rewrite Z.pow_add_r by lia. now rewrite Z.mul_assoc.
Qed.

(** Two finite numbers are compared as well in any smaller unit. *)
Lemma finite_ltb_at (m1 e1 m2 e2 e0 : Z) :
  (e0 <= e1)%Z -> (e0 <= e2)%Z ->
  num_ltb (Finite m1 e1) (Finite m2 e2)
  = (scaled m1 e1 e0 <? scaled m2 e2 e0)%Z.
Proof.
  intros H1 H2. cbn [num_ltb]. cbv zeta.
  set (mn := Z.min e1 e2).
  rewrite (@scaled_split m1 e1 mn e0), (@scaled_split m2 e2 mn e0)
    by (subst mn; lia).
  assert (Hpos : (0 < 2 ^ (mn - e0))%Z)
    by (apply Z.pow_pos_nonneg; subst mn; lia).
  destruct (Z.ltb_spec (scaled m1 e1 mn) (scaled m2 e2 mn)) as [Hlt|Hge];
    symmetry.
  - apply Z.ltb_lt. now apply Z.mul_lt_mono_pos_r.
  - apply Z.ltb_ge. now apply Z.mul_le_mono_nonneg_r; [apply Z.lt_le_incl|].
Qed.

Lemma finite_eqb_at (m1 e1 m2 e2 e0 : Z) :
  (e0 <= e1)%Z -> (e0 <= e2)%Z ->
  num_eqb (Finite m1 e1) (Finite m2 e2)
  = (scaled m1 e1 e0 =? scaled m2 e2 e0)%Z.
Proof.
  intros H1 H2. cbn [num_eqb]. cbv zeta.
  set (mn := Z.min e1 e2).
  rewrite (@scaled_split m1 e1 mn e0), (@scaled_split m2 e2 mn e0)
    by (subst mn; lia).
  assert (Hpos : (0 < 2 ^ (mn - e0))%Z)
    by (apply Z.pow_pos_nonneg; subst mn; lia).
  destruct (Z.eqb_spec (scaled m1 e1 mn) (scaled m2 e2 mn)) as [E|N];
    symmetry.
  - apply Z.eqb_eq. now rewrite E.
  - apply Z.eqb_neq. intros E. apply N.
    apply Z.mul_cancel_r in E; [exact E|lia].
Qed.

(** An [int] is compared with an [int] as integers are. *)
Lemma int_ltb (a b : Z) :
  num_ltb (Finite a 0) (Finite b 0) = (a <? b)%Z.
Proof.
  rewrite (@finite_ltb_at a 0 b 0 0) by lia.
  unfold scaled. simpl. now rewrite !Z.mul_1_r.
Qed.

(** [<] is asymmetric. *)
Lemma num_ltb_asym (x y : number) :
  num_ltb x y = true -> num_ltb y x = false.
Proof.
  destruct x as [|nx|m1 e1], y as [|ny|m2 e2]; try reflexivity;
    try (destruct nx; try destruct ny; simpl; congruence).
  - destruct ny; simpl; congruence.
  - rewrite (@finite_ltb_at m1 e1 m2 e2 (Z.min e1 e2)) by lia.
    rewrite (@finite_ltb_at m2 e2 m1 e1 (Z.min e1 e2)) by lia.
    intros H. apply Z.ltb_lt in H. apply Z.ltb_ge. lia.
Qed.

(** Not being greater is transitive through a number that is not NaN. *)
Lemma num_le_trans (x y z : number) :
  is_nan y = false ->
  num_ltb y x = false -> num_ltb z y = false -> num_ltb z x = false.
Proof.
  intros Hy Hxy Hyz.
  destruct y as [|ny|m2 e2]; [discriminate| |].
  - destruct x as [|nx|m1 e1], z as [|nz|m3 e3]; try reflexivity;
      destruct ny; simpl in *;
      try destruct nx; try destruct nz; simpl in *; congruence.
  - destruct x as [|nx|m1 e1], z as [|nz|m3 e3]; try reflexivity.
    + destruct nx, nz; simpl in *; congruence.
    + destruct nx; simpl in *; congruence.
    + destruct nz; simpl in *; congruence.
    + set (e0 := Z.min (Z.min e1 e2) e3).
      rewrite (@finite_ltb_at m2 e2 m1 e1 e0) in Hxy by (subst e0; lia).
      rewrite (@finite_ltb_at m3 e3 m2 e2 e0) in Hyz by (subst e0; lia).
      rewrite (@finite_ltb_at m3 e3 m1 e1 e0) by (subst e0; lia).
      apply Z.ltb_ge in Hxy, Hyz. apply Z.ltb_ge. lia.
Qed.

End NumberFacts.

Module FetcherFacts.
Import Json Fetcher.

(** ** The stable sort *)

Section InsertionFacts.
Variables (A K : Type) (ltb : K -> K -> bool).

Lemma In_insert_desc (x y : K * A) (l : list (K * A)) :
  In x (insert_desc ltb y l) <-> x = y \/ In x l.
Proof.
  induction l as [|z l IH]; simpl.
  - intuition.
  - destruct (ltb (fst y) (fst z)); simpl; rewrite ?IH; intuition.
Qed.

Lemma In_sort_desc_by (x : K * A) (l : list (K * A)) :
  In x (sort_desc_by ltb l) <-> In x l.
Proof.
  induction l as [|y l IH]; simpl; [tauto|].
  fold (sort_desc_by ltb l). rewrite In_insert_desc, IH. intuition.
Qed.

Lemma sort_desc_by_nonempty (l : list (K * A)) :
  l <> [] -> sort_desc_by ltb l <> [].
Proof.
  destruct l as [|y l]; [congruence|]. intros _ E.
  assert (H : In y (sort_desc_by ltb (y :: l)))
    by (apply In_sort_desc_by; now left).
  rewrite E in H. destruct H.
Qed.
End InsertionFacts.

(** The sorted list begins with the first of the elements whose number is
    the greatest, when no number is NaN. *)
Lemma sort_desc_head (A : Type) (l : list (number * A)) :
  l <> [] ->
  Forall (fun ka => is_nan (fst ka) = false) l ->
  exists pre n best post rest,
    l = pre ++ (n, best) :: post
    /\ Forall (fun ka => num_ltb (fst ka) n = true) pre
    /\ Forall (fun ka => num_ltb n (fst ka) = false) post
    /\ sort_desc_by num_ltb l = (n, best) :: rest.
Proof.
  induction l as [|[k a] l IH]; [congruence|]. intros _ Hnan.
  inversion Hnan as [|? ? _ Hnan']; subst.
  destruct l as [|y l].
  - exists [], k, a, [], []. repeat split; constructor.
  - destruct (IH ltac:(discriminate) Hnan')
      as (pre & n & best & post & rest & E & Hpre & Hpost & Hs).
    assert (Hn : is_nan n = false).
    { rewrite E in Hnan'. apply Forall_app in Hnan' as [_ Hn].
      inversion Hn; subst. assumption. }
    change (sort_desc_by num_ltb ((k, a) :: y :: l))
      with (insert_desc num_ltb (k, a) (sort_desc_by num_ltb (y :: l))).
    rewrite Hs. cbn [insert_desc fst].
    destruct (num_ltb k n) eqn:Hkn.
    + exists ((k, a) :: pre), n, best, post,
             (insert_desc num_ltb (k, a) rest).
      rewrite E. repeat split; auto.
    + exists [], k, a, (y :: l), ((n, best) :: rest).
      repeat split; auto. rewrite E.
      apply Forall_app. split.
      * eapply Forall_impl; [|exact Hpre]. cbn beta. intros p Hp.
        apply (@NumberFacts.num_le_trans (fst p) n k Hn); [|exact Hkn].
        now apply NumberFacts.num_ltb_asym.
      * constructor; [exact Hkn|].
        eapply Forall_impl; [|exact Hpost]. cbn beta. intros q Hq.
        exact (@NumberFacts.num_le_trans (fst q) n k Hn Hq Hkn).
Qed.

Lemma no_nan_existsb (A : Type) (l : list (number * A)) :
  Forall (fun ka => is_nan (fst ka) = false) l ->
  existsb (fun ka => is_nan (fst ka)) l = false.
Proof.
  induction 1 as [|x l Hx _ IH]; [reflexivity|].
  simpl. now rewrite Hx, IH.
Qed.

Lemma all_keys_snd (A K : Type) (f : sort_key -> option K)
      (l : list (sort_key * A)) (r : list (K * A)) :
  all_keys f l = Some r -> map snd r = map snd l.
Proof.
  revert r. induction l as [|[k a] l IH]; intros r H; simpl in H.
  - now injection H as <-.
  - destruct (f k); [|discriminate].
    destruct (all_keys f l); [|discriminate].
    injection H as <-. simpl. f_equal. now apply IH.
Qed.

Lemma all_keys_nil (A K : Type) (f : sort_key -> option K)
      (l : list (sort_key * A)) :
  all_keys f l = Some [] -> l = [].
Proof.
  destruct l as [|[k a] l]; [reflexivity|]. simpl.
  destruct (f k); [|discriminate].
  destruct (all_keys f l); discriminate.
Qed.


(** With numbers other than NaN for keys the sort does not raise, and its
    first element is the first of those with the greatest number. *)
Lemma sort_reverse_numbers (A : Type) (l : list (sort_key * A))
      (nl : list (number * A)) :
  l <> [] -> all_keys num_key l = Some nl ->
  Forall (fun ka => is_nan (fst ka) = false) nl ->
  exists pre n best post rest,
    nl = pre ++ (n, best) :: post
    /\ Forall (fun ka => num_ltb (fst ka) n = true) pre
    /\ Forall (fun ka => num_ltb n (fst ka) = false) post
    /\ sort_reverse l = Val (best :: rest).
Proof.
  intros Hl Hn Hnan.
  assert (Hnl : nl <> []).
  { intros ->. apply all_keys_nil in Hn. congruence. }
  destruct (sort_desc_head Hnl Hnan)
    as (pre & n & best & post & rest & E & Hpre & Hpost & Hs).
  exists pre, n, best, post, (map snd rest).
  repeat split; auto.
  unfold sort_reverse. destruct l as [|p [|q l]]; [congruence| |].
  - destruct p as [k a]. simpl in Hn.
    destruct (num_key k); [|discriminate]. injection Hn as <-.
    simpl in Hs. injection Hs as _ <- <-. reflexivity.
  - rewrite Hn, (no_nan_existsb Hnan), Hs. reflexivity.
Qed.

(** ** The loop that collects the candidates *)

Lemma get_dict (v : json) (k : str) (default x : json) :
  get v k default = Val x -> is_dict v = true.
Proof. destruct v; simpl; intros H; try discriminate. reflexivity. Qed.

Lemma get_not_dict (v : json) (k : str) (default : json) :
  is_dict v = false -> get v k default = Exn EAttribute.
Proof. destruct v; simpl; intros H; try discriminate; reflexivity. Qed.

Lemma collect_acc (subs : list json) :
  forall acc,
    collect subs acc
    = match collect subs [] with
      | Val r => Val (acc ++ r)
      | Exn e => Exn e
      | Unmodelled => Unmodelled
      end.
Proof.
  induction subs as [|sub subs IH]; intros acc; simpl.
  - now rewrite app_nil_r.
  - destruct (get sub (py "attributes") (JDict [])) as [attrs| |];
      simpl; auto.
    destruct (get attrs (py "ai_translated") JNull) as [ai| |];
      simpl; auto.
    destruct (eq_True ai); [apply IH|].
    destruct (get attrs (py "files") JNull) as [files| |]; simpl; auto.
    destruct (truthy files); simpl; [|apply IH].
    rewrite (IH (acc ++ [attrs])), (IH [attrs]).
    destruct (collect subs []); auto. now rewrite <- app_assoc.
Qed.

Lemma collect_app (pre rest : list json) :
  forall acc,
    collect (pre ++ rest) acc
    = obind (collect pre acc) (fun cs => collect rest cs).
Proof.
  induction pre as [|sub pre IH]; intros acc; simpl; [reflexivity|].
  destruct (get sub (py "attributes") (JDict [])) as [attrs| |];
    simpl; auto.
  destruct (get attrs (py "ai_translated") JNull) as [ai| |];
    simpl; auto.
  destruct (eq_True ai); [apply IH|].
  destruct (get attrs (py "files") JNull) as [files| |]; simpl; auto.
  destruct (truthy files); simpl; apply IH.
Qed.

Lemma collect_eligible (subs : list json) :
  forall acc r,
    collect subs acc = Val r ->
    forall a, In a r ->
              In a acc \/ exists sub, In sub subs /\ eligible sub a.
Proof.
  induction subs as [|sub subs IH]; intros acc r H a Ha; simpl in H.
  - injection H as <-. now left.
  - destruct (get sub (py "attributes") (JDict [])) as [attrs| |] eqn:E1;
      simpl in H; try discriminate.
    destruct (get attrs (py "ai_translated") JNull) as [ai| |] eqn:E2;
      simpl in H; try discriminate.
    destruct (eq_True ai) eqn:E3.
    { destruct (IH _ _ H _ Ha) as [?|(s & Hs & He)]; [now left|].
      right. exists s. split; [now right|exact He]. }
    destruct (get attrs (py "files") JNull) as [files| |] eqn:E4;
      simpl in H; try discriminate.
    destruct (truthy files) eqn:E5; simpl in H.
    + destruct (IH _ _ H _ Ha) as [Hin|(s & Hs & He)].
      * apply in_app_or in Hin as [Hin|[<-|[]]]; [now left|].
        right. exists sub. split; [now left|].
        split; [exact E1|]. split; eauto.
      * right. exists s. split; [now right|exact He].
    + destruct (IH _ _ H _ Ha) as [?|(s & Hs & He)]; [now left|].
      right. exists s. split; [now right|exact He].
Qed.

Lemma eligible_dict (sub attrs : json) :
  eligible sub attrs -> is_dict attrs = true.
Proof. intros (_ & (ai & H & _) & _). exact (get_dict _ _ _ H). Qed.

Lemma with_keys_dicts (l : list json) :
  Forall (fun a => is_dict a = true) l ->
  exists keyed, with_keys l = Val keyed /\ map snd keyed = l.
Proof.
  induction l as [|a l IH]; intros H.
  - now exists [].
  - inversion H as [|? ? Ha Hl]; subst.
    destruct (IH Hl) as (keyed & E & Hk).
    destruct a; try discriminate. simpl.
    destruct (lookup (py "download_count") d) as [k|];
      simpl; rewrite E; simpl; eexists; (split; [reflexivity|]);
      simpl; now rewrite Hk.
Qed.


End FetcherFacts.

Module BestFacts.
Import Json Fetcher FetcherFacts.

Lemma collect_nonempty_subs (subs cands : list json) :
  collect subs [] = Val cands -> cands <> [] -> subs <> [].
Proof. intros H Hc ->. simpl in H. injection H as <-. congruence. Qed.

Lemma candidates_are_dicts (subs cands : list json) :
  collect subs [] = Val cands ->
  Forall (fun a => is_dict a = true) cands.
Proof.
  intros H. apply Forall_forall. intros a Ha.
  destruct (collect_eligible _ _ H _ Ha) as [[]|(sub & _ & He)].
  exact (eligible_dict He).
Qed.

(** The function once the loop has left candidates. *)
Lemma find_best_candidates (subs cands : list json) :
  collect subs [] = Val cands -> cands <> [] ->
  exists keyed,
    with_keys cands = Val keyed /\ map snd keyed = cands
    /\ find_best_subtitle (JList subs)
       = obind (sort_reverse keyed)
               (fun sorted => obind (first (JList sorted)) file_id_of).
Proof.
  intros Hc Hne.
  destruct (with_keys_dicts (candidates_are_dicts _ Hc))
    as (keyed & Hk & Hs).
  exists keyed. split; [exact Hk|]. split; [exact Hs|].
  pose proof (collect_nonempty_subs Hc Hne) as Hsubs.
  unfold find_best_subtitle.
  destruct subs as [|s subs]; [congruence|].
  cbn [truthy Str.nonempty negb iterate obind]. rewrite Hc.
  cbn [obind]. destruct cands as [|c cands]; [congruence|].
  cbn [Str.nonempty]. rewrite Hk. reflexivity.
Qed.

Lemma all_keys_In (A K : Type) (f : sort_key -> option K)
      (l : list (sort_key * A)) (r : list (K * A)) (k : sort_key) (a : A) :
  all_keys f l = Some r -> In (k, a) l -> f k <> None.
Proof.
  revert r. induction l as [|[k' a'] l IH]; intros r H Hin; [destruct Hin|].
  simpl in H. destruct (f k') eqn:E; [|discriminate].
  destruct (all_keys f l) eqn:El; [|discriminate].
  destruct Hin as [Hin|Hin].
  - injection Hin as <- <-. congruence.
  - eapply IH; eauto.
Qed.

Lemma with_keys_In (l : list json) (keyed : list (sort_key * json))
      (d : list (str * json)) (k : json) :
  with_keys l = Val keyed -> In (JDict d) l ->
  lookup (py "download_count") d = Some k ->
  In (sort_key_of k, JDict d) keyed.
Proof.
  revert keyed. induction l as [|a l IH]; intros keyed H Hin Hk;
    [destruct Hin|].
  simpl in H.
  destruct (get a (py "download_count") (JInt 0)) as [ka| |] eqn:Ea;
    simpl in H; try discriminate.
  destruct (with_keys l) as [r| |]; simpl in H; try discriminate.
  injection H as <-. destruct Hin as [->|Hin].
  - left. simpl in Ea. rewrite Hk in Ea. now injection Ea as <-.
  - right. now apply IH.
Qed.

(** A key that cannot be compared makes the sort of two or more elements
    raise. *)
Lemma sort_reverse_bad_key (A : Type) (l : list (sort_key * A)) (a : A) :
  2 <= length l -> In (KBad, a) l -> sort_reverse l = Exn EType.
Proof.
  intros Hlen Hin. unfold sort_reverse.
  destruct l as [|p [|q l]]; simpl in Hlen; try lia.
  destruct (all_keys num_key (p :: q :: l)) eqn:En.
  { exfalso. eapply all_keys_In; [exact En|exact Hin|reflexivity]. }
  destruct (all_keys str_key (p :: q :: l)) eqn:Es.
  { exfalso. eapply all_keys_In; [exact Es|exact Hin|reflexivity]. }
  destruct (forallb (fun ka => is_list_key (fst ka)) (p :: q :: l)) eqn:F;
    [|reflexivity].
  rewrite forallb_forall in F. specialize (F _ Hin). discriminate.
Qed.

End BestFacts.

(** X7.  When the candidates that the loop keeps all have a number other
    than NaN for their download count (an [int], a [bool] or a [float];
    a candidate without a count has the count 0), [find_best_subtitle]
    returns the file id of the candidate with the greatest count, and of
    the first such candidate when several have it: the candidates before
    it in the list have a smaller count, and no candidate after it has a
    greater one.  [counts] is the list of the candidates, each with its
    count. *)
Theorem best_subtitle_is_most_downloaded
        (subs cands : list Json.json)
        (keyed : list (Json.sort_key * Json.json))
        (counts : list (Json.number * Json.json)) :
  Fetcher.collect subs [] = Json.Val cands ->
  cands <> [] ->
  Fetcher.with_keys cands = Json.Val keyed ->
  Json.all_keys Json.num_key keyed = Some counts ->
  Forall (fun ka => Json.is_nan (fst ka) = false) counts ->
  map snd counts = cands
  /\ exists pre n best post,
       counts = pre ++ (n, best) :: post
       /\ Forall (fun ka => Json.num_ltb (fst ka) n = true) pre
       /\ Forall (fun ka => Json.num_ltb n (fst ka) = false) post
       /\ Fetcher.find_best_subtitle (Json.JList subs)
          = Fetcher.file_id_of best.
Proof.
  intros Hc Hne Hk Hn Hnan.
  destruct (@BestFacts.find_best_candidates subs cands Hc Hne)
    as (keyed' & Hk' & Hs & Hf).
  rewrite Hk in Hk'. injection Hk' as <-.
  split.
  { now rewrite (@FetcherFacts.all_keys_snd _ _ _ _ _ Hn). }
  assert (Hkeyed : keyed <> []).
  { intros ->. simpl in Hs. congruence. }
  destruct (@FetcherFacts.sort_reverse_numbers _ keyed counts Hkeyed Hn Hnan)
    as (pre & n & best & post & rest & E & Hpre & Hpost & Hsort).
  exists pre, n, best, post. repeat split; auto.
  rewrite Hf, Hsort. reflexivity.
Qed.



(** Counts 5, 7.5 and 7.5 among the candidates, and 50 on a subtitle
    that a machine translated: the first candidate with 7.5 is chosen. *)
Lemma best_subtitle_is_most_downloaded_witness :
  map snd
    [(Json.Finite 5 0,
      Fetcher.sample_attrs (Json.JBool false) (Json.JInt 5) 1);
     (Json.Finite 15 (-1),
      Fetcher.sample_attrs Json.JNull (Json.JFloat (Json.Finite 15 (-1))) 3);
     (Json.Finite 15 (-1),
      Fetcher.sample_attrs (Json.JBool false)
                           (Json.JFloat (Json.Finite 15 (-1))) 4)]
  = [Fetcher.sample_attrs (Json.JBool false) (Json.JInt 5) 1;
     Fetcher.sample_attrs Json.JNull (Json.JFloat (Json.Finite 15 (-1))) 3;
     Fetcher.sample_attrs (Json.JBool false)
                          (Json.JFloat (Json.Finite 15 (-1))) 4]
  /\ exists pre n best post,
       [(Json.Finite 5 0,
         Fetcher.sample_attrs (Json.JBool false) (Json.JInt 5) 1);
        (Json.Finite 15 (-1),
         Fetcher.sample_attrs Json.JNull
                              (Json.JFloat (Json.Finite 15 (-1))) 3);
        (Json.Finite 15 (-1),
         Fetcher.sample_attrs (Json.JBool false)
                              (Json.JFloat (Json.Finite 15 (-1))) 4)]
       = pre ++ (n, best) :: post
       /\ Forall (fun ka => Json.num_ltb (fst ka) n = true) pre
       /\ Forall (fun ka => Json.num_ltb n (fst ka) = false) post
       /\ Fetcher.find_best_subtitle
            (Json.JList
               [Fetcher.sample_sub (Json.JBool false) (Json.JInt 5) 1;
                Fetcher.sample_sub (Json.JBool true) (Json.JInt 50) 2;
                Fetcher.sample_sub Json.JNull
                                   (Json.JFloat (Json.Finite 15 (-1))) 3;
                Fetcher.sample_sub (Json.JBool false)
                                   (Json.JFloat (Json.Finite 15 (-1))) 4])
          = Fetcher.file_id_of best.
Proof.
  apply (@best_subtitle_is_most_downloaded
           [Fetcher.sample_sub (Json.JBool false) (Json.JInt 5) 1;
            Fetcher.sample_sub (Json.JBool true) (Json.JInt 50) 2;
            Fetcher.sample_sub Json.JNull
                               (Json.JFloat (Json.Finite 15 (-1))) 3;
            Fetcher.sample_sub (Json.JBool false)
                               (Json.JFloat (Json.Finite 15 (-1))) 4]
           [Fetcher.sample_attrs (Json.JBool false) (Json.JInt 5) 1;
            Fetcher.sample_attrs Json.JNull
                                 (Json.JFloat (Json.Finite 15 (-1))) 3;
            Fetcher.sample_attrs (Json.JBool false)
                                 (Json.JFloat (Json.Finite 15 (-1))) 4]
           [(Json.KNum (Json.Finite 5 0),
             Fetcher.sample_attrs (Json.JBool false) (Json.JInt 5) 1);
            (Json.KNum (Json.Finite 15 (-1)),
             Fetcher.sample_attrs Json.JNull
                                  (Json.JFloat (Json.Finite 15 (-1))) 3);
            (Json.KNum (Json.Finite 15 (-1)),
             Fetcher.sample_attrs (Json.JBool false)
                                  (Json.JFloat (Json.Finite 15 (-1))) 4)]).
  - vm_compute. reflexivity.
  - discriminate.
  - vm_compute. reflexivity.
  - vm_compute. reflexivity.
  - repeat constructor.
Defined.

(** X9.  A subtitle of the list that is not a dict, or whose attributes
    are present and are not a dict (a null, for one), makes
    [find_best_subtitle] raise [AttributeError] when the loop reaches
    it. *)
Theorem malformed_subtitle_raises (pre post cs : list Json.json)
        (sub : Json.json) :
  Fetcher.collect pre [] = Json.Val cs ->
  (Fetcher.is_dict sub = false
   \/ exists v, Json.get sub (py "attributes") (Json.JDict []) = Json.Val v
                /\ Fetcher.is_dict v = false) ->
  Fetcher.find_best_subtitle (Json.JList (pre ++ sub :: post))
  = Json.Exn Json.EAttribute.
Proof.
  intros Hpre Hbad. unfold Fetcher.find_best_subtitle.
  assert (T : Json.truthy (Json.JList (pre ++ sub :: post)) = true)
    by (destruct pre; reflexivity).
  rewrite T. cbn [negb Json.iterate Json.obind].
  rewrite FetcherFacts.collect_app, Hpre. cbn [Json.obind Fetcher.collect].
  destruct Hbad as [Hs|(v & Hv & Hd)].
  - now rewrite (@FetcherFacts.get_not_dict sub _ _ Hs).
  - rewrite Hv. cbn [Json.obind].
    now rewrite (@FetcherFacts.get_not_dict v _ _ Hd).
Qed.

Lemma malformed_subtitle_raises_witness :
  Fetcher.find_best_subtitle
    (Json.JList
       ([Fetcher.sample_sub (Json.JBool false) (Json.JInt 5) 1]
        ++ Json.JDict [(py "attributes", Json.JNull)]
        :: [Fetcher.sample_sub (Json.JBool false) (Json.JInt 7) 4]))
  = Json.Exn Json.EAttribute.
Proof.
  apply (@malformed_subtitle_raises
           [Fetcher.sample_sub (Json.JBool false) (Json.JInt 5) 1]
           [Fetcher.sample_sub (Json.JBool false) (Json.JInt 7) 4]
           [Fetcher.sample_attrs (Json.JBool false) (Json.JInt 5) 1]).
  - vm_compute. reflexivity.
  - right. exists Json.JNull. split; reflexivity.
Defined.

(** X10.  The download counts are compared only when there are two
    candidates or more.  A single candidate is chosen whatever its count
    is; among several, a count that is null or a dict makes the sort, and
    with it [find_best_subtitle], raise [TypeError]. *)
Theorem download_count_compared_among_several
        (subs cands : list Json.json) :
  Fetcher.collect subs [] = Json.Val cands ->
  (forall a, cands = [a] ->
             Fetcher.find_best_subtitle (Json.JList subs)
             = Fetcher.file_id_of a)
  /\ (2 <= length cands ->
      forall d k,
        In (Json.JDict d) cands ->
        Json.lookup (py "download_count") d = Some k ->
        Json.sort_key_of k = Json.KBad ->
        Fetcher.find_best_subtitle (Json.JList subs)
        = Json.Exn Json.EType).
Proof.
  intros Hc. split.
  - intros a ->.
    destruct (@BestFacts.find_best_candidates subs [a] Hc)
      as (keyed & Hk & Hs & Hf); [discriminate|].
    rewrite Hf. destruct keyed as [|[k x] [|q keyed]]; try discriminate.
    simpl in Hs. injection Hs as ->. reflexivity.
  - intros Hlen d k Hin Hk Hbad.
    destruct (@BestFacts.find_best_candidates subs cands Hc)
      as (keyed & Hkeyed & Hs & Hf).
    { intros ->. simpl in Hlen. lia. }
    rewrite Hf.
    pose proof (@BestFacts.with_keys_In cands keyed d k Hkeyed Hin Hk)
      as Hkey.
    rewrite Hbad in Hkey.
    rewrite (@BestFacts.sort_reverse_bad_key _ keyed (Json.JDict d));
      [reflexivity| |exact Hkey].
    rewrite <- (length_map snd), Hs. exact Hlen.
Qed.

Lemma download_count_compared_among_several_witness :
  Fetcher.find_best_subtitle
    (Json.JList [Fetcher.sample_sub (Json.JBool false) Json.JNull 1])
  = Fetcher.file_id_of (Fetcher.sample_attrs (Json.JBool false) Json.JNull 1)
  /\ Fetcher.find_best_subtitle
       (Json.JList [Fetcher.sample_sub (Json.JBool false) Json.JNull 1;
                    Fetcher.sample_sub (Json.JBool false) (Json.JInt 3) 2])
     = Json.Exn Json.EType.
Proof.
  split.
  - refine (proj1 (@download_count_compared_among_several
                     [Fetcher.sample_sub (Json.JBool false) Json.JNull 1]
                     [Fetcher.sample_attrs (Json.JBool false) Json.JNull 1]
                     _) _ eq_refl).
    vm_compute. reflexivity.
  - refine (proj2 (@download_count_compared_among_several
                     [Fetcher.sample_sub (Json.JBool false) Json.JNull 1;
                      Fetcher.sample_sub (Json.JBool false) (Json.JInt 3) 2]
                     [Fetcher.sample_attrs (Json.JBool false) Json.JNull 1;
                      Fetcher.sample_attrs (Json.JBool false) (Json.JInt 3) 2]
                     _) _ _ Json.JNull _ _ _).
    + vm_compute. reflexivity.
    + simpl. lia.
    + left. reflexivity.
    + vm_compute. reflexivity.
    + reflexivity.
Defined.

(** * The scheduled fetch *)

Module ScheduleFacts.
Import Json Web Tmdb Schedule.

(** ** Pages and slices *)

Lemma firstn_plus (A : Type) (n m : nat) (l : list A) :
  firstn (n + m) l = firstn n l ++ firstn m (skipn n l).
Proof.
  revert l. induction n as [|n IH]; intros l; [reflexivity|].
  destruct l as [|x l]; simpl.
  - now rewrite firstn_nil.
  - now rewrite IH.
Qed.

Lemma even_cycle (k : Z) :
  tmdb_page (2 * k) = (k + 1)%Z /\ start_index (2 * k) = 0%Z.
Proof.
  unfold tmdb_page, start_index.
  rewrite Z.mul_comm, Z.div_mul, Z.mod_mul by lia. auto.
Qed.

Lemma odd_cycle (k : Z) :
  tmdb_page (2 * k + 1) = (k + 1)%Z /\ start_index (2 * k + 1) = 10%Z.
Proof.
  unfold tmdb_page, start_index.
  replace (2 * k + 1)%Z with (1 + k * 2)%Z by lia.
  rewrite Z.div_add, Z.mod_add by lia. auto.
Qed.

Lemma Forall_slice (A : Type) (P : A -> Prop) (l : list A) (a b : Z) :
  Forall P l -> Forall P (slice l a b).
Proof.
  intros H. unfold slice.
  set (s := skipn (Z.to_nat a) l).
  assert (Hs : Forall P s).
  { rewrite <- (firstn_skipn (Z.to_nat a) l) in H.
    now apply Forall_app in H as [_ H]. }
  rewrite <- (firstn_skipn (Z.to_nat (b - a)) s) in Hs.
  now apply Forall_app in Hs as [Hs _].
Qed.

(** ** The years *)


(** ** What [discover_popular_movies] returns *)

Section ClientFacts.
Variable W : Type.
Variable API_KEY : option str.
Variable http_get : request -> W -> W * attempt response.

Lemma discover_loop_sound (y : Z) (results : list json) :
  forall movies w,
    Forall (sound_movie y) movies ->
    Forall (sound_movie y) (snd (discover_loop http_get y results movies w)).
Proof.
  induction results as [|result rest IH]; intros movies w H;
    [exact H|].
  cbn [discover_loop].
  destruct (get result (py "id") JNull) as [movie_id| |]; try exact H.
  destruct (negb (truthy movie_id)); [now apply IH|].
  destruct (http_get (MovieDetail movie_id) w) as [w1 [resp|e]];
    [|now apply IH].
  destruct (status_code resp =? 200)%Z; [|now apply IH].
  destruct (json_body resp) as [d_data|e]; [|now apply IH].
  destruct (get d_data (py "imdb_id") JNull) as [imdb_id| |];
    try (now apply IH).
  destruct (truthy imdb_id) eqn:T; [|now apply IH].
  destruct (get result (py "title") JNull) as [title| |];
    try (now apply IH).
  apply IH. apply Forall_app. split; [exact H|].
  constructor; [|constructor]. split; [reflexivity|exact T].
Qed.

Lemma discover_sound (y page : Z) (w : W) :
  Forall (sound_movie y)
         (snd (discover_popular_movies API_KEY http_get y page w)).
Proof.
  unfold discover_popular_movies.
  destruct (no_key API_KEY); [constructor|].
  destruct (http_get (DiscoverMovies y page) w) as [w1 [resp|e]];
    [|constructor].
  destruct (raise_for_status resp); [|constructor].
  destruct (json_body resp) as [data|e]; [|constructor].
  destruct (get data (py "results") (JList [])) as [rs| |];
    try constructor.
  destruct (iterate rs) as [results| |]; try constructor.
  apply discover_loop_sound. constructor.
Qed.
End ClientFacts.

(** ** The two loops *)

Section FetchFacts.
Variable W : Type.
Variable API_KEY : option str.
Variable http_get : request -> W -> W * attempt response.
Variable get_api_token : W -> W * attempt json.
Variable fetch_movie_subtitles : json -> movie -> W -> W * attempt bool.

Let inner := process_movies fetch_movie_subtitles.
Let outer := process_years API_KEY http_get fetch_movie_subtitles.

(** The inner loop only counts upwards, never past the limit, and leaves
    [year] at the year of its tuples. *)
Lemma process_movies_spec (token : json) (y : Z) (movies : list movie) :
  forall st,
    Forall (fun m => movie_year m = y) movies ->
    (downloads_count st <= MAX_DOWNLOADS)%Z ->
    let r := inner token movies st in
    (downloads_count st <= downloads_count (fst r) <= MAX_DOWNLOADS)%Z
    /\ (year st = Some y -> year (fst r) = Some y).
Proof.
  induction movies as [|m rest IH]; intros st Hm Hc; cbn zeta.
  - simpl. split; [lia|auto].
  - inversion Hm as [|? ? Hy Hrest]; subst.
    unfold inner. cbn [process_movies downloads_count world year].
    destruct (Z.leb_spec MAX_DOWNLOADS (downloads_count st)) as [Hge|Hlt].
    + simpl. split; [lia|auto].
    + destruct (fetch_movie_subtitles token m (world st))
        as [w1 [[|]|e]].
      * specialize (IH (LoopState w1 (downloads_count st + 1)
                                  (Some (movie_year m))) Hrest).
        cbn [downloads_count year] in IH.
        destruct IH as [IH1 IH2]; [lia|].
        fold inner. split; [lia|]. intros _. now apply IH2.
      * specialize (IH (LoopState w1 (downloads_count st)
                                  (Some (movie_year m))) Hrest).
        cbn [downloads_count year] in IH.
        destruct IH as [IH1 IH2]; [lia|].
        fold inner. split; [lia|]. intros _. now apply IH2.
      * simpl. split; [lia|auto].
Qed.

Lemma process_years_count (token : json) (c : Z) (years : list Z) :
  forall st,
    (downloads_count st <= MAX_DOWNLOADS)%Z ->
    (downloads_count st
     <= downloads_count (fst (outer token c years st))
     <= MAX_DOWNLOADS)%Z.
Proof.
  induction years as [|y rest IH]; intros st Hc.
  - simpl. lia.
  - unfold outer. cbn [process_years downloads_count world year].
    destruct (Z.leb_spec MAX_DOWNLOADS (downloads_count st)) as [Hge|Hlt].
    + simpl. lia.
    + pose proof (discover_sound API_KEY http_get y (tmdb_page c)
                                 (world st)) as Hd.
      destruct (discover_popular_movies API_KEY http_get y (tmdb_page c)
                                        (world st)) as [w1 movies].
      cbn [snd] in Hd.
      destruct (cycle_slice c movies) as [|m ms] eqn:Es.
      * fold outer. specialize (IH (LoopState w1 (downloads_count st)
                                              (Some y))).
        cbn [downloads_count] in IH. apply IH. exact Hc.
      * assert (Hy : Forall (fun m => movie_year m = y) (m :: ms)).
        { rewrite <- Es. apply Forall_slice.
          eapply Forall_impl; [|exact Hd]. now intros ? [? _]. }
        pose proof (@process_movies_spec token y (m :: ms)
                      (LoopState w1 (downloads_count st) (Some y)) Hy Hc)
          as [Hcount _].
        cbn [downloads_count] in Hcount. unfold inner in Hcount.
        destruct (process_movies fetch_movie_subtitles token (m :: ms)
                    (LoopState w1 (downloads_count st) (Some y)))
          as [st3 [e|]]; cbn [fst] in *.
        -- lia.
        -- fold outer. specialize (IH st3). lia.
Qed.

End FetchFacts.

End ScheduleFacts.

(** X11.  Two cycles in a row, an even one and the odd one after it, read
    the same page of popular movies and work through its first twenty
    movies between them: the first ten, then the next ten, none left out
    and none taken twice. *)
Theorem cycle_slices_tile_page (A : Type) (k : Z) (movies : list A) :
  Schedule.tmdb_page (2 * k) = (k + 1)%Z
  /\ Schedule.tmdb_page (2 * k + 1) = (k + 1)%Z
  /\ Schedule.cycle_slice (2 * k) movies
     ++ Schedule.cycle_slice (2 * k + 1) movies
     = firstn 20 movies.
Proof.
  destruct (ScheduleFacts.even_cycle k) as [P0 S0].
  destruct (ScheduleFacts.odd_cycle k) as [P1 S1].
  split; [exact P0|]. split; [exact P1|].
  unfold Schedule.cycle_slice, Schedule.end_index, Schedule.slice.
  rewrite S0, S1.
  change (Z.to_nat (0 + 10 - 0)) with 10.
  change (Z.to_nat (10 + 10 - 10)) with 10.
  change (Z.to_nat 0) with 0. change (Z.to_nat 10) with 10.
  cbn [skipn]. symmetry. apply (ScheduleFacts.firstn_plus 10 10).
Qed.

(** X12.  Whatever the services answer, the movies that
    [discover_popular_movies] returns all carry the year that was asked
    for and an IMDb id that counts as true; without an API key it returns
    no movie and calls no service. *)
Theorem discovered_movies_are_sound
        (W : Type) (API_KEY : option str)
        (http_get : Web.request -> W -> W * Web.attempt Web.response)
        (year page : Z) (w : W) :
  Forall (Tmdb.sound_movie year)
         (snd (Tmdb.discover_popular_movies API_KEY http_get year page w))
  /\ (Tmdb.no_key API_KEY = true ->
      Tmdb.discover_popular_movies API_KEY http_get year page w = (w, [])).
Proof.
  split; [apply ScheduleFacts.discover_sound|].
  intros H. unfold Tmdb.discover_popular_movies. now rewrite H.
Qed.

(** X13.  Whatever the services answer and however a run ends, it counts
    at most twenty imported movies. *)
Theorem downloads_never_exceed_limit
        (W : Type) (API_KEY : option str)
        (http_get : Web.request -> W -> W * Web.attempt Web.response)
        (get_api_token : W -> W * Web.attempt Json.json)
        (fetch_movie_subtitles :
           Json.json -> Tmdb.movie -> W -> W * Web.attempt bool)
        (current_year current_cycle : Z) (w : W) :
  (0 <= Schedule.downloads_count
          (Schedule.final
             (Schedule.fetch_all_movies API_KEY http_get get_api_token
                fetch_movie_subtitles current_year current_cycle w))
   <= Schedule.MAX_DOWNLOADS)%Z.
Proof.
  unfold Schedule.fetch_all_movies.
  destruct (get_api_token w) as [w1 [token|e]];
    [|cbn; unfold Schedule.MAX_DOWNLOADS; lia].
  pose proof (@ScheduleFacts.process_years_count W API_KEY http_get
                fetch_movie_subtitles token current_cycle
                (Schedule.range_down current_year Schedule.start_year)
                (Schedule.LoopState w1 0 None)) as H.
  cbn [Schedule.downloads_count] in H.
  destruct (Schedule.process_years _ _ _ _ _ _ _) as [st [e|]];
    cbn [fst] in H.
  - cbn. apply H. unfold Schedule.MAX_DOWNLOADS. lia.
  - assert (Hst : (0 <= Schedule.downloads_count st
                   <= Schedule.MAX_DOWNLOADS)%Z)
      by (apply H; unfold Schedule.MAX_DOWNLOADS; lia).
    destruct (Schedule.year st); [|exact Hst].
    destruct (_ && _); exact Hst.
Qed.



Lemma discovered_movies_are_sound_witness :
  Tmdb.discover_popular_movies (W := unit) (Some [])
    (fun _ w => (w, Web.Raised Json.ERequest)) 1999 1 tt
  = (tt, []).
Proof.
  apply (proj2 (@discovered_movies_are_sound unit (Some [])
                  (fun _ w => (w, Web.Raised Json.ERequest)) 1999 1 tt)).
  reflexivity.
Defined.

(** * The links of [get_movie_data] *)

Module LinkFacts.
Import Json Web Tmdb.

Lemma replace_space_gone (s : str) : ~ In SP (Str.replace [SP] [PLUS] s).
Proof. apply StrFacts.replace_char_gone. discriminate. Qed.

Lemma justwatch_search_no_space : ~ In SP justwatch_search.
Proof. intros H. vm_compute in H. intuition discriminate. Qed.

Lemma google_search_no_space : ~ In SP google_search.
Proof. intros H. vm_compute in H. intuition discriminate. Qed.

Lemma link_no_space (prefix query : str) :
  ~ In SP prefix -> ~ In SP (prefix ++ Str.replace [SP] [PLUS] query).
Proof.
  intros Hp H. apply in_app_or in H as [H|H]; [auto|].
  exact (replace_space_gone _ H).
Qed.

End LinkFacts.

(** X15.  For a title that is a string and a year that is an integer or
    [None], whatever the service answers, [get_movie_data] returns a
    dictionary and does not raise.  The dictionary is the one of three
    [None]s, or one in which the JustWatch link and the Google link are
    present and contain no space. *)
Theorem movie_links_have_no_space
        (W : Type) (API_KEY : option str)
        (http_get : Web.request -> W -> W * Web.attempt Web.response)
        (title : str) (year : option Z) (country_code : str) (w : W) :
  exists w' d,
    Tmdb.get_movie_data API_KEY http_get title year country_code w
    = (w', Json.Val d)
    /\ (d = Tmdb.no_movie_data
        \/ exists l1 l2,
             Tmdb.justwatch_link d = Some l1
             /\ Tmdb.google_watchlist_link d = Some l2
             /\ ~ In SP l1 /\ ~ In SP l2).
Proof.
  unfold Tmdb.get_movie_data.
  destruct (Tmdb.no_key API_KEY).
  { exists w, Tmdb.no_movie_data. split; [reflexivity|now left]. }
  destruct (http_get (Web.SearchMovie title _) w) as [w1 r].
  match goal with
  | |- context [match ?found with Some _ => _ | None => _ end] =>
      destruct found as [[movie_id poster_path]|]
  end.
  2: { exists w1, Tmdb.no_movie_data. split; [reflexivity|now left]. }
  destruct (http_get (Web.WatchProviders movie_id) w1) as [w2 p].
  eexists w2, _. split; [reflexivity|]. right.
  cbn [Tmdb.justwatch_link Tmdb.google_watchlist_link].
  do 2 eexists. split; [reflexivity|]. split; [reflexivity|]. split.
  - apply LinkFacts.link_no_space, LinkFacts.justwatch_search_no_space.
  - destruct year as [y|]; [destruct (Tmdb.year_given (Some y))|];
      apply LinkFacts.link_no_space, LinkFacts.google_search_no_space.
Qed.

Lemma movie_links_have_no_space_witness :
  exists w' d,
    Tmdb.get_movie_data (Some (py "key")) Tmdb.sample_service
                        (py "The Matrix") (Some 1999%Z) (py "NG") 0
    = (w', Json.Val d)
    /\ (d = Tmdb.no_movie_data
        \/ exists l1 l2,
             Tmdb.justwatch_link d = Some l1
             /\ Tmdb.google_watchlist_link d = Some l2
             /\ ~ In SP l1 /\ ~ In SP l2).
Proof. apply movie_links_have_no_space. Defined.

(** The dictionary for the sample service, after its two requests: the
    link of the providers for US, since there is none for NG, and a
    poster path that is a list. *)
Lemma movie_data_of_sample_service :
  Tmdb.get_movie_data (Some (py "key")) Tmdb.sample_service
                      (py "The Matrix") (Some 1999%Z) (py "NG") 0
  = (2,
     Json.Val
       (Tmdb.MovieData
          (Json.JStr Tmdb.sample_link)
          (Some (py "https://www.justwatch.com/us/search?q=The+Matrix"))
          (Some (py "https://www.google.com/search?q=The+Matrix+1999+movie"))
          (Json.JInt 603)
          (Some (Tmdb.FString Tmdb.IMAGE_BASE_URL
                              (Json.JList [Json.JStr (py "a")]))))).
Proof. vm_compute. reflexivity. Qed.
